(** * gocloak: the wire codec of models.go

    A shallow embedding of the encoding logic of [models.go]:
    [GetQueryParams], [StringOrArray], [EnforcedString],
    [GetGroupsParams.MarshalJSON], [PolicyRepresentation.ToConfig] and
    [TokenOptions.FormData], together with the parts of Go's [unicode/utf8],
    [strings], [bytes] and [encoding/json] packages they call.

    Go strings and byte slices are sequences of bytes ([list ascii]); Go maps
    with string keys are [gmap]s; a pointer field [*T] is an [option T] with
    [None] for the nil pointer; methods with a pointer receiver return the
    receiver after the call next to their result. *)

From Stdlib Require Import NArith ZArith Ascii String List Bool Lia.
From Stdlib Require Import DecimalString DecimalFacts DecimalPos.
From stdpp Require Import gmap strings list.

Local Open Scope N_scope.

(** ** Bytes *)

Abbreviation bytes := (list ascii).

(** A byte string written as a literal. *)
Definition bs (s : string) : bytes := list_ascii_of_string s.

Definition code (c : ascii) : N := N_of_ascii c.

(** Conversion [byte(n)] of an integer: the low eight bits. *)
Definition byte_of (n : N) : ascii := ascii_of_N (n mod 256).

(** The quote character and the backslash. *)
Definition dq : ascii := "034"%char.
Definition bsl : ascii := "\"%char.

(** The 256 bytes, for properties checked byte by byte. *)
Definition all_ascii : list ascii := map ascii_of_nat (seq 0 256).

(** A Go slice: the nil slice and an allocated slice both have a length. *)
Inductive slice (A : Type) : Type :=
| nil_slice
| Slice (elems : list A).
Arguments nil_slice {A}.
Arguments Slice {A} elems.

Definition elems {A} (s : slice A) : list A :=
  match s with nil_slice => [] | Slice l => l end.

Definition len {A} (s : slice A) : nat := length (elems s).

(** ** unicode/utf8 *)

Module utf8.

Definition RuneError : N := 0xFFFD.
Definition RuneSelf : N := 0x80.
Definition MaxRune : N := 0x10FFFF.
Definition UTFMax : nat := 4.

Definition surrogateMin : N := 0xD800.
Definition surrogateMax : N := 0xDFFF.

Definition t2 : N := 0xC0.
Definition t3 : N := 0xE0.
Definition t4 : N := 0xF0.
Definition tx : N := 0x80.

Definition maskx : N := 0x3F.
Definition mask2 : N := 0x1F.
Definition mask3 : N := 0x0F.
Definition mask4 : N := 0x07.

Definition rune1Max : N := 0x7F.
Definition rune2Max : N := 0x7FF.
Definition rune3Max : N := 0xFFFF.

Definition locb : N := 0x80.
Definition hicb : N := 0xBF.

(** Entries of the [first] table: the low three bits are the size of the
    encoding, the high four bits index [acceptRanges]. *)
Definition xx : N := 0xF1.
Definition as_ : N := 0xF0.
Definition s1 : N := 0x02.
Definition s2 : N := 0x13.
Definition s3 : N := 0x03.
Definition s4 : N := 0x23.
Definition s5 : N := 0x34.
Definition s6 : N := 0x04.
Definition s7 : N := 0x44.

Definition first (b : N) : N :=
  if b <=? 0x7F then as_
  else if b <=? 0xC1 then xx
  else if b <=? 0xDF then s1
  else if b =? 0xE0 then s2
  else if b <=? 0xEC then s3
  else if b =? 0xED then s4
  else if b <=? 0xEF then s3
  else if b =? 0xF0 then s5
  else if b <=? 0xF3 then s6
  else if b =? 0xF4 then s7
  else xx.

Definition acceptRanges (i : N) : N * N :=
  match i with
  | 0 => (locb, hicb)
  | 1 => (0xA0, hicb)
  | 2 => (locb, 0x9F)
  | 3 => (0x90, hicb)
  | 4 => (locb, 0x8F)
  | _ => (0, 0)
  end.

(** [DecodeRune p] is the first rune of [p] and its width in bytes;
    [(RuneError, 1)] when the encoding is invalid. *)
Definition DecodeRune (p : bytes) : N * nat :=
  match p with
  | [] => (RuneError, 0%nat)
  | c0 :: p1 =>
    let p0 := code c0 in
    let x := first p0 in
    if as_ <=? x then (if x =? xx then RuneError else p0, 1%nat)
    else
      let sz := N.to_nat (N.land x 7) in
      let accept := acceptRanges (N.shiftr x 4) in
      if (length p <? sz)%nat then (RuneError, 1%nat) else
      match p1 with
      | [] => (RuneError, 1%nat)
      | c1 :: p2 =>
        let b1 := code c1 in
        if (b1 <? fst accept) || (snd accept <? b1) then (RuneError, 1%nat) else
        if (sz <=? 2)%nat then
          (N.lor (N.shiftl (N.land p0 mask2) 6) (N.land b1 maskx), 2%nat)
        else
        match p2 with
        | [] => (RuneError, 1%nat)
        | c2 :: p3 =>
          let b2 := code c2 in
          if (b2 <? locb) || (hicb <? b2) then (RuneError, 1%nat) else
          if (sz <=? 3)%nat then
            (N.lor (N.lor (N.shiftl (N.land p0 mask3) 12)
                          (N.shiftl (N.land b1 maskx) 6))
                   (N.land b2 maskx), 3%nat)
          else
          match p3 with
          | [] => (RuneError, 1%nat)
          | c3 :: _ =>
            let b3 := code c3 in
            if (b3 <? locb) || (hicb <? b3) then (RuneError, 1%nat) else
            (N.lor (N.lor (N.lor (N.shiftl (N.land p0 mask4) 18)
                                 (N.shiftl (N.land b1 maskx) 12))
                          (N.shiftl (N.land b2 maskx) 6))
                   (N.land b3 maskx), 4%nat)
          end
        end
      end
  end.

(** [AppendRune p r] appends the encoding of [r]; a surrogate or a value
    above [MaxRune] is written as [RuneError]. *)
Definition AppendRune (p : bytes) (r : N) : bytes :=
  if r <=? rune1Max then p ++ [byte_of r]
  else if r <=? rune2Max then
    p ++ [byte_of (N.lor t2 (N.shiftr r 6)); byte_of (N.lor tx (N.land r maskx))]
  else
    let r3 :=
      if (MaxRune <? r) || ((surrogateMin <=? r) && (r <=? surrogateMax))
      then Some RuneError
      else if r <=? rune3Max then Some r else None in
    match r3 with
    | Some r =>
      p ++ [byte_of (N.lor t3 (N.shiftr r 12));
            byte_of (N.lor tx (N.land (N.shiftr r 6) maskx));
            byte_of (N.lor tx (N.land r maskx))]
    | None =>
      p ++ [byte_of (N.lor t4 (N.shiftr r 18));
            byte_of (N.lor tx (N.land (N.shiftr r 12) maskx));
            byte_of (N.lor tx (N.land (N.shiftr r 6) maskx));
            byte_of (N.lor tx (N.land r maskx))]
    end.

(** The loop of [Valid]: every rune decodes without the [(RuneError, 1)]
    answer. [fuel] bounds the number of runes. *)
Fixpoint valid_loop (fuel : nat) (p : bytes) : bool :=
  match p with
  | [] => true
  | _ :: _ =>
    match fuel with
    | O => false
    | S fuel' =>
      let '(r, size) := DecodeRune p in
      if (r =? RuneError) && (size =? 1)%nat then false
      else valid_loop fuel' (drop size p)
    end
  end.

Definition Valid (p : bytes) : bool := valid_loop (length p) p.

(** A rune [r] of width [size] read from the start of [p]: its bytes are
    not ASCII and are the encoding of [r], whatever follows them. *)
Definition decoded (p : bytes) (r : N) (size : nat) : Prop :=
  (2 ≤ size ≤ 4)%nat ∧ (size ≤ length p)%nat ∧
  AppendRune [] r = take size p ∧
  (∀ X, DecodeRune (take size p ++ X) = (r, size)) ∧
  Forall (λ c, 128 ≤ code c) (take size p).

End utf8.

(** ** unicode/utf16 *)

Module utf16.

Definition surr1 : N := 0xd800.
Definition surr2 : N := 0xdc00.
Definition surr3 : N := 0xe000.
Definition surrSelf : N := 0x10000.
Definition replacementChar : N := 0xFFFD.

Definition IsSurrogate (r : N) : bool := (surr1 <=? r) && (r <? surr3).

(** [DecodeRune r1 r2] with [r2 = None] for a second half that is no
    [\uXXXX] escape at all. *)
Definition DecodeRune (r1 : N) (r2 : option N) : N :=
  match r2 with
  | Some r2 =>
    if (surr1 <=? r1) && (r1 <? surr2) && (surr2 <=? r2) && (r2 <? surr3)
    then N.lor (N.shiftl (r1 - surr1) 10) (r2 - surr2) + surrSelf
    else replacementChar
  | None => replacementChar
  end.

End utf16.

(** ** strings, bytes, strconv *)

Module strings.

(** [strings.Join]. *)
Fixpoint Join (elems : list bytes) (sep : bytes) : bytes :=
  match elems with
  | [] => []
  | [x] => x
  | x :: rest => x ++ sep ++ Join rest sep
  end.

Fixpoint HasPrefix (s prefix : bytes) : bool :=
  match prefix, s with
  | [], _ => true
  | _ :: _, [] => false
  | p :: prefix', c :: s' => bool_decide (c = p) && HasPrefix s' prefix'
  end.

(** The replacement loop of [bytes.ReplaceAll] for a non-empty [old]: the
    leftmost occurrence is replaced and the search resumes after it. *)
Fixpoint replace_loop (fuel : nat) (s old new : bytes) : bytes :=
  match fuel with
  | O => s
  | S fuel' =>
    match s with
    | [] => []
    | c :: s' =>
      if HasPrefix s old
      then new ++ replace_loop fuel' (drop (length old) s) old new
      else c :: replace_loop fuel' s' old new
    end
  end.

(** With an empty [old] the replacement is inserted before every rune and
    at the end. *)
Fixpoint insert_loop (fuel : nat) (s new : bytes) : bytes :=
  match fuel with
  | O => s
  | S fuel' =>
    match s with
    | [] => new
    | _ :: _ =>
      let '(_, wid) := utf8.DecodeRune s in
      new ++ take wid s ++ insert_loop fuel' (drop wid s) new
    end
  end.

Definition ReplaceAll (s old new : bytes) : bytes :=
  match old with
  | [] => insert_loop (S (length s)) s new
  | _ :: _ => replace_loop (length s) s old new
  end.

(** [strings.Index]: the offset of the first occurrence of [substr] in
    [s], and -1 if there is none. *)
Fixpoint Index (s substr : bytes) : Z :=
  if HasPrefix s substr then 0%Z
  else
    match s with
    | [] => (-1)%Z
    | _ :: s' =>
      let i := Index s' substr in
      if (i <? 0)%Z then (-1)%Z else (i + 1)%Z
    end.

Definition Contains (s substr : bytes) : bool := (0 <=? Index s substr)%Z.

End strings.

Module strconv.

Definition FormatBool (b : bool) : bytes :=
  if b then bs "true" else bs "false".

(** [strconv.Itoa]: base 10, a leading minus sign for negative numbers. *)
Definition Itoa (i : Z) : bytes := bs (NilZero.string_of_int (Z.to_int i)).

End strconv.

(** ** encoding/json *)

Module json.

Inductive error : Type :=
| SyntaxError
| UnmarshalTypeError
| UnsupportedTypeError.

(** *** Encoding of strings ([appendString]) *)

Definition hex : bytes := bs "0123456789abcdef".

Definition hexdigit (n : N) : ascii := nth (N.to_nat n) hex "0"%char.

(** [safeSet]: the ASCII bytes written without escaping; [htmlSafeSet]
    excludes the characters [<], [>] and [&] as well. *)
Definition safeSet (b : N) : bool :=
  (0x20 <=? b) && (b <? 0x80) && negb (b =? code dq) && negb (b =? code bsl).

Definition htmlSafeSet (b : N) : bool :=
  safeSet b && negb (b =? 38) && negb (b =? 60) && negb (b =? 62).

(** The escape written for an ASCII byte outside the safe set. *)
Definition escape_byte (b : ascii) : bytes :=
  let n := code b in
  if (n =? code bsl) || (n =? code dq) then [bsl; b]
  else if n =? 8 then bs "\b"
  else if n =? 12 then bs "\f"
  else if n =? 10 then bs "\n"
  else if n =? 13 then bs "\r"
  else if n =? 9 then bs "\t"
  else bs "\u00" ++ [hexdigit (N.shiftr n 4); hexdigit (N.land n 0xF)].

(** The loop of [appendString] over [src], one byte or one rune at a time;
    the spans the Go code copies between escapes are copied rune by rune. *)
Fixpoint appendString_loop (fuel : nat) (src : bytes) (escapeHTML : bool) : bytes :=
  match fuel with
  | O => []
  | S fuel' =>
    match src with
    | [] => []
    | b :: src' =>
      if code b <? utf8.RuneSelf then
        if htmlSafeSet (code b) || (negb escapeHTML && safeSet (code b))
        then b :: appendString_loop fuel' src' escapeHTML
        else escape_byte b ++ appendString_loop fuel' src' escapeHTML
      else
        let '(c, size) := utf8.DecodeRune (take utf8.UTFMax src) in
        if (c =? utf8.RuneError) && (size =? 1)%nat then
          bsl :: bs "ufffd" ++ appendString_loop fuel' (drop size src) escapeHTML
        else if (c =? 0x2028) || (c =? 0x2029) then
          bs "\u202" ++ [hexdigit (N.land c 0xF)]
            ++ appendString_loop fuel' (drop size src) escapeHTML
        else
          take size src ++ appendString_loop fuel' (drop size src) escapeHTML
    end
  end.

Definition appendString (dst src : bytes) (escapeHTML : bool) : bytes :=
  dst ++ [dq] ++ appendString_loop (length src) src escapeHTML ++ [dq].

(** The text a string is coerced to when it is encoded: every byte that
    does not start a valid encoding becomes U+FFFD. *)
Fixpoint coerce_loop (fuel : nat) (src : bytes) : bytes :=
  match fuel with
  | O => []
  | S fuel' =>
    match src with
    | [] => []
    | b :: src' =>
      if code b <? utf8.RuneSelf then b :: coerce_loop fuel' src'
      else
        let '(c, size) := utf8.DecodeRune src in
        if (c =? utf8.RuneError) && (size =? 1)%nat then
          utf8.AppendRune [] utf8.RuneError ++ coerce_loop fuel' (drop size src)
        else
          take size src ++ coerce_loop fuel' (drop size src)
    end
  end.

Definition coerce (src : bytes) : bytes := coerce_loop (length src) src.

(** *** Values *)

#[warnings="-register-all"]
Inductive value : Type :=
| Null
| Bool (b : bool)
| Number (lit : bytes)
| String (s : bytes)
| Array (l : list value)
| Object (l : list (bytes * value)).

(** *** Scanning *)

Definition isSpace (c : ascii) : bool :=
  let n := code c in (n =? 32) || (n =? 9) || (n =? 13) || (n =? 10).

Fixpoint skip_ws (s : bytes) : bytes :=
  match s with
  | c :: s' => if isSpace c then skip_ws s' else s
  | [] => []
  end.

Definition hexval (c : ascii) : option N :=
  let n := code c in
  if (48 <=? n) && (n <=? 57) then Some (n - 48)
  else if (97 <=? n) && (n <=? 102) then Some (n - 97 + 10)
  else if (65 <=? n) && (n <=? 70) then Some (n - 65 + 10)
  else None.

(** [getu4 s] is the value of the [\uXXXX] escape at the start of [s];
    [None] stands for Go's [-1]. *)
Definition getu4 (s : bytes) : option N :=
  match s with
  | b :: u :: h1 :: h2 :: h3 :: h4 :: _ =>
    if bool_decide (b = bsl) && bool_decide (u = "u"%char) then
      match hexval h1, hexval h2, hexval h3, hexval h4 with
      | Some a, Some b, Some c, Some d => Some (a * 4096 + b * 256 + c * 16 + d)
      | _, _, _, _ => None
      end
    else None
  | _ => None
  end.

(** The byte a one-letter escape stands for. *)
Definition unescape_letter (c : ascii) : option ascii :=
  let n := code c in
  if (n =? code dq) || (n =? code bsl) || (n =? 47) then Some c
  else if n =? 98 then Some (byte_of 8)
  else if n =? 102 then Some (byte_of 12)
  else if n =? 110 then Some (byte_of 10)
  else if n =? 114 then Some (byte_of 13)
  else if n =? 116 then Some (byte_of 9)
  else None.

(** [scan_string fuel s] reads a string literal whose opening quote has
    been consumed: the decoded text (the work of [unquote]) and the input
    after the closing quote. Escapes other than the ones the scanner
    accepts and control characters are errors; invalid UTF-8 is replaced
    by U+FFFD. *)
Fixpoint scan_string (fuel : nat) (s : bytes) : option (bytes * bytes) :=
  match fuel with
  | O => None
  | S fuel' =>
    match s with
    | [] => None
    | c :: s' =>
      if bool_decide (c = dq) then Some ([], s')
      else if bool_decide (c = bsl) then
        match s' with
        | [] => None
        | e :: s'' =>
          match unescape_letter e with
          | Some d =>
            '(t, rest) ← scan_string fuel' s''; Some (d :: t, rest)
          | None =>
            if bool_decide (e = "u"%char) then
              rr ← getu4 s;
              let s6 := drop 6 s in
              if utf16.IsSurrogate rr then
                let dec := utf16.DecodeRune rr (getu4 s6) in
                if negb (dec =? utf16.replacementChar) then
                  '(t, rest) ← scan_string fuel' (drop 6 s6);
                  Some (utf8.AppendRune [] dec ++ t, rest)
                else
                  '(t, rest) ← scan_string fuel' s6;
                  Some (utf8.AppendRune [] utf16.replacementChar ++ t, rest)
              else
                '(t, rest) ← scan_string fuel' s6;
                Some (utf8.AppendRune [] rr ++ t, rest)
            else None
          end
        end
      else if code c <? 0x20 then None
      else if code c <? utf8.RuneSelf then
        '(t, rest) ← scan_string fuel' s'; Some (c :: t, rest)
      else
        let '(rr, size) := utf8.DecodeRune s in
        '(t, rest) ← scan_string fuel' (drop size s);
        Some (utf8.AppendRune [] rr ++ t, rest)
    end
  end.

Definition isDigit (c : ascii) : bool := (48 <=? code c) && (code c <=? 57).

Fixpoint scan_digits (s : bytes) : bytes * bytes :=
  match s with
  | c :: s' =>
    if isDigit c then let '(d, rest) := scan_digits s' in (c :: d, rest)
    else ([], s)
  | [] => ([], [])
  end.

(** The number grammar of the scanner: an optional minus sign, [0] or a
    digit sequence without leading zero, an optional fraction and an
    optional exponent. *)
Definition scan_number (s : bytes) : option (bytes * bytes) :=
  let '(sign, s) :=
    match s with
    | c :: s' => if bool_decide (c = "-"%char) then ([c], s') else ([], s)
    | [] => ([], s)
    end in
  '(int, s) ←
    match s with
    | c :: s' =>
      if bool_decide (c = "0"%char) then Some ([c], s')
      else if isDigit c then Some (scan_digits s)
      else None
    | [] => None
    end;
  '(frac, s) ←
    match s with
    | c :: s' =>
      if bool_decide (c = "."%char) then
        match scan_digits s' with
        | ([], _) => None
        | (d, rest) => Some (c :: d, rest)
        end
      else Some ([], s)
    | [] => Some ([], s)
    end;
  '(exp, s) ←
    match s with
    | c :: s' =>
      if bool_decide (c = "e"%char) || bool_decide (c = "E"%char) then
        let '(esign, s'') :=
          match s' with
          | c' :: t =>
            if bool_decide (c' = "+"%char) || bool_decide (c' = "-"%char)
            then ([c'], t) else ([], s')
          | [] => ([], s')
          end in
        match scan_digits s'' with
        | ([], _) => None
        | (d, rest) => Some (c :: esign ++ d, rest)
        end
      else Some ([], s)
    | [] => Some ([], s)
    end;
  Some (sign ++ int ++ frac ++ exp, s).

Definition maxNestingDepth : N := 10000.

(** The fuel a string literal needs: one step per byte and one for the
    closing quote. *)
Definition scan_string_lit (s : bytes) : option (bytes * bytes) :=
  scan_string (S (length s)) s.

(** [parse_value fuel depth s] reads one value at the start of [s] (no
    leading white space) and returns it with the rest of the input;
    [parse_elems] and [parse_members] read the rest of an array after an
    element and the rest of an object after a member. *)
Fixpoint parse_value (fuel : nat) (depth : N) (s : bytes) : option (value * bytes) :=
  match fuel with
  | O => None
  | S fuel' =>
    match s with
    | [] => None
    | c :: s' =>
      if bool_decide (c = dq) then
        '(t, rest) ← scan_string_lit s'; Some (String t, rest)
      else if bool_decide (c = "["%char) then
        if maxNestingDepth <? N.succ depth then None else
        match skip_ws s' with
        | c' :: r =>
          if bool_decide (c' = "]"%char) then Some (Array [], r)
          else
            '(v, r1) ← parse_value fuel' (N.succ depth) (c' :: r);
            '(vs, r2) ← parse_elems fuel' (N.succ depth) (skip_ws r1);
            Some (Array (v :: vs), r2)
        | [] => None
        end
      else if bool_decide (c = "{"%char) then
        if maxNestingDepth <? N.succ depth then None else
        match skip_ws s' with
        | c' :: r =>
          if bool_decide (c' = "}"%char) then Some (Object [], r)
          else
            '(m, r1) ← parse_member fuel' (N.succ depth) (c' :: r);
            '(ms, r2) ← parse_members fuel' (N.succ depth) (skip_ws r1);
            Some (Object (m :: ms), r2)
        | [] => None
        end
      else if strings.HasPrefix s (bs "true") then Some (Bool true, drop 4 s)
      else if strings.HasPrefix s (bs "false") then Some (Bool false, drop 5 s)
      else if strings.HasPrefix s (bs "null") then Some (Null, drop 4 s)
      else '(lit, rest) ← scan_number s; Some (Number lit, rest)
    end
  end
with parse_elems (fuel : nat) (depth : N) (s : bytes) : option (list value * bytes) :=
  match fuel with
  | O => None
  | S fuel' =>
    match s with
    | c :: s' =>
      if bool_decide (c = "]"%char) then Some ([], s')
      else if bool_decide (c = ","%char) then
        '(v, r1) ← parse_value fuel' depth (skip_ws s');
        '(vs, r2) ← parse_elems fuel' depth (skip_ws r1);
        Some (v :: vs, r2)
      else None
    | [] => None
    end
  end
with parse_member (fuel : nat) (depth : N) (s : bytes) : option ((bytes * value) * bytes) :=
  match fuel with
  | O => None
  | S fuel' =>
    match s with
    | c :: s' =>
      if bool_decide (c = dq) then
        '(k, r1) ← scan_string_lit s';
        match skip_ws r1 with
        | c' :: r2 =>
          if bool_decide (c' = ":"%char) then
            '(v, r3) ← parse_value fuel' depth (skip_ws r2);
            Some ((k, v), r3)
          else None
        | [] => None
        end
      else None
    | [] => None
    end
  end
with parse_members (fuel : nat) (depth : N) (s : bytes) : option (list (bytes * value) * bytes) :=
  match fuel with
  | O => None
  | S fuel' =>
    match s with
    | c :: s' =>
      if bool_decide (c = "}"%char) then Some ([], s')
      else if bool_decide (c = ","%char) then
        '(m, r1) ← parse_member fuel' depth (skip_ws s');
        '(ms, r2) ← parse_members fuel' depth (skip_ws r1);
        Some (m :: ms, r2)
      else None
    | [] => None
    end
  end.

(** [checkValid] and the decoding of the one top-level value: white space
    may surround it, anything else after it is a syntax error. *)
Definition parse (data : bytes) : option value :=
  '(v, rest) ← parse_value (S (length data)) 0 (skip_ws data);
  match skip_ws rest with
  | [] => Some v
  | _ :: _ => None
  end.

(** *** Decoding into Go values *)

(** [Unmarshal] into a [string]: a string literal is stored, [null] leaves
    the variable as it is, any other value is a type error. *)
Definition Unmarshal_string (data : bytes) (v : bytes) : bytes * option error :=
  match parse data with
  | None => (v, Some SyntaxError)
  | Some (String s) => (s, None)
  | Some Null => (v, None)
  | Some _ => (v, Some UnmarshalTypeError)
  end.

(** An element or a map entry of type [string], decoded from the zero
    value: the text and whether the value had the wrong type. *)
Definition string_elem (v : value) : bytes * bool :=
  match v with
  | String s => (s, false)
  | Null => ([], false)
  | _ => ([], true)
  end.

Definition saved_error (mismatch : list bool) : option error :=
  if existsb id mismatch then Some UnmarshalTypeError else None.

(** [Unmarshal] into a [[]string]. A mismatched element is left empty and
    decoding goes on; the first such error is returned at the end. *)
Definition Unmarshal_strings (data : bytes) (v : slice bytes) : slice bytes * option error :=
  match parse data with
  | None => (v, Some SyntaxError)
  | Some (Array l) =>
    (Slice (map (fun x => fst (string_elem x)) l),
     saved_error (map (fun x => snd (string_elem x)) l))
  | Some Null => (nil_slice, None)
  | Some _ => (v, Some UnmarshalTypeError)
  end.

(** [Unmarshal] into a [map[string]string]: the members are stored in
    order, a later duplicate key replacing an earlier one; the nil map and
    the empty map are both [∅]. *)
Definition Unmarshal_map (data : bytes) (v : gmap bytes bytes) : gmap bytes bytes * option error :=
  match parse data with
  | None => (v, Some SyntaxError)
  | Some (Object l) =>
    (foldl (fun m kv => <[fst kv := fst (string_elem (snd kv))]> m) v l,
     saved_error (map (fun kv => snd (string_elem (snd kv))) l))
  | Some Null => (∅, None)
  | Some _ => (v, Some UnmarshalTypeError)
  end.

(** *** Encoding of Go values *)

(** The encoder of a slice or array: the elements separated by commas. *)
Fixpoint arrayEncoder {A} (enc : A → bytes) (i : nat) (l : list A) : bytes :=
  match l with
  | [] => []
  | x :: l' =>
    (if (0 <? i)%nat then bs "," else []) ++ enc x ++ arrayEncoder enc (S i) l'
  end.

Definition stringEncoder (s : bytes) (quoted : bool) : bytes :=
  if quoted then appendString [] (appendString [] s true) false
  else appendString [] s true.

Definition mayAppendQuote (b : bytes) (quoted : bool) : bytes :=
  if quoted then b ++ [dq] else b.

Definition boolEncoder (v : bool) (quoted : bool) : bytes :=
  mayAppendQuote (mayAppendQuote [] quoted ++ strconv.FormatBool v) quoted.

Definition intEncoder (v : Z) (quoted : bool) : bytes :=
  mayAppendQuote (mayAppendQuote [] quoted ++ strconv.Itoa v) quoted.

Definition sliceEncoder (s : slice bytes) : bytes :=
  match s with
  | nil_slice => bs "null"
  | Slice l => bs "[" ++ arrayEncoder (fun x => stringEncoder x false) 0 l ++ bs "]"
  end.

(** The struct tag of a field: [json:"-"], or a name with the
    [omitempty] and [string] options. The name is one [isValidTag]
    accepts (letters, digits and punctuation other than the quote, the
    backslash and the comma). *)
Inductive tag : Type :=
| Ignore
| Tag (name : bytes) (omitEmpty : bool) (quoted : bool).

(** The value of a field, by the Go type of the field. *)
Inductive fieldValue : Type :=
| PtrString (p : option bytes)
| PtrBool (p : option bool)
| PtrInt (p : option Z)
| PtrStrings (p : option (slice bytes))
| Strings (s : slice bytes).

Record field : Type := Field { ftag : tag; fvalue : fieldValue }.

(** A struct value as reflection sees it: the fields in declaration
    order. *)
Definition struct : Type := list field.

Definition isEmptyValue (v : fieldValue) : bool :=
  match v with
  | PtrString p => bool_decide (p = None)
  | PtrBool p => bool_decide (p = None)
  | PtrInt p => bool_decide (p = None)
  | PtrStrings p => bool_decide (p = None)
  | Strings s => (len s =? 0)%nat
  end.

(** The encoder of a field value; a nil pointer is [null]. The [string]
    option applies to strings, booleans and integers only. *)
Definition fieldEncoder (v : fieldValue) (quoted : bool) : bytes :=
  match v with
  | PtrString (Some s) => stringEncoder s quoted
  | PtrBool (Some b) => boolEncoder b quoted
  | PtrInt (Some i) => intEncoder i quoted
  | PtrStrings (Some s) => sliceEncoder s
  | Strings s => sliceEncoder s
  | PtrString None | PtrBool None | PtrInt None | PtrStrings None => bs "null"
  end.

(** The field loop of [structEncoder]: [next] is the byte written before
    the next member, the opening brace at first and a comma afterwards.
    The fields are those of a struct type whose JSON names are distinct,
    as in every record below: [encoding/json] leaves out the fields
    whose names clash, which this loop does not do, and the theorems on
    arbitrary structs assume distinct names. *)
Fixpoint structEncoder_loop (next : ascii) (fields : list field) : ascii * bytes :=
  match fields with
  | [] => (next, [])
  | f :: fields' =>
    match ftag f with
    | Ignore => structEncoder_loop next fields'
    | Tag name omitEmpty quoted =>
      if omitEmpty && isEmptyValue (fvalue f) then structEncoder_loop next fields'
      else
        let '(next', out) := structEncoder_loop ","%char fields' in
        (next', [next] ++ appendString [] name true ++ bs ":"
                  ++ fieldEncoder (fvalue f) quoted ++ out)
    end
  end.

Definition structEncoder (v : struct) : bytes :=
  let '(next, out) := structEncoder_loop "{"%char v in
  if bool_decide (next = "{"%char) then bs "{}" else out ++ bs "}".

(** The members of an object whose values are strings, as the struct
    encoder writes them after the byte [next]. *)
Fixpoint objectMembers (next : ascii) (ms : list (bytes * bytes)) : bytes :=
  match ms with
  | [] => []
  | (k, v) :: ms' =>
    [next] ++ appendString [] k true ++ bs ":" ++ appendString [] v true
      ++ objectMembers ","%char ms'
  end.

(** [json.Marshal] by the type of its argument. None of the types below
    has a value for which [Marshal] fails. *)
Class Marshaler (A : Type) : Type := Marshal : A → error + bytes.

#[global] Instance Marshal_string : Marshaler bytes :=
  fun s => inr (stringEncoder s false).

#[global] Instance Marshal_strings : Marshaler (slice bytes) :=
  fun s => inr (sliceEncoder s).

#[global] Instance Marshal_struct : Marshaler struct :=
  fun s => inr (structEncoder s).

(** *** The scanner *)

(** The results of a step of the scanner. *)
Inductive scanOp : Type :=
| scanContinue
| scanBeginLiteral
| scanBeginObject
| scanObjectKey
| scanObjectValue
| scanEndObject
| scanBeginArray
| scanArrayValue
| scanEndArray
| scanSkipSpace
| scanEnd
| scanError.

(** The entries of the parse state stack. *)
Inductive parseKind : Type :=
| parseObjectKey
| parseObjectValue
| parseArrayValue.

(** The state functions a scanner may hold in its [step] field. *)
Inductive stepFunc : Type :=
| StateBeginValueOrEmpty
| StateBeginValue
| StateBeginStringOrEmpty
| StateBeginString
| StateEndValue
| StateEndTop
| StateInString
| StateInStringEsc
| StateInStringEscU
| StateInStringEscU1
| StateInStringEscU12
| StateInStringEscU123
| StateNeg
| State1
| State0
| StateDot
| StateDot0
| StateE
| StateESign
| StateE0
| StateT
| StateTr
| StateTru
| StateF
| StateFa
| StateFal
| StateFals
| StateN
| StateNu
| StateNul
| StateError.

(** The scanner: the top of [parseState] is the head of the list; [err]
    says whether an error has been recorded (its text and the count of
    bytes, which only the text uses, are left out). *)
Record scanner : Type := Scanner {
  step : stepFunc;
  endTop : bool;
  parseState : list parseKind;
  err : bool }.

Definition newScanner : scanner :=
  {| step := StateBeginValue; endTop := false; parseState := []; err := false |}.

Definition set_step (s : scanner) (f : stepFunc) : scanner :=
  {| step := f; endTop := endTop s; parseState := parseState s; err := err s |}.

Definition set_parseState (s : scanner) (ps : list parseKind) : scanner :=
  {| step := step s; endTop := endTop s; parseState := ps; err := err s |}.

(** [s.error]. *)
Definition scanner_error (s : scanner) : scanner * scanOp :=
  ({| step := StateError; endTop := endTop s; parseState := parseState s; err := true |},
   scanError).

Definition pushParseState (s : scanner) (newParseState : parseKind) (successState : scanOp)
    : scanner * scanOp :=
  let s := set_parseState s (newParseState :: parseState s) in
  if (N.of_nat (length (parseState s)) <=? maxNestingDepth)%N then (s, successState)
  else scanner_error s.

Definition popParseState (s : scanner) : scanner :=
  let ps := tail (parseState s) in
  if (length ps =? 0)%nat
  then {| step := StateEndTop; endTop := true; parseState := ps; err := err s |}
  else {| step := StateEndValue; endTop := endTop s; parseState := ps; err := err s |}.

(** The parse state on top of the stack becomes [k]. *)
Definition set_top (s : scanner) (k : parseKind) : scanner :=
  set_parseState s (k :: tail (parseState s)).

Definition stateEndTop (s : scanner) (c : ascii) : scanner * scanOp :=
  if negb (isSpace c) then (fst (scanner_error s), scanEnd) else (s, scanEnd).

Definition stateEndValue (s : scanner) (c : ascii) : scanner * scanOp :=
  match parseState s with
  | [] =>
    stateEndTop {| step := StateEndTop; endTop := true; parseState := []; err := err s |} c
  | ps :: _ =>
    if isSpace c then (set_step s StateEndValue, scanSkipSpace)
    else
      match ps with
      | parseObjectKey =>
        if bool_decide (c = ":"%char)
        then (set_step (set_top s parseObjectValue) StateBeginValue, scanObjectKey)
        else scanner_error s
      | parseObjectValue =>
        if bool_decide (c = ","%char)
        then (set_step (set_top s parseObjectKey) StateBeginString, scanObjectValue)
        else if bool_decide (c = "}"%char) then (popParseState s, scanEndObject)
        else scanner_error s
      | parseArrayValue =>
        if bool_decide (c = ","%char) then (set_step s StateBeginValue, scanArrayValue)
        else if bool_decide (c = "]"%char) then (popParseState s, scanEndArray)
        else scanner_error s
      end
  end.

Definition stateBeginValue (s : scanner) (c : ascii) : scanner * scanOp :=
  if isSpace c then (s, scanSkipSpace)
  else if bool_decide (c = "{"%char)
  then pushParseState (set_step s StateBeginStringOrEmpty) parseObjectKey scanBeginObject
  else if bool_decide (c = "["%char)
  then pushParseState (set_step s StateBeginValueOrEmpty) parseArrayValue scanBeginArray
  else if bool_decide (c = dq) then (set_step s StateInString, scanBeginLiteral)
  else if bool_decide (c = "-"%char) then (set_step s StateNeg, scanBeginLiteral)
  else if bool_decide (c = "0"%char) then (set_step s State0, scanBeginLiteral)
  else if bool_decide (c = "t"%char) then (set_step s StateT, scanBeginLiteral)
  else if bool_decide (c = "f"%char) then (set_step s StateF, scanBeginLiteral)
  else if bool_decide (c = "n"%char) then (set_step s StateN, scanBeginLiteral)
  else if (49 <=? code c) && (code c <=? 57) then (set_step s State1, scanBeginLiteral)
  else scanner_error s.

Definition stateBeginValueOrEmpty (s : scanner) (c : ascii) : scanner * scanOp :=
  if isSpace c then (s, scanSkipSpace)
  else if bool_decide (c = "]"%char) then stateEndValue s c
  else stateBeginValue s c.

Definition stateBeginString (s : scanner) (c : ascii) : scanner * scanOp :=
  if isSpace c then (s, scanSkipSpace)
  else if bool_decide (c = dq) then (set_step s StateInString, scanBeginLiteral)
  else scanner_error s.

Definition stateBeginStringOrEmpty (s : scanner) (c : ascii) : scanner * scanOp :=
  if isSpace c then (s, scanSkipSpace)
  else if bool_decide (c = "}"%char) then stateEndValue (set_top s parseObjectValue) c
  else stateBeginString s c.

Definition stateInString (s : scanner) (c : ascii) : scanner * scanOp :=
  if bool_decide (c = dq) then (set_step s StateEndValue, scanContinue)
  else if bool_decide (c = bsl) then (set_step s StateInStringEsc, scanContinue)
  else if code c <? 0x20 then scanner_error s
  else (s, scanContinue).

Definition stateInStringEsc (s : scanner) (c : ascii) : scanner * scanOp :=
  if bool_decide (c = "b"%char) || bool_decide (c = "f"%char) || bool_decide (c = "n"%char)
     || bool_decide (c = "r"%char) || bool_decide (c = "t"%char) || bool_decide (c = bsl)
     || bool_decide (c = "/"%char) || bool_decide (c = dq)
  then (set_step s StateInString, scanContinue)
  else if bool_decide (c = "u"%char) then (set_step s StateInStringEscU, scanContinue)
  else scanner_error s.

(** A hexadecimal digit, as the four states of a [\u] escape test it. *)
Definition isHex (c : ascii) : bool :=
  let n := code c in
  ((48 <=? n) && (n <=? 57)) || ((97 <=? n) && (n <=? 102)) || ((65 <=? n) && (n <=? 70)).

Definition stateInStringEscU_ (next : stepFunc) (s : scanner) (c : ascii) : scanner * scanOp :=
  if isHex c then (set_step s next, scanContinue) else scanner_error s.

Definition stateNeg (s : scanner) (c : ascii) : scanner * scanOp :=
  if bool_decide (c = "0"%char) then (set_step s State0, scanContinue)
  else if (49 <=? code c) && (code c <=? 57) then (set_step s State1, scanContinue)
  else scanner_error s.

Definition state0 (s : scanner) (c : ascii) : scanner * scanOp :=
  if bool_decide (c = "."%char) then (set_step s StateDot, scanContinue)
  else if bool_decide (c = "e"%char) || bool_decide (c = "E"%char)
  then (set_step s StateE, scanContinue)
  else stateEndValue s c.

Definition state1 (s : scanner) (c : ascii) : scanner * scanOp :=
  if isDigit c then (set_step s State1, scanContinue) else state0 s c.

Definition stateDot (s : scanner) (c : ascii) : scanner * scanOp :=
  if isDigit c then (set_step s StateDot0, scanContinue) else scanner_error s.

Definition stateDot0 (s : scanner) (c : ascii) : scanner * scanOp :=
  if isDigit c then (s, scanContinue)
  else if bool_decide (c = "e"%char) || bool_decide (c = "E"%char)
  then (set_step s StateE, scanContinue)
  else stateEndValue s c.

Definition stateESign (s : scanner) (c : ascii) : scanner * scanOp :=
  if isDigit c then (set_step s StateE0, scanContinue) else scanner_error s.

Definition stateE (s : scanner) (c : ascii) : scanner * scanOp :=
  if bool_decide (c = "+"%char) || bool_decide (c = "-"%char)
  then (set_step s StateESign, scanContinue)
  else stateESign s c.

Definition stateE0 (s : scanner) (c : ascii) : scanner * scanOp :=
  if isDigit c then (s, scanContinue) else stateEndValue s c.

(** The states inside the literals [true], [false] and [null]: the one
    byte expected and the state after it. *)
Definition stateLiteral (expected : ascii) (next : stepFunc) (s : scanner) (c : ascii)
    : scanner * scanOp :=
  if bool_decide (c = expected) then (set_step s next, scanContinue) else scanner_error s.

(** [s.step(s, c)]. *)
Definition scanner_step (s : scanner) (c : ascii) : scanner * scanOp :=
  match step s with
  | StateBeginValueOrEmpty => stateBeginValueOrEmpty s c
  | StateBeginValue => stateBeginValue s c
  | StateBeginStringOrEmpty => stateBeginStringOrEmpty s c
  | StateBeginString => stateBeginString s c
  | StateEndValue => stateEndValue s c
  | StateEndTop => stateEndTop s c
  | StateInString => stateInString s c
  | StateInStringEsc => stateInStringEsc s c
  | StateInStringEscU => stateInStringEscU_ StateInStringEscU1 s c
  | StateInStringEscU1 => stateInStringEscU_ StateInStringEscU12 s c
  | StateInStringEscU12 => stateInStringEscU_ StateInStringEscU123 s c
  | StateInStringEscU123 => stateInStringEscU_ StateInString s c
  | StateNeg => stateNeg s c
  | State1 => state1 s c
  | State0 => state0 s c
  | StateDot => stateDot s c
  | StateDot0 => stateDot0 s c
  | StateE => stateE s c
  | StateESign => stateESign s c
  | StateE0 => stateE0 s c
  | StateT => stateLiteral "r" StateTr s c
  | StateTr => stateLiteral "u" StateTru s c
  | StateTru => stateLiteral "e" StateEndValue s c
  | StateF => stateLiteral "a" StateFa s c
  | StateFa => stateLiteral "l" StateFal s c
  | StateFal => stateLiteral "s" StateFals s c
  | StateFals => stateLiteral "e" StateEndValue s c
  | StateN => stateLiteral "u" StateNu s c
  | StateNu => stateLiteral "l" StateNul s c
  | StateNul => stateLiteral "l" StateEndValue s c
  | StateError => (s, scanError)
  end.

(** [s.eof()]: whether the input may end here. *)
Definition eof (s : scanner) : scanOp :=
  if err s then scanError
  else if endTop s then scanEnd
  else
    let '(s, _) := scanner_step s " "%char in
    if endTop s then scanEnd else scanError.

(** *** Indentation *)

Definition appendNewline (dst prefix indent : bytes) (depth : Z) : bytes :=
  dst ++ [byte_of 10] ++ prefix ++ concat (replicate (Z.to_nat depth) indent).

(** The variables of the loop of [appendIndent]. *)
Record indenter : Type := Indenter {
  dst : bytes;
  scan : scanner;
  needIndent : bool;
  depth : Z }.

(** The loop of [appendIndent] over [src]; it ends at the first byte the
    scanner rejects. *)
Fixpoint appendIndent_loop (prefix indent : bytes) (src : bytes) (st : indenter) : indenter :=
  match src with
  | [] => st
  | c :: src' =>
    let '(scan, v) := scanner_step (scan st) c in
    match v with
    | scanSkipSpace =>
      appendIndent_loop prefix indent src'
        {| dst := dst st; scan := scan; needIndent := needIndent st; depth := depth st |}
    | scanError =>
      {| dst := dst st; scan := scan; needIndent := needIndent st; depth := depth st |}
    | _ =>
      let indented :=
        needIndent st
        && negb (if v is scanEndObject then true else false)
        && negb (if v is scanEndArray then true else false) in
      let needIndent := if indented then false else needIndent st in
      let depth := if indented then (depth st + 1)%Z else depth st in
      let dst := if indented then appendNewline (dst st) prefix indent depth else dst st in
      if v is scanContinue then
        appendIndent_loop prefix indent src'
          {| dst := dst ++ [c]; scan := scan; needIndent := needIndent; depth := depth |}
      else if bool_decide (c = "{"%char) || bool_decide (c = "["%char) then
        appendIndent_loop prefix indent src'
          {| dst := dst ++ [c]; scan := scan; needIndent := true; depth := depth |}
      else if bool_decide (c = ","%char) then
        appendIndent_loop prefix indent src'
          {| dst := appendNewline (dst ++ [c]) prefix indent depth; scan := scan;
             needIndent := needIndent; depth := depth |}
      else if bool_decide (c = ":"%char) then
        appendIndent_loop prefix indent src'
          {| dst := dst ++ [c; " "%char]; scan := scan; needIndent := needIndent;
             depth := depth |}
      else if bool_decide (c = "}"%char) || bool_decide (c = "]"%char) then
        if needIndent then
          appendIndent_loop prefix indent src'
            {| dst := dst ++ [c]; scan := scan; needIndent := false; depth := depth |}
        else
          appendIndent_loop prefix indent src'
            {| dst := appendNewline dst prefix indent (depth - 1) ++ [c]; scan := scan;
               needIndent := needIndent; depth := (depth - 1)%Z |}
      else
        appendIndent_loop prefix indent src'
          {| dst := dst ++ [c]; scan := scan; needIndent := needIndent; depth := depth |}
    end
  end.

Definition appendIndent (dst0 src prefix indent : bytes) : error + bytes :=
  let st :=
    appendIndent_loop prefix indent src
      {| dst := dst0; scan := newScanner; needIndent := false; depth := 0 |} in
  if eof (scan st) is scanError then inl SyntaxError else inr (dst st).

Definition MarshalIndent {A} `{Marshaler A} (v : A) (prefix indent : bytes) : error + bytes :=
  match Marshal v with
  | inl err => inl err
  | inr b => appendIndent [] b prefix indent
  end.

End json.

Local Close Scope N_scope.

(** ** Go semantics shared by the methods below *)

(** The result of a call that may panic. *)
Inductive outcome (A : Type) : Type :=
| Panic
| Return (a : A).
Arguments Panic {A}.
Arguments Return {A} a.

#[global] Instance outcome_ret : MRet outcome := @Return.
#[global] Instance outcome_bind : MBind outcome :=
  fun A B f m => match m with Panic => Panic | Return a => f a end.

(** A Go map variable: the nil map or an allocated table. An assignment
    to an entry of the nil map panics. *)
Inductive gomap : Type :=
| nil_map
| Map (m : gmap bytes bytes).

Definition entries (m : gomap) : gmap bytes bytes :=
  match m with nil_map => ∅ | Map m => m end.

Definition map_assign (m : gomap) (k v : bytes) : outcome gomap :=
  match m with
  | nil_map => Panic
  | Map m => Return (Map (<[k := v]> m))
  end.

(** [make([]string, n)]: [n] empty strings. *)
Definition make (n : nat) : list bytes := replicate n [].

(** [for i, x := range xs { body }] over a state [B]. *)
Fixpoint range_loop {A B} (body : nat → A → B → B) (i : nat) (xs : list A) (st : B) : B :=
  match xs with
  | [] => st
  | x :: xs' => range_loop body (S i) xs' (body i x st)
  end.

(** A text between quotes, as the verb ["%s"] between two quote
    characters prints it. *)
Definition q (s : bytes) : bytes := [dq] ++ s ++ [dq].

(** Modelled from the spec: utils.go is not among the sources; [StringP]
    and [BoolP] return a pointer to their argument, [NilOrEmpty] holds of
    a nil pointer and of the empty string, [NilOrEmptySlice] of a nil
    pointer and of a slice of length 0 (the lists the spec calls absent or
    empty). *)
Definition StringP (value : bytes) : option bytes := Some value.
Definition BoolP (value : bool) : option bool := Some value.
Definition NilOrEmpty (value : option bytes) : bool :=
  match value with
  | None => true
  | Some v => (length v =? 0)%nat
  end.
Definition NilOrEmptySlice (value : option (slice bytes)) : bool :=
  match value with
  | None => true
  | Some v => (len v =? 0)%nat
  end.

(** ** GetQueryParams *)

Definition GetQueryParams {A} `{json.Marshaler A} (s : A) : json.error + gmap bytes bytes :=
  match json.Marshal s with
  | inl err => inl err
  | inr b =>
    let '(res, err) := json.Unmarshal_map b ∅ in
    match err with
    | Some err => inl err
    | None => inr res
    end
  end.

(** The projection as the specification words it: the wire key and the
    wire text of a field that is present, booleans as [true] or [false],
    integers in base 10, text as it is; nothing for an absent field or
    one that is never projected. *)
Definition entry (f : json.field) : option (bytes * bytes) :=
  match json.ftag f, json.fvalue f with
  | json.Tag name _ _, json.PtrString (Some s) => Some (name, s)
  | json.Tag name _ _, json.PtrBool (Some b) => Some (name, strconv.FormatBool b)
  | json.Tag name _ _, json.PtrInt (Some i) => Some (name, strconv.Itoa i)
  | _, _ => None
  end.

Definition project (s : json.struct) : list (bytes * bytes) := omap entry s.

(** The tag format the comment of [GetQueryParams] asks for:
    [name,omitempty] on a [*string] and [name,string,omitempty] on a
    pointer to another type; a field tagged [-] is left out. *)
Definition conventional (f : json.field) : bool :=
  match json.ftag f, json.fvalue f with
  | json.Ignore, _ => true
  | json.Tag name true false, json.PtrString _ => utf8.Valid name
  | json.Tag name true true, (json.PtrBool _ | json.PtrInt _) => utf8.Valid name
  | _, _ => false
  end.

(** The keys of the fields that are projected. *)
Definition keys (s : json.struct) : list bytes :=
  omap (λ f, match json.ftag f with
             | json.Tag name _ _ => Some name
             | json.Ignore => None
             end) s.

(** ** StringOrArray *)

Module StringOrArray.

Definition t : Type := slice bytes.

(** The receiver after the call and the error returned. *)
Definition UnmarshalJSON (s : t) (data : bytes) : t * option json.error :=
  if (1 <? length data)%nat && bool_decide (data !! 0%nat = Some "["%char) then
    let '(obj, err) := json.Unmarshal_strings data nil_slice in
    match err with
    | Some err => (s, Some err)
    | None => (obj, None)
    end
  else
    let '(obj, err) := json.Unmarshal_string data [] in
    match err with
    | Some err => (s, Some err)
    | None => (Slice [obj], None)
    end.

Definition MarshalJSON (s : t) : json.error + bytes :=
  match elems s with
  | [x] => json.Marshal x
  | _ => json.Marshal s
  end.

End StringOrArray.

(** ** EnforcedString *)

Module EnforcedString.

Definition t : Type := bytes.

(** [data[0]] panics on an empty slice. Otherwise the receiver after the
    call (assigned whether or not decoding failed) and the error. *)
Definition UnmarshalJSON (s : t) (data : bytes) : outcome (t * option json.error) :=
  match data with
  | [] => Panic
  | c :: _ =>
    let data :=
      if negb (bool_decide (c = dq)) then
        let data := strings.ReplaceAll data [dq] [bsl; dq] in
        let data := strings.ReplaceAll data [bsl; bsl; dq] [bsl; dq] in
        let data := [dq] ++ data in
        data ++ [dq]
      else data in
    let '(val, err) := json.Unmarshal_string data [] in
    Return (val, err)
  end.

Definition MarshalJSON (s : t) : json.error + bytes := json.Marshal s.

(** What the first replacement amounts to: a backslash before every
    quote character. *)
Definition escape_quotes (data : bytes) : bytes :=
  flat_map (λ c, if bool_decide (c = dq) then [bsl; dq] else [c]) data.

(** The payload as [UnmarshalJSON] repairs it when it does not start
    with a quote: quotes escaped, the sequences backslash, backslash,
    quote collapsed, and quotes around the whole. *)
Definition repaired (data : bytes) : bytes :=
  [dq] ++ strings.ReplaceAll (strings.ReplaceAll data [dq] [bsl; dq])
                             [bsl; bsl; dq] [bsl; dq]
       ++ [dq].

(** The raw content that decodes to itself: no backslash and no control
    character. *)
Definition plain (c : ascii) : Prop := c ≠ bsl ∧ (32 ≤ code c)%N.

End EnforcedString.

(** ** Option records *)

Module GetUsersParams.

Record t : Type := {
  BriefRepresentation : option bool;
  Email : option bytes;
  EmailVerified : option bool;
  Enabled : option bool;
  Exact : option bool;
  First : option Z;
  FirstName : option bytes;
  IDPAlias : option bytes;
  IDPUserID : option bytes;
  LastName : option bytes;
  Max : option Z;
  Q : option bytes;
  Search : option bytes;
  Username : option bytes }.

(** The fields with their struct tags. *)
Definition fields (v : t) : json.struct :=
  [ json.Field (json.Tag (bs "briefRepresentation") true true) (json.PtrBool (BriefRepresentation v));
    json.Field (json.Tag (bs "email") true false) (json.PtrString (Email v));
    json.Field (json.Tag (bs "emailVerified") true true) (json.PtrBool (EmailVerified v));
    json.Field (json.Tag (bs "enabled") true true) (json.PtrBool (Enabled v));
    json.Field (json.Tag (bs "exact") true true) (json.PtrBool (Exact v));
    json.Field (json.Tag (bs "first") true true) (json.PtrInt (First v));
    json.Field (json.Tag (bs "firstName") true false) (json.PtrString (FirstName v));
    json.Field (json.Tag (bs "idpAlias") true false) (json.PtrString (IDPAlias v));
    json.Field (json.Tag (bs "idpUserId") true false) (json.PtrString (IDPUserID v));
    json.Field (json.Tag (bs "lastName") true false) (json.PtrString (LastName v));
    json.Field (json.Tag (bs "max") true true) (json.PtrInt (Max v));
    json.Field (json.Tag (bs "q") true false) (json.PtrString (Q v));
    json.Field (json.Tag (bs "search") true false) (json.PtrString (Search v));
    json.Field (json.Tag (bs "username") true false) (json.PtrString (Username v)) ].

#[global] Instance Marshal : json.Marshaler t := fun v => json.Marshal (fields v).

End GetUsersParams.

Module GetEventsParams.

Record t : Type := {
  Client : option bytes;
  DateFrom : option bytes;
  DateTo : option bytes;
  First : option Z;
  IPAddress : option bytes;
  Max : option Z;
  Type_ : slice bytes;
  UserID : option bytes }.

Definition fields (v : t) : json.struct :=
  [ json.Field (json.Tag (bs "client") true false) (json.PtrString (Client v));
    json.Field (json.Tag (bs "dateFrom") true false) (json.PtrString (DateFrom v));
    json.Field (json.Tag (bs "dateTo") true false) (json.PtrString (DateTo v));
    json.Field (json.Tag (bs "first") true true) (json.PtrInt (First v));
    json.Field (json.Tag (bs "ipAddress") true false) (json.PtrString (IPAddress v));
    json.Field (json.Tag (bs "max") true true) (json.PtrInt (Max v));
    json.Field (json.Tag (bs "type") true false) (json.Strings (Type_ v));
    json.Field (json.Tag (bs "user") true false) (json.PtrString (UserID v)) ].

#[global] Instance Marshal : json.Marshaler t := fun v => json.Marshal (fields v).

End GetEventsParams.

Module GetGroupsParams.

Record t : Type := {
  BriefRepresentation : option bool;
  Exact : option bool;
  First : option Z;
  Full : option bool;
  Max : option Z;
  Q : option bytes;
  Search : option bytes }.

Definition fields (v : t) : json.struct :=
  [ json.Field (json.Tag (bs "briefRepresentation") true true) (json.PtrBool (BriefRepresentation v));
    json.Field (json.Tag (bs "exact") true true) (json.PtrBool (Exact v));
    json.Field (json.Tag (bs "first") true true) (json.PtrInt (First v));
    json.Field (json.Tag (bs "full") true true) (json.PtrBool (Full v));
    json.Field (json.Tag (bs "max") true true) (json.PtrInt (Max v));
    json.Field (json.Tag (bs "q") true false) (json.PtrString (Q v));
    json.Field (json.Tag (bs "search") true false) (json.PtrString (Search v)) ].

Definition set_BriefRepresentation (v : t) (x : option bool) : t :=
  {| BriefRepresentation := x; Exact := Exact v; First := First v; Full := Full v;
     Max := Max v; Q := Q v; Search := Search v |}.

Definition set_Full (v : t) (x : option bool) : t :=
  {| BriefRepresentation := BriefRepresentation v; Exact := Exact v; First := First v;
     Full := x; Max := Max v; Q := Q v; Search := Search v |}.

(** The local copy [a] of the receiver when [json.Marshal(a)] is
    reached. *)
Definition aliased (obj : t) : t :=
  let a := obj in
  match BriefRepresentation a with
  | Some b => set_Full a (BoolP (negb b))
  | None =>
    match Full a with
    | Some f => set_BriefRepresentation a (BoolP (negb f))
    | None => a
    end
  end.

(** The receiver is passed by value: the caller's record, returned
    first, is the one it passed; the type [Alias] of the copy has no
    methods and is encoded as a plain struct. *)
Definition MarshalJSON (obj : t) : t * (json.error + bytes) :=
  (obj, json.Marshal (fields (aliased obj))).

(** [json.Marshal] of a [GetGroupsParams] calls its [MarshalJSON]; the
    compaction of the result leaves the output of the struct encoder as
    it is. *)
#[global] Instance Marshal : json.Marshaler t := fun v => snd (MarshalJSON v).

End GetGroupsParams.

(** ** TokenOptions *)

Module TokenOptions.

Record t : Type := {
  ClientID : option bytes;
  ClientSecret : option bytes;
  GrantType : option bytes;
  RefreshToken : option bytes;
  Scopes : option (slice bytes);
  Scope : option bytes;
  ResponseTypes : option (slice bytes);
  ResponseType : option bytes;
  Permission : option bytes;
  Username : option bytes;
  Password : option bytes;
  Totp : option bytes;
  Code : option bytes;
  RedirectURI : option bytes;
  ClientAssertionType : option bytes;
  ClientAssertion : option bytes;
  SubjectToken : option bytes;
  RequestedSubject : option bytes;
  Audience : option bytes;
  RequestedTokenType : option bytes }.

Definition fields (v : t) : json.struct :=
  [ json.Field (json.Tag (bs "client_id") true false) (json.PtrString (ClientID v));
    json.Field json.Ignore (json.PtrString (ClientSecret v));
    json.Field (json.Tag (bs "grant_type") true false) (json.PtrString (GrantType v));
    json.Field (json.Tag (bs "refresh_token") true false) (json.PtrString (RefreshToken v));
    json.Field json.Ignore (json.PtrStrings (Scopes v));
    json.Field (json.Tag (bs "scope") true false) (json.PtrString (Scope v));
    json.Field json.Ignore (json.PtrStrings (ResponseTypes v));
    json.Field (json.Tag (bs "response_type") true false) (json.PtrString (ResponseType v));
    json.Field (json.Tag (bs "permission") true false) (json.PtrString (Permission v));
    json.Field (json.Tag (bs "username") true false) (json.PtrString (Username v));
    json.Field (json.Tag (bs "password") true false) (json.PtrString (Password v));
    json.Field (json.Tag (bs "totp") true false) (json.PtrString (Totp v));
    json.Field (json.Tag (bs "code") true false) (json.PtrString (Code v));
    json.Field (json.Tag (bs "redirect_uri") true false) (json.PtrString (RedirectURI v));
    json.Field (json.Tag (bs "client_assertion_type") true false) (json.PtrString (ClientAssertionType v));
    json.Field (json.Tag (bs "client_assertion") true false) (json.PtrString (ClientAssertion v));
    json.Field (json.Tag (bs "subject_token") true false) (json.PtrString (SubjectToken v));
    json.Field (json.Tag (bs "requested_subject") true false) (json.PtrString (RequestedSubject v));
    json.Field (json.Tag (bs "audience") true false) (json.PtrString (Audience v));
    json.Field (json.Tag (bs "requested_token_type") true false) (json.PtrString (RequestedTokenType v)) ].

#[global] Instance Marshal : json.Marshaler t := fun v => json.Marshal (fields v).

Definition set_Scope (v : t) (x : option bytes) : t :=
  {| ClientID := ClientID v; ClientSecret := ClientSecret v; GrantType := GrantType v;
     RefreshToken := RefreshToken v; Scopes := Scopes v; Scope := x;
     ResponseTypes := ResponseTypes v; ResponseType := ResponseType v;
     Permission := Permission v; Username := Username v; Password := Password v;
     Totp := Totp v; Code := Code v; RedirectURI := RedirectURI v;
     ClientAssertionType := ClientAssertionType v; ClientAssertion := ClientAssertion v;
     SubjectToken := SubjectToken v; RequestedSubject := RequestedSubject v;
     Audience := Audience v; RequestedTokenType := RequestedTokenType v |}.

Definition set_ResponseType (v : t) (x : option bytes) : t :=
  {| ClientID := ClientID v; ClientSecret := ClientSecret v; GrantType := GrantType v;
     RefreshToken := RefreshToken v; Scopes := Scopes v; Scope := Scope v;
     ResponseTypes := ResponseTypes v; ResponseType := x;
     Permission := Permission v; Username := Username v; Password := Password v;
     Totp := Totp v; Code := Code v; RedirectURI := RedirectURI v;
     ClientAssertionType := ClientAssertionType v; ClientAssertion := ClientAssertion v;
     SubjectToken := SubjectToken v; RequestedSubject := RequestedSubject v;
     Audience := Audience v; RequestedTokenType := RequestedTokenType v |}.

(** The slice a pointer field points to; the callers below test the
    pointer first. *)
Definition deref (p : option (slice bytes)) : list bytes :=
  match p with
  | Some s => elems s
  | None => []
  end.

(** The receiver after the call and the map returned. The errors of
    [Marshal] and [Unmarshal] are dropped; [res] starts as the nil map. *)
Definition FormData (t0 : t) : t * gmap bytes bytes :=
  let t1 :=
    if negb (NilOrEmptySlice (Scopes t0))
    then set_Scope t0 (StringP (strings.Join (deref (Scopes t0)) (bs " ")))
    else t0 in
  let t2 :=
    if negb (NilOrEmptySlice (ResponseTypes t1))
    then set_ResponseType t1 (StringP (strings.Join (deref (ResponseTypes t1)) (bs " ")))
    else t1 in
  let t3 :=
    if NilOrEmpty (ResponseType t2)
    then set_ResponseType t2 (StringP (bs "token"))
    else t2 in
  let m := match json.Marshal t3 with inr m => m | inl _ => [] end in
  let res := fst (json.Unmarshal_map m ∅) in
  (t3, res).

End TokenOptions.

(** ** PolicyRepresentation *)

Module RoleDefinition.
Record t : Type := {
  ID : option bytes;
  Private : option bool;
  Required : option bool }.
End RoleDefinition.

Module GroupDefinition.
Record t : Type := {
  ID : option bytes;
  Path : option bytes;
  ExtendChildren : option bool }.
End GroupDefinition.

Module RolePolicyRepresentation.
Record t : Type := { Roles : option (slice RoleDefinition.t) }.
End RolePolicyRepresentation.

Module JSPolicyRepresentation.
Record t : Type := { Code : option bytes }.
End JSPolicyRepresentation.

Module ClientPolicyRepresentation.
Record t : Type := { Clients : option (slice bytes) }.
End ClientPolicyRepresentation.

Module TimePolicyRepresentation.
Record t : Type := {
  NotBefore : option bytes;
  NotOnOrAfter : option bytes;
  DayMonth : option bytes;
  DayMonthEnd : option bytes;
  Month : option bytes;
  MonthEnd : option bytes;
  Year : option bytes;
  YearEnd : option bytes;
  Hour : option bytes;
  HourEnd : option bytes;
  Minute : option bytes;
  MinuteEnd : option bytes }.
End TimePolicyRepresentation.

Module UserPolicyRepresentation.
Record t : Type := { Users : option (slice bytes) }.
End UserPolicyRepresentation.

Module AggregatedPolicyRepresentation.
Record t : Type := { Policies : option (slice bytes) }.
End AggregatedPolicyRepresentation.

Module GroupPolicyRepresentation.
Record t : Type := {
  Groups : option (slice GroupDefinition.t);
  GroupsClaim : option bytes }.
End GroupPolicyRepresentation.

Module PolicyRepresentation.

Record t : Type := {
  Config : option gomap;
  DecisionStrategy : option bytes;
  Description : option bytes;
  ID : option bytes;
  Logic : option bytes;
  Name : option bytes;
  Owner : option bytes;
  Policies : option (slice bytes);
  Resources : option (slice bytes);
  Scopes : option (slice bytes);
  Type_ : option bytes;
  RolePolicyRepresentation : RolePolicyRepresentation.t;
  JSPolicyRepresentation : JSPolicyRepresentation.t;
  ClientPolicyRepresentation : ClientPolicyRepresentation.t;
  TimePolicyRepresentation : TimePolicyRepresentation.t;
  UserPolicyRepresentation : UserPolicyRepresentation.t;
  AggregatedPolicyRepresentation : AggregatedPolicyRepresentation.t;
  GroupPolicyRepresentation : GroupPolicyRepresentation.t }.

Definition set_Config (p : t) (x : option gomap) : t :=
  {| Config := x; DecisionStrategy := DecisionStrategy p; Description := Description p;
     ID := ID p; Logic := Logic p; Name := Name p; Owner := Owner p;
     Policies := Policies p; Resources := Resources p; Scopes := Scopes p;
     Type_ := Type_ p;
     RolePolicyRepresentation := RolePolicyRepresentation p;
     JSPolicyRepresentation := JSPolicyRepresentation p;
     ClientPolicyRepresentation := ClientPolicyRepresentation p;
     TimePolicyRepresentation := TimePolicyRepresentation p;
     UserPolicyRepresentation := UserPolicyRepresentation p;
     AggregatedPolicyRepresentation := AggregatedPolicyRepresentation p;
     GroupPolicyRepresentation := GroupPolicyRepresentation p |}.

(** [x != nil && len( *x ) > 0] of a pointer to a slice: the elements to
    convert, if any. *)
Definition nonempty {A} (x : option (slice A)) : option (list A) :=
  match x with
  | Some s => if (0 <? len s)%nat then Some (elems s) else None
  | None => None
  end.

(** The loops that fill [clients], [users] and [policies]: entry [i] is
    the text between quotes. *)
Definition quoted_ids (xs : list bytes) : list bytes :=
  range_loop (fun i x out => <[i := q x]> out) 0 xs (make (length xs)).

(** The loop that fills [roles]; an entry without [ID] keeps the empty
    string [make] put there. *)
Definition role_objects (xs : list RoleDefinition.t) : list bytes :=
  range_loop
    (fun i role out =>
       match RoleDefinition.ID role with
       | Some id =>
         <[i := bs "{" ++ q (bs "id") ++ bs ":" ++ q id ++ bs "," ++ q (bs "required")
                  ++ bs ":"
                  ++ strconv.FormatBool
                       (match RoleDefinition.Required role with
                        | Some b => b
                        | None => false
                        end)
                  ++ bs "}"]> out
       | None => out
       end)
    0 xs (make (length xs)).

(** The loop that fills [groups]. *)
Definition group_objects (xs : list GroupDefinition.t) : list bytes :=
  range_loop
    (fun i group out =>
       match GroupDefinition.ID group with
       | Some id =>
         let required :=
           match GroupDefinition.ExtendChildren group with
           | Some true => bs "true"
           | _ => bs "false"
           end in
         <[i := bs "{" ++ q (bs "id") ++ bs ":" ++ q id ++ bs ","
                  ++ q (bs "extendChildren") ++ bs ":" ++ required ++ bs "}"]> out
       | None => out
       end)
    0 xs (make (length xs)).

(** [fmt.Sprintf("[%s]", strings.Join(xs, ","))]. *)
Definition bracketed (xs : list bytes) : bytes :=
  bs "[" ++ strings.Join xs (bs ",") ++ bs "]".

(** [if v != nil { config[k] = *v }]. *)
Definition assign_if (v : option bytes) (k : bytes) (config : gomap) : outcome gomap :=
  match v with
  | Some v => map_assign config k v
  | None => Return config
  end.

(** The receiver after the call; [Panic] when an entry is assigned while
    [Config] points to a nil map. The local [config] shares its table
    with [*p.Config]. *)
Definition ToConfig (p : t) : outcome t :=
  let p := if Config p is None then set_Config p (Some (Map ∅)) else p in
  let config := default nil_map (Config p) in
  config ← assign_if (bracketed ∘ quoted_ids <$>
                        nonempty (ClientPolicyRepresentation.Clients (ClientPolicyRepresentation p)))
                     (bs "clients") config;
  config ← assign_if (bracketed ∘ role_objects <$>
                        nonempty (RolePolicyRepresentation.Roles (RolePolicyRepresentation p)))
                     (bs "roles") config;
  config ← assign_if (JSPolicyRepresentation.Code (JSPolicyRepresentation p))
                     (bs "code") config;
  config ← assign_if (bracketed ∘ quoted_ids <$>
                        nonempty (UserPolicyRepresentation.Users (UserPolicyRepresentation p)))
                     (bs "users") config;
  config ← assign_if (bracketed ∘ quoted_ids <$>
                        nonempty (AggregatedPolicyRepresentation.Policies (AggregatedPolicyRepresentation p)))
                     (bs "applyPolicies") config;
  config ← assign_if (bracketed ∘ group_objects <$>
                        nonempty (GroupPolicyRepresentation.Groups (GroupPolicyRepresentation p)))
                     (bs "groups") config;
  config ← assign_if (GroupPolicyRepresentation.GroupsClaim (GroupPolicyRepresentation p))
                     (bs "groupsClaim") config;
  let tp := TimePolicyRepresentation p in
  config ← assign_if (TimePolicyRepresentation.NotBefore tp) (bs "nbf") config;
  config ← assign_if (TimePolicyRepresentation.NotOnOrAfter tp) (bs "noa") config;
  config ← assign_if (TimePolicyRepresentation.DayMonth tp) (bs "dayMonth") config;
  config ← assign_if (TimePolicyRepresentation.DayMonthEnd tp) (bs "dayMonthEnd") config;
  config ← assign_if (TimePolicyRepresentation.Month tp) (bs "month") config;
  config ← assign_if (TimePolicyRepresentation.MonthEnd tp) (bs "monthEnd") config;
  config ← assign_if (TimePolicyRepresentation.Year tp) (bs "year") config;
  config ← assign_if (TimePolicyRepresentation.YearEnd tp) (bs "yearEnd") config;
  config ← assign_if (TimePolicyRepresentation.Hour tp) (bs "hour") config;
  config ← assign_if (TimePolicyRepresentation.HourEnd tp) (bs "hourEnd") config;
  config ← assign_if (TimePolicyRepresentation.Minute tp) (bs "minute") config;
  config ← assign_if (TimePolicyRepresentation.MinuteEnd tp) (bs "minuteEnd") config;
  Return (set_Config p (Some config)).

(** The conditional assignments of [ToConfig] in the order of the code:
    the value, if the field is set, and the key it is stored under. *)
Definition assignments (p : t) : list (option bytes * bytes) :=
  let tp := TimePolicyRepresentation p in
  [ (bracketed ∘ quoted_ids <$>
       nonempty (ClientPolicyRepresentation.Clients (ClientPolicyRepresentation p)),
     bs "clients");
    (bracketed ∘ role_objects <$>
       nonempty (RolePolicyRepresentation.Roles (RolePolicyRepresentation p)),
     bs "roles");
    (JSPolicyRepresentation.Code (JSPolicyRepresentation p), bs "code");
    (bracketed ∘ quoted_ids <$>
       nonempty (UserPolicyRepresentation.Users (UserPolicyRepresentation p)),
     bs "users");
    (bracketed ∘ quoted_ids <$>
       nonempty (AggregatedPolicyRepresentation.Policies (AggregatedPolicyRepresentation p)),
     bs "applyPolicies");
    (bracketed ∘ group_objects <$>
       nonempty (GroupPolicyRepresentation.Groups (GroupPolicyRepresentation p)),
     bs "groups");
    (GroupPolicyRepresentation.GroupsClaim (GroupPolicyRepresentation p), bs "groupsClaim");
    (TimePolicyRepresentation.NotBefore tp, bs "nbf");
    (TimePolicyRepresentation.NotOnOrAfter tp, bs "noa");
    (TimePolicyRepresentation.DayMonth tp, bs "dayMonth");
    (TimePolicyRepresentation.DayMonthEnd tp, bs "dayMonthEnd");
    (TimePolicyRepresentation.Month tp, bs "month");
    (TimePolicyRepresentation.MonthEnd tp, bs "monthEnd");
    (TimePolicyRepresentation.Year tp, bs "year");
    (TimePolicyRepresentation.YearEnd tp, bs "yearEnd");
    (TimePolicyRepresentation.Hour tp, bs "hour");
    (TimePolicyRepresentation.HourEnd tp, bs "hourEnd");
    (TimePolicyRepresentation.Minute tp, bs "minute");
    (TimePolicyRepresentation.MinuteEnd tp, bs "minuteEnd") ].

Fixpoint assign_all (l : list (option bytes * bytes)) (config : gomap) : outcome gomap :=
  match l with
  | [] => Return config
  | (v, k) :: l' => config ← assign_if v k config; assign_all l' config
  end.

(** The entries that are assigned: key and value of the fields that are
    set. *)
Definition assigned (l : list (option bytes * bytes)) : list (bytes * bytes) :=
  omap (λ vk, v ← vk.1; Some (vk.2, v)) l.

(** The mapping [p.Config] points to. *)
Definition config_of (p : t) : gmap bytes bytes :=
  entries (default nil_map (Config p)).

(** The [roles] entry as the specification words it: the JSON array of
    the objects with the id, as a JSON string (escaped where JSON asks
    for it), and the [required] flag, false when absent, in source
    order; an entry without id is skipped. *)
Definition role_literal (id : bytes) (required : bool) : bytes :=
  bs "{" ++ q (bs "id") ++ bs ":" ++ json.appendString [] id true ++ bs ","
    ++ q (bs "required") ++ bs ":" ++ (if required then bs "true" else bs "false") ++ bs "}".

Definition roles_literal (roles : list RoleDefinition.t) : bytes :=
  bs "[" ++
  strings.Join
    (omap (λ r, id ← RoleDefinition.ID r;
                Some (role_literal id (default false (RoleDefinition.Required r))))
          roles)
    (bs ",")
  ++ bs "]".

(** *** The configuration map in the store *)

(** A Go map is a reference to a table, and the nil map refers to none;
    [p.Config] points to a variable that holds such a reference. The
    store has the tables and the variables, by address. *)
Record store : Type := Store {
  tables : gmap positive (gmap bytes bytes);
  variables : gmap positive (option positive) }.

(** [map[string]string{}]: a new table, empty. *)
Definition new_table (σ : store) : positive * store :=
  let r := fresh (dom (tables σ)) in
  (r, Store (<[r := ∅]> (tables σ)) (variables σ)).

(** A new variable that holds the reference [v]. *)
Definition new_variable (v : option positive) (σ : store) : positive * store :=
  let a := fresh (dom (variables σ)) in
  (a, Store (tables σ) (<[a := v]> (variables σ))).

(** [config[k] = v]: the table [config] refers to is written in place;
    the nil map panics. *)
Definition table_assign (config : option positive) (k v : bytes) (σ : store) : outcome store :=
  match config with
  | None => Panic
  | Some r =>
    Return (Store (<[r := <[k := v]> (default ∅ (tables σ !! r))]> (tables σ)) (variables σ))
  end.

(** The conditional assignments, in order, through the reference
    [config]. *)
Fixpoint assign_all_store (l : list (option bytes * bytes)) (config : option positive)
    (σ : store) : outcome store :=
  match l with
  | [] => Return σ
  | (Some v, k) :: l' => σ ← table_assign config k v σ; assign_all_store l' config σ
  | (None, _) :: l' => assign_all_store l' config σ
  end.

(** [ToConfig] with the receiver's [Config] a pointer [c] into the
    store, the other fields being those of [p]: the pointer after the
    call and the store. The variable [config] receives the reference
    that [*p.Config] holds, not a copy of the table, and [p.Config]
    points to this variable in the end. *)
Definition ToConfig_store (p : t) (c : option positive) (σ : store)
    : outcome (option positive * store) :=
  let '(c, σ) :=
    match c with
    | None => let '(r, σ) := new_table σ in new_variable (Some r) σ
    | Some a => (a, σ)
    end in
  let reference := default None (variables σ !! c) in
  let '(config, σ) := new_variable reference σ in
  σ ← assign_all_store (assignments p) reference σ;
  Return (Some config, σ).

(** The map a pointer designates, as a value. *)
Definition view (σ : store) (c : option positive) : option gomap :=
  a ← c;
  Some match default None (variables σ !! a) with
       | Some r => Map (default ∅ (tables σ !! r))
       | None => nil_map
       end.

End PolicyRepresentation.

(** ** Stringers *)

(** [prettyStringStruct]: the indented encoding, with one tab for each
    level; the empty string if the value cannot be encoded. *)
Definition prettyStringStruct {A} `{json.Marshaler A} (t : A) : bytes :=
  match json.MarshalIndent t [] [byte_of 9] with
  | inl _ => []
  | inr json => json
  end.

(** ** API errors *)

(** The [error] interface: a dynamic type with its [Error] method. An
    [error] variable is an [option]: [None] is the nil interface. *)
(** The [error] interface: a dynamic type with its [Error] method. The
    call can panic: a method with a value receiver that is called
    through a nil pointer dereferences it. *)
Class error (A : Type) : Type := Error : A → outcome bytes.

Definition APIErrType : Type := bytes.

Definition APIErrTypeUnknown : APIErrType := bs "unknown".
Definition APIErrTypeInvalidGrant : APIErrType := bs "oauth: invalid grant".

(** [err] is [None] for the nil interface value, and holds the dynamic
    value otherwise. *)
Definition ParseAPIErrType {A} `{error A} (err : option A) : outcome APIErrType :=
  match err with
  | None => Return APIErrTypeUnknown
  | Some err =>
    message ← Error err;
    if strings.Contains message (bs "invalid_grant") then Return APIErrTypeInvalidGrant
    else Return APIErrTypeUnknown
  end.

Module APIError.

Record t : Type := {
  Code : Z;
  Message : bytes;
  Type_ : APIErrType }.

(** [Error] has a value receiver: an [APIError] in an [error] answers
    with its message. *)
#[global] Instance Error : error t := fun apiError => Return (Message apiError).

(** A [*APIError] in an [error] has the method too; the call copies
    what the pointer points to, and panics when the pointer is nil. *)
#[global] Instance Error_pointer : error (option t) :=
  fun apiError =>
    match apiError with
    | Some apiError => Return (Message apiError)
    | None => Panic
    end.

End APIError.

(** ** More option records *)

Module GetUserPermissionParams.

Record t : Type := {
  ScopeID : option bytes;
  ResourceID : option bytes;
  Owner : option bytes;
  Requester : option bytes;
  Granted : option bool;
  ReturnNames : option bytes;
  First : option Z;
  Max : option Z }.

Definition fields (v : t) : json.struct :=
  [ json.Field (json.Tag (bs "scopeId") true false) (json.PtrString (ScopeID v));
    json.Field (json.Tag (bs "resourceId") true false) (json.PtrString (ResourceID v));
    json.Field (json.Tag (bs "owner") true false) (json.PtrString (Owner v));
    json.Field (json.Tag (bs "requester") true false) (json.PtrString (Requester v));
    json.Field (json.Tag (bs "granted") true false) (json.PtrBool (Granted v));
    json.Field (json.Tag (bs "returnNames") true false) (json.PtrString (ReturnNames v));
    json.Field (json.Tag (bs "first") true true) (json.PtrInt (First v));
    json.Field (json.Tag (bs "max") true true) (json.PtrInt (Max v)) ].

#[global] Instance Marshal : json.Marshaler t := fun v => json.Marshal (fields v).

End GetUserPermissionParams.

Module AuthorizationParameters.

Record t : Type := {
  ResponseType : option bytes;
  ClientID : option bytes;
  Scope : option bytes;
  RedirectURI : option bytes;
  State : option bytes;
  Nonce : option bytes;
  IDTokenHint : option bytes }.

Definition fields (v : t) : json.struct :=
  [ json.Field (json.Tag (bs "code") true false) (json.PtrString (ResponseType v));
    json.Field (json.Tag (bs "client_id") true false) (json.PtrString (ClientID v));
    json.Field (json.Tag (bs "scope") true false) (json.PtrString (Scope v));
    json.Field (json.Tag (bs "redirect_uri") true false) (json.PtrString (RedirectURI v));
    json.Field (json.Tag (bs "state") true false) (json.PtrString (State v));
    json.Field (json.Tag (bs "nonce") true false) (json.PtrString (Nonce v));
    json.Field (json.Tag (bs "id_token_hint") true false) (json.PtrString (IDTokenHint v)) ].

#[global] Instance Marshal : json.Marshaler t := fun v => json.Marshal (fields v).

(** The map returned; the receiver is only read. The errors of [Marshal]
    and [Unmarshal] are dropped; [res] starts as the nil map. *)
Definition FormData (p : t) : gmap bytes bytes :=
  let m := match json.Marshal p with inr m => m | inl _ => [] end in
  let res := fst (json.Unmarshal_map m ∅) in
  res.

End AuthorizationParameters.

Module RequestingPartyTokenOptions.

(** [ResponsePermissionsLimit] is a [*uint32]. *)
Record t : Type := {
  GrantType : option bytes;
  Ticket : option bytes;
  ClaimToken : option bytes;
  ClaimTokenFormat : option bytes;
  RPT : option bytes;
  Permissions : option (slice bytes);
  PermissionResourceFormat : option bytes;
  PermissionResourceMatchingURI : option bool;
  Audience : option bytes;
  ResponseIncludeResourceName : option bool;
  ResponsePermissionsLimit : option N;
  SubmitRequest : option bool;
  ResponseMode : option bytes;
  SubjectToken : option bytes }.

(** The encoders of signed and unsigned integers write the same digits
    for a number that is not negative. *)
Definition fields (v : t) : json.struct :=
  [ json.Field (json.Tag (bs "grant_type") true false) (json.PtrString (GrantType v));
    json.Field (json.Tag (bs "ticket") true false) (json.PtrString (Ticket v));
    json.Field (json.Tag (bs "claim_token") true false) (json.PtrString (ClaimToken v));
    json.Field (json.Tag (bs "claim_token_format") true false) (json.PtrString (ClaimTokenFormat v));
    json.Field (json.Tag (bs "rpt") true false) (json.PtrString (RPT v));
    json.Field json.Ignore (json.PtrStrings (Permissions v));
    json.Field (json.Tag (bs "permission_resource_format") true false)
               (json.PtrString (PermissionResourceFormat v));
    json.Field (json.Tag (bs "permission_resource_matching_uri") true true)
               (json.PtrBool (PermissionResourceMatchingURI v));
    json.Field (json.Tag (bs "audience") true false) (json.PtrString (Audience v));
    json.Field (json.Tag (bs "response_include_resource_name") true true)
               (json.PtrBool (ResponseIncludeResourceName v));
    json.Field (json.Tag (bs "response_permissions_limit") true false)
               (json.PtrInt (Z.of_N <$> ResponsePermissionsLimit v));
    json.Field (json.Tag (bs "submit_request") true true) (json.PtrBool (SubmitRequest v));
    json.Field (json.Tag (bs "response_mode") true false) (json.PtrString (ResponseMode v));
    json.Field (json.Tag (bs "subject_token") true false) (json.PtrString (SubjectToken v)) ].

#[global] Instance Marshal : json.Marshaler t := fun v => json.Marshal (fields v).

Definition set_GrantType (v : t) (x : option bytes) : t :=
  {| GrantType := x; Ticket := Ticket v; ClaimToken := ClaimToken v;
     ClaimTokenFormat := ClaimTokenFormat v; RPT := RPT v; Permissions := Permissions v;
     PermissionResourceFormat := PermissionResourceFormat v;
     PermissionResourceMatchingURI := PermissionResourceMatchingURI v;
     Audience := Audience v;
     ResponseIncludeResourceName := ResponseIncludeResourceName v;
     ResponsePermissionsLimit := ResponsePermissionsLimit v;
     SubmitRequest := SubmitRequest v; ResponseMode := ResponseMode v;
     SubjectToken := SubjectToken v |}.

Definition set_ResponseIncludeResourceName (v : t) (x : option bool) : t :=
  {| GrantType := GrantType v; Ticket := Ticket v; ClaimToken := ClaimToken v;
     ClaimTokenFormat := ClaimTokenFormat v; RPT := RPT v; Permissions := Permissions v;
     PermissionResourceFormat := PermissionResourceFormat v;
     PermissionResourceMatchingURI := PermissionResourceMatchingURI v;
     Audience := Audience v;
     ResponseIncludeResourceName := x;
     ResponsePermissionsLimit := ResponsePermissionsLimit v;
     SubmitRequest := SubmitRequest v; ResponseMode := ResponseMode v;
     SubjectToken := SubjectToken v |}.

(** The grant type of a requesting party token. *)
Definition uma_ticket : bytes := bs "urn:ietf:params:oauth:grant-type:uma-ticket".

(** The receiver after the call and the map returned. *)
Definition FormData (t0 : t) : t * gmap bytes bytes :=
  let t1 :=
    if NilOrEmpty (GrantType t0)
    then set_GrantType t0 (StringP uma_ticket)
    else t0 in
  let t2 :=
    if bool_decide (ResponseIncludeResourceName t1 = None)
    then set_ResponseIncludeResourceName t1 (BoolP true)
    else t1 in
  let m := match json.Marshal t2 with inr m => m | inl _ => [] end in
  let res := fst (json.Unmarshal_map m ∅) in
  (t2, res).

End RequestingPartyTokenOptions.

Module OrganizationInviteUserParams.

Record t : Type := {
  Email : option bytes;
  FirstName : option bytes;
  LastName : option bytes }.

Definition fields (v : t) : json.struct :=
  [ json.Field (json.Tag (bs "email") true false) (json.PtrString (Email v));
    json.Field (json.Tag (bs "firstName") true false) (json.PtrString (FirstName v));
    json.Field (json.Tag (bs "lastName") true false) (json.PtrString (LastName v)) ].

#[global] Instance Marshal : json.Marshaler t := fun v => json.Marshal (fields v).

(** The map returned; the receiver is only read. *)
Definition FormData (v : t) : gmap bytes bytes :=
  let m := match json.Marshal v with inr m => m | inl _ => [] end in
  let res := fst (json.Unmarshal_map m ∅) in
  res.

End OrganizationInviteUserParams.

(** ** The wire form of a struct *)

(** The JSON value the encoding of a field value stands for: what
    [fieldEncoder] writes, read back. With the [string] option a string is
    encoded twice, a boolean and an integer are put between quotes. *)
Definition wire (v : json.fieldValue) (quoted : bool) : json.value :=
  match v with
  | json.PtrString (Some s) =>
    json.String (if quoted then json.coerce (json.appendString [] s true) else json.coerce s)
  | json.PtrBool (Some b) =>
    if quoted then json.String (strconv.FormatBool b) else json.Bool b
  | json.PtrInt (Some i) =>
    if quoted then json.String (strconv.Itoa i) else json.Number (strconv.Itoa i)
  | json.PtrStrings (Some (Slice l)) | json.Strings (Slice l) =>
    json.Array (json.String ∘ json.coerce <$> l)
  | json.PtrStrings (Some nil_slice) | json.Strings nil_slice => json.Null
  | json.PtrString None | json.PtrBool None | json.PtrInt None | json.PtrStrings None =>
    json.Null
  end.

(** The fields the struct encoder writes: not the ones tagged [-] and not
    the empty ones with [omitempty]. *)
Definition written (s : json.struct) : list (bytes * bool * json.fieldValue) :=
  omap (λ f, match json.ftag f with
             | json.Tag name omitEmpty quoted =>
               if omitEmpty && json.isEmptyValue (json.fvalue f) then None
               else Some (name, quoted, json.fvalue f)
             | json.Ignore => None
             end) s.

(** The strings of a field value, and the texts of a struct: the names
    and the strings of the fields that are written. *)
Definition fieldStrings (v : json.fieldValue) : list bytes :=
  match v with
  | json.PtrString (Some s) => [s]
  | json.PtrStrings (Some s) | json.Strings s => elems s
  | _ => []
  end.

Definition texts (s : json.struct) : list bytes :=
  written s ≫= λ '(name, _, v), name :: fieldStrings v.

(** The members of the object a struct is encoded as. *)
Definition members (s : json.struct) : list (bytes * json.value) :=
  (λ '(name, quoted, v), (json.coerce name, wire v quoted)) <$> written s.

(** The text of the members, as the struct encoder writes them after the
    byte [next]. *)
Fixpoint writtenMembers (next : ascii) (ms : list (bytes * bool * json.fieldValue)) : bytes :=
  match ms with
  | [] => []
  | (name, quoted, v) :: ms' =>
    [next] ++ json.appendString [] name true ++ bs ":" ++ json.fieldEncoder v quoted
      ++ writtenMembers ","%char ms'
  end.

(** ** The layout of an indented struct *)

(** A slice of strings, indented: one string on a line, a level deeper
    than the line the array starts on; the empty slice stays [[]]. *)
Definition indentedStrings (prefix indent : bytes) (depth : Z) (l : list bytes) : bytes :=
  match l with
  | [] => bs "[]"
  | _ =>
    bs "["
      ++ strings.Join
           ((λ x, json.appendNewline [] prefix indent (depth + 1) ++ json.stringEncoder x false)
              <$> l) (bs ",")
      ++ json.appendNewline [] prefix indent depth ++ bs "]"
  end.

(** A field value, indented: as the encoder writes it, a slice apart. *)
Definition indentedField (prefix indent : bytes) (depth : Z) (v : json.fieldValue)
    (quoted : bool) : bytes :=
  match v with
  | json.PtrStrings (Some (Slice l)) | json.Strings (Slice l) =>
    indentedStrings prefix indent depth l
  | _ => json.fieldEncoder v quoted
  end.

(** A member of the top-level object, indented: on a line of its own at
    depth one, the name followed by a colon and a space. *)
Definition indentedMember (prefix indent : bytes) (m : bytes * bool * json.fieldValue) : bytes :=
  let '(name, quoted, v) := m in
  json.appendNewline [] prefix indent 1 ++ json.appendString [] name true
    ++ bs ": " ++ indentedField prefix indent 1 v quoted.

(** A struct, indented: the members separated by commas, the closing
    brace on a line of its own; the braces of a struct without members
    stay together. *)
Definition indentedStruct (prefix indent : bytes) (s : json.struct) : bytes :=
  match written s with
  | [] => bs "{}"
  | ms =>
    bs "{" ++ strings.Join (indentedMember prefix indent <$> ms) (bs ",")
      ++ json.appendNewline [] prefix indent 0 ++ bs "}"
  end.

(** ** The indenting loop, piece by piece *)

(** The state of the loop with [d] written before what it has written. *)
Definition shift (d : bytes) (st : json.indenter) : json.indenter :=
  json.Indenter (d ++ json.dst st) (json.scan st) (json.needIndent st) (json.depth st).

(** The state of the loop inside a string literal. *)
Definition inString (d : bytes) (e : bool) (ps : list json.parseKind) (er : bool) (k : Z)
    : json.indenter :=
  json.Indenter d (json.Scanner json.StateInString e ps er) false k.

(** A piece of a string literal that the loop copies, staying in the
    literal. *)
Definition copied (prefix indent : bytes) (body : bytes) : Prop :=
  ∀ d e ps er k,
    json.appendIndent_loop prefix indent body (inString d e ps er k)
    = inString (d ++ body) e ps er k.

(** The states of the scanner in which a value may start, and the states
    it is in after a value. *)
Definition starts (f : json.stepFunc) : Prop :=
  f = json.StateBeginValue ∨ f = json.StateBeginValueOrEmpty ∨ f = json.StateBeginString
  ∨ f = json.StateBeginStringOrEmpty.

Definition ended (f : json.stepFunc) : Prop :=
  f = json.StateEndValue ∨ f = json.State0 ∨ f = json.State1.

(** Input that ends a number: it starts with a byte that cannot continue
    one. *)
Definition terminated (rest : bytes) : Prop :=
  match rest with
  | c :: _ =>
    json.isDigit c = false ∧ c ≠ "."%char ∧ c ≠ "e"%char ∧ c ≠ "E"%char
  | [] => False
  end.

(** The byte after a value in an object. *)
Definition delimited (rest : bytes) : bool :=
  match rest with
  | c :: _ => bool_decide (c = ","%char) || bool_decide (c = "}"%char)
  | [] => false
  end.

(** Whether a field is written as a value that a string cannot hold. *)
Definition mismatch (f : json.field) : bool :=
  match json.ftag f with
  | json.Tag _ omitEmpty quoted =>
    negb (omitEmpty && json.isEmptyValue (json.fvalue f))
    && snd (json.string_elem (wire (json.fvalue f) quoted))
  | json.Ignore => false
  end.

(** The entry a field gives in a map of strings: nothing if the field is
    not written, the empty string for a value that is not a string. *)
Definition stored (f : json.field) : option bytes :=
  match json.ftag f with
  | json.Tag _ omitEmpty quoted =>
    if omitEmpty && json.isEmptyValue (json.fvalue f) then None
    else Some (fst (json.string_elem (wire (json.fvalue f) quoted)))
  | json.Ignore => None
  end.

(** The entries stored for the members, keyed by the names. *)
Definition kvs (fs : json.struct) : list (bytes * bytes) :=
  (λ '(name, quoted, v), (name, (json.string_elem (wire v quoted)).1)) <$> written fs.

(** ** Values used in the examples *)

Module Examples.

(** A policy with every field nil, as Go's zero value. *)
Definition zero_time : TimePolicyRepresentation.t :=
  {| TimePolicyRepresentation.NotBefore := None;
     TimePolicyRepresentation.NotOnOrAfter := None;
     TimePolicyRepresentation.DayMonth := None;
     TimePolicyRepresentation.DayMonthEnd := None;
     TimePolicyRepresentation.Month := None;
     TimePolicyRepresentation.MonthEnd := None;
     TimePolicyRepresentation.Year := None;
     TimePolicyRepresentation.YearEnd := None;
     TimePolicyRepresentation.Hour := None;
     TimePolicyRepresentation.HourEnd := None;
     TimePolicyRepresentation.Minute := None;
     TimePolicyRepresentation.MinuteEnd := None |}.

(** A policy that has only a configuration, a role list and a code. *)
Definition policy (config : option gomap) (roles : option (slice RoleDefinition.t))
    (code : option bytes) : PolicyRepresentation.t :=
  {| PolicyRepresentation.Config := config;
     PolicyRepresentation.DecisionStrategy := None;
     PolicyRepresentation.Description := None;
     PolicyRepresentation.ID := None;
     PolicyRepresentation.Logic := None;
     PolicyRepresentation.Name := None;
     PolicyRepresentation.Owner := None;
     PolicyRepresentation.Policies := None;
     PolicyRepresentation.Resources := None;
     PolicyRepresentation.Scopes := None;
     PolicyRepresentation.Type_ := None;
     PolicyRepresentation.RolePolicyRepresentation :=
       {| RolePolicyRepresentation.Roles := roles |};
     PolicyRepresentation.JSPolicyRepresentation :=
       {| JSPolicyRepresentation.Code := code |};
     PolicyRepresentation.ClientPolicyRepresentation :=
       {| ClientPolicyRepresentation.Clients := None |};
     PolicyRepresentation.TimePolicyRepresentation := zero_time;
     PolicyRepresentation.UserPolicyRepresentation :=
       {| UserPolicyRepresentation.Users := None |};
     PolicyRepresentation.AggregatedPolicyRepresentation :=
       {| AggregatedPolicyRepresentation.Policies := None |};
     PolicyRepresentation.GroupPolicyRepresentation :=
       {| GroupPolicyRepresentation.Groups := None;
          GroupPolicyRepresentation.GroupsClaim := None |} |}.

Definition role (id : option bytes) (required : option bool) : RoleDefinition.t :=
  {| RoleDefinition.ID := id; RoleDefinition.Private := None;
     RoleDefinition.Required := required |}.

(** The role list [{id: "r1", required: true}, {id: "r2"}]. *)
Definition r1_r2 : slice RoleDefinition.t :=
  Slice [role (Some (bs "r1")) (Some true); role (Some (bs "r2")) None].

(** The text [{"id":"r1","required":true},{"id":"r2","required":false}]
    between brackets. *)
Definition r1_r2_text : bytes :=
  bs "[{" ++ q (bs "id") ++ bs ":" ++ q (bs "r1") ++ bs "," ++ q (bs "required")
    ++ bs ":true},{" ++ q (bs "id") ++ bs ":" ++ q (bs "r2") ++ bs ","
    ++ q (bs "required") ++ bs ":false}]".

(** A role list whose second entry has no id. *)
Definition r1_noid_r2 : slice RoleDefinition.t :=
  Slice [role (Some (bs "r1")) (Some true); role None None;
         role (Some (bs "r2")) None].

(** A configuration that already has a [clients] entry. *)
Definition with_clients : gomap := Map {[ bs "clients" := bs "[]" ]}.

(** [GetUsersParams{Max: IntP(10)}]. *)
Definition users_max_10 : GetUsersParams.t :=
  {| GetUsersParams.BriefRepresentation := None; GetUsersParams.Email := None;
     GetUsersParams.EmailVerified := None; GetUsersParams.Enabled := None;
     GetUsersParams.Exact := None; GetUsersParams.First := None;
     GetUsersParams.FirstName := None; GetUsersParams.IDPAlias := None;
     GetUsersParams.IDPUserID := None; GetUsersParams.LastName := None;
     GetUsersParams.Max := Some 10%Z; GetUsersParams.Q := None;
     GetUsersParams.Search := None; GetUsersParams.Username := None |}.

(** [GetEventsParams{Type: []string{"LOGIN"}}]. *)
Definition events_login : GetEventsParams.t :=
  {| GetEventsParams.Client := None; GetEventsParams.DateFrom := None;
     GetEventsParams.DateTo := None; GetEventsParams.First := None;
     GetEventsParams.IPAddress := None; GetEventsParams.Max := None;
     GetEventsParams.Type_ := Slice [bs "LOGIN"]; GetEventsParams.UserID := None |}.

(** Two struct types that declare the same fields in opposite orders. *)
Definition field_a : json.field :=
  json.Field (json.Tag (bs "a") true false) (json.PtrString (Some (bs "1"))).
Definition field_b : json.field :=
  json.Field (json.Tag (bs "b") true false) (json.PtrString (Some (bs "2"))).
Definition struct_ab : json.struct := [field_a; field_b].
Definition struct_ba : json.struct := [field_b; field_a].

(** Token options with only the scope and response type fields set. *)
Definition token_options (scopes : option (slice bytes)) (scope : option bytes)
    (responseTypes : option (slice bytes)) (responseType : option bytes) : TokenOptions.t :=
  {| TokenOptions.ClientID := None; TokenOptions.ClientSecret := None;
     TokenOptions.GrantType := None; TokenOptions.RefreshToken := None;
     TokenOptions.Scopes := scopes; TokenOptions.Scope := scope;
     TokenOptions.ResponseTypes := responseTypes; TokenOptions.ResponseType := responseType;
     TokenOptions.Permission := None; TokenOptions.Username := None;
     TokenOptions.Password := None; TokenOptions.Totp := None; TokenOptions.Code := None;
     TokenOptions.RedirectURI := None; TokenOptions.ClientAssertionType := None;
     TokenOptions.ClientAssertion := None; TokenOptions.SubjectToken := None;
     TokenOptions.RequestedSubject := None; TokenOptions.Audience := None;
     TokenOptions.RequestedTokenType := None |}.

(** [Scopes] is [openid, profile] and [Scope] is [email]. *)
Definition scopes_and_scope : TokenOptions.t :=
  token_options (Some (Slice [bs "openid"; bs "profile"])) (Some (bs "email")) None None.

(** [GetGroupsParams] with only the two aliased fields set. *)
Definition groups_params (brief full : option bool) : GetGroupsParams.t :=
  {| GetGroupsParams.BriefRepresentation := brief; GetGroupsParams.Exact := None;
     GetGroupsParams.First := None; GetGroupsParams.Full := full;
     GetGroupsParams.Max := None; GetGroupsParams.Q := None;
     GetGroupsParams.Search := None |}.

(** The unquoted payload [hello "world"]. *)
Definition hello_world : bytes := bs "hello " ++ q (bs "world").

(** A string that is not valid UTF-8: the single byte 0xFF; and the
    encoding of U+FFFD. *)
Definition invalid_ff : bytes := [byte_of 255].
Definition replacement : bytes := [byte_of 239; byte_of 191; byte_of 189].

Definition group (id : option bytes) (extendChildren : option bool) : GroupDefinition.t :=
  {| GroupDefinition.ID := id; GroupDefinition.Path := None;
     GroupDefinition.ExtendChildren := extendChildren |}.

(** A policy that has only a list of groups. *)
Definition group_policy (groups : slice GroupDefinition.t) : PolicyRepresentation.t :=
  {| PolicyRepresentation.Config := None;
     PolicyRepresentation.DecisionStrategy := None;
     PolicyRepresentation.Description := None;
     PolicyRepresentation.ID := None;
     PolicyRepresentation.Logic := None;
     PolicyRepresentation.Name := None;
     PolicyRepresentation.Owner := None;
     PolicyRepresentation.Policies := None;
     PolicyRepresentation.Resources := None;
     PolicyRepresentation.Scopes := None;
     PolicyRepresentation.Type_ := None;
     PolicyRepresentation.RolePolicyRepresentation :=
       {| RolePolicyRepresentation.Roles := None |};
     PolicyRepresentation.JSPolicyRepresentation :=
       {| JSPolicyRepresentation.Code := None |};
     PolicyRepresentation.ClientPolicyRepresentation :=
       {| ClientPolicyRepresentation.Clients := None |};
     PolicyRepresentation.TimePolicyRepresentation := zero_time;
     PolicyRepresentation.UserPolicyRepresentation :=
       {| UserPolicyRepresentation.Users := None |};
     PolicyRepresentation.AggregatedPolicyRepresentation :=
       {| AggregatedPolicyRepresentation.Policies := None |};
     PolicyRepresentation.GroupPolicyRepresentation :=
       {| GroupPolicyRepresentation.Groups := Some groups;
          GroupPolicyRepresentation.GroupsClaim := None |} |}.

(** The groups [{id: "g1", extendChildren: true}, {}]: the second has no
    id. *)
Definition g1_noid : slice GroupDefinition.t :=
  Slice [group (Some (bs "g1")) (Some true); group None None].

(** The groups [{id: "g1", extendChildren: true}, {id: "g2"}]. *)
Definition g1_g2 : slice GroupDefinition.t :=
  Slice [group (Some (bs "g1")) (Some true); group (Some (bs "g2")) None].

(** A struct whose only field is a boolean without the [string]
    option. *)
Definition granted : json.struct :=
  [json.Field (json.Tag (bs "granted") true false) (json.PtrBool (Some true))].

(** A struct whose only field is a string with the [string] option. *)
Definition quoted_q : json.struct :=
  [json.Field (json.Tag (bs "q") true true) (json.PtrString (Some (bs "a b")))].

(** A role whose id has a double quote between an [a] and a [b]. *)
Definition r_quote : slice RoleDefinition.t :=
  Slice [role (Some (bs "a" ++ [dq] ++ bs "b")) None].

(** A policy that has only a list of clients. *)
Definition client_policy (clients : slice bytes) : PolicyRepresentation.t :=
  {| PolicyRepresentation.Config := None;
     PolicyRepresentation.DecisionStrategy := None;
     PolicyRepresentation.Description := None;
     PolicyRepresentation.ID := None;
     PolicyRepresentation.Logic := None;
     PolicyRepresentation.Name := None;
     PolicyRepresentation.Owner := None;
     PolicyRepresentation.Policies := None;
     PolicyRepresentation.Resources := None;
     PolicyRepresentation.Scopes := None;
     PolicyRepresentation.Type_ := None;
     PolicyRepresentation.RolePolicyRepresentation :=
       {| RolePolicyRepresentation.Roles := None |};
     PolicyRepresentation.JSPolicyRepresentation :=
       {| JSPolicyRepresentation.Code := None |};
     PolicyRepresentation.ClientPolicyRepresentation :=
       {| ClientPolicyRepresentation.Clients := Some clients |};
     PolicyRepresentation.TimePolicyRepresentation := zero_time;
     PolicyRepresentation.UserPolicyRepresentation :=
       {| UserPolicyRepresentation.Users := None |};
     PolicyRepresentation.AggregatedPolicyRepresentation :=
       {| AggregatedPolicyRepresentation.Policies := None |};
     PolicyRepresentation.GroupPolicyRepresentation :=
       {| GroupPolicyRepresentation.Groups := None;
          GroupPolicyRepresentation.GroupsClaim := None |} |}.

(** The clients [c1] and [c2]. *)
Definition c1_c2 : slice bytes := Slice [bs "c1"; bs "c2"].

(** A store in which two variables, at 1 and 2, refer to the one table,
    at 1, that has an entry [k]. *)
Definition shared : PolicyRepresentation.store :=
  {| PolicyRepresentation.tables := {[ 1%positive := {[ bs "k" := bs "v" ]} ]};
     PolicyRepresentation.variables :=
       {[ 1%positive := Some 1%positive; 2%positive := Some 1%positive ]} |}.

(** A struct with a boolean, a number, a string and a slice of
    strings. *)
Definition mixed : json.struct :=
  [ json.Field (json.Tag (bs "exact") true true) (json.PtrBool (Some true));
    json.Field (json.Tag (bs "max") true false) (json.PtrInt (Some 10%Z));
    json.Field (json.Tag (bs "q") true false) (json.PtrString (Some (bs "a b")));
    json.Field (json.Tag (bs "type") true false)
      (json.Strings (Slice [bs "LOGIN"; bs "LOGOUT"])) ].

End Examples.

(** * Properties *)

(** * Bytes *)

Section Bytes.
Local Open Scope N_scope.

Lemma code_lt_256 (c : ascii) : code c < 256.
Proof. apply N_ascii_bounded. Qed.

Lemma byte_of_code (c : ascii) : byte_of (code c) = c.
Proof.
  unfold byte_of, code. rewrite N.mod_small by apply N_ascii_bounded.
  apply ascii_N_embedding.
Qed.

Lemma code_byte_of (n : N) : n < 256 → code (byte_of n) = n.
Proof.
  intros Hn. unfold byte_of, code. rewrite N.mod_small by done.
  by apply N_ascii_embedding.
Qed.

Lemma code_inj (c d : ascii) : code c = code d → c = d.
Proof. intros H. rewrite <- (byte_of_code c), <- (byte_of_code d). by rewrite H. Qed.

(** A property of bytes that holds of the 256 of them. *)
Lemma ascii_forall (P : ascii → bool) :
  forallb P all_ascii = true → ∀ c, P c = true.
Proof.
  intros H c. rewrite forallb_forall in H. apply H.
  unfold all_ascii. rewrite <- (ascii_nat_embedding c).
  apply in_map, in_seq. pose proof (nat_ascii_bounded c). lia.
Qed.

End Bytes.

Section Utf8.
Local Open Scope N_scope.
Import utf8.

Lemma lor_mul_pow2 (a b n : N) : b < 2 ^ n → N.lor (a * 2 ^ n) b = a * 2 ^ n + b.
Proof.
  intros Hb.
  assert (N.land (a * 2 ^ n) b = 0) as Hdisj.
  { apply N.bits_inj_0. intros i. rewrite N.land_spec.
    destruct (N.lt_ge_cases i n) as [Hi|Hi].
    - by rewrite N.mul_pow2_bits_low.
    - rewrite <- (N.mod_small b (2 ^ n)) by done.
      rewrite N.mod_pow2_bits_high by done. apply andb_false_r. }
  by rewrite <- N.lxor_lor, <- N.add_nocarry_lxor.
Qed.

Lemma land_maskx (r : N) : N.land r maskx = r mod 64.
Proof. change maskx with (N.ones 6). by rewrite N.land_ones. Qed.

Lemma div_eq (a b q r : N) : a = b * q + r → r < b → a / b = q.
Proof. intros -> Hr. symmetry. by apply (N.div_unique _ b q r). Qed.

Lemma mod_eq (a b q r : N) : a = b * q + r → r < b → a mod b = r.
Proof. intros -> Hr. symmetry. by apply (N.mod_unique _ b q r). Qed.

(** The three shapes [DecodeRune] assembles, as sums. *)
Lemma rune2_sum (u v : N) : v < 64 → N.lor (N.shiftl u 6) v = u * 64 + v.
Proof. intros. rewrite N.shiftl_mul_pow2. by apply (lor_mul_pow2 u v 6). Qed.

Lemma rune3_sum (u v1 v2 : N) :
  v1 < 64 → v2 < 64 →
  N.lor (N.lor (N.shiftl u 12) (N.shiftl v1 6)) v2 = u * 4096 + v1 * 64 + v2.
Proof.
  intros. rewrite !N.shiftl_mul_pow2.
  rewrite (lor_mul_pow2 u (v1 * 2 ^ 6) 12) by (change (2 ^ 6) with 64; change (2 ^ 12) with 4096; lia).
  change (2 ^ 6) with 64; change (2 ^ 12) with 4096.
  replace (u * 4096 + v1 * 64) with ((u * 64 + v1) * 2 ^ 6) by (change (2 ^ 6) with 64; lia).
  rewrite lor_mul_pow2 by done. change (2 ^ 6) with 64. lia.
Qed.

Lemma rune4_sum (u v1 v2 v3 : N) :
  v1 < 64 → v2 < 64 → v3 < 64 →
  N.lor (N.lor (N.lor (N.shiftl u 18) (N.shiftl v1 12)) (N.shiftl v2 6)) v3
  = u * 262144 + v1 * 4096 + v2 * 64 + v3.
Proof.
  intros. rewrite !N.shiftl_mul_pow2.
  rewrite (lor_mul_pow2 u (v1 * 2 ^ 12) 18)
    by (change (2 ^ 12) with 4096; change (2 ^ 18) with 262144; lia).
  change (2 ^ 12) with 4096; change (2 ^ 18) with 262144.
  replace (u * 262144 + v1 * 4096) with ((u * 64 + v1) * 2 ^ 12)
    by (change (2 ^ 12) with 4096; lia).
  rewrite (lor_mul_pow2 _ (v2 * 2 ^ 6) 12)
    by (change (2 ^ 6) with 64; change (2 ^ 12) with 4096; lia).
  change (2 ^ 6) with 64; change (2 ^ 12) with 4096.
  replace ((u * 64 + v1) * 4096 + v2 * 64) with (((u * 64 + v1) * 64 + v2) * 2 ^ 6)
    by (change (2 ^ 6) with 64; lia).
  rewrite lor_mul_pow2 by done. change (2 ^ 6) with 64. lia.
Qed.

(** The marker bits of [AppendRune], as sums. *)
Lemma lor_tx (v : N) : v < 64 → N.lor tx v = 128 + v.
Proof. intros. change tx with (2 * 2 ^ 6). rewrite lor_mul_pow2 by done. reflexivity. Qed.

Lemma lor_t2 (u : N) : u < 32 → N.lor t2 u = 192 + u.
Proof.
  intros. change t2 with (3 * 2 ^ 6). rewrite lor_mul_pow2; [reflexivity|].
  change (2 ^ 6) with 64. lia.
Qed.

Lemma lor_t3 (u : N) : u < 16 → N.lor t3 u = 224 + u.
Proof. intros. change t3 with (14 * 2 ^ 4). rewrite lor_mul_pow2 by done. reflexivity. Qed.

Lemma lor_t4 (u : N) : u < 8 → N.lor t4 u = 240 + u.
Proof. intros. change t4 with (30 * 2 ^ 3). rewrite lor_mul_pow2 by done. reflexivity. Qed.

Lemma AppendRune_2 (u v : N) :
  2 ≤ u → u < 32 → v < 64 →
  AppendRune [] (u * 64 + v) = [byte_of (192 + u); byte_of (128 + v)].
Proof.
  intros. unfold AppendRune.
  destruct (N.leb_spec (u * 64 + v) rune1Max) as [Hle|_]; [unfold rune1Max in Hle; lia|].
  destruct (N.leb_spec (u * 64 + v) rune2Max) as [_|Hgt]; [|unfold rune2Max in Hgt; lia].
  rewrite N.shiftr_div_pow2, land_maskx. change (2 ^ 6) with 64.
  rewrite (div_eq _ 64 u v), (mod_eq _ 64 u v) by lia.
  by rewrite lor_t2, lor_tx.
Qed.

Lemma AppendRune_3 (u v1 v2 : N) :
  u < 16 → v1 < 64 → v2 < 64 →
  2048 ≤ u * 4096 + v1 * 64 + v2 →
  ¬ (55296 ≤ u * 4096 + v1 * 64 + v2 ≤ 57343) →
  AppendRune [] (u * 4096 + v1 * 64 + v2)
  = [byte_of (224 + u); byte_of (128 + v1); byte_of (128 + v2)].
Proof.
  intros. unfold AppendRune. set (r := u * 4096 + v1 * 64 + v2) in *.
  destruct (N.leb_spec r rune1Max) as [Hle|_]; [unfold rune1Max in Hle; lia|].
  destruct (N.leb_spec r rune2Max) as [Hle|_]; [unfold rune2Max in Hle; lia|].
  destruct (N.ltb_spec MaxRune r) as [Hlt|_]; [unfold MaxRune in Hlt; lia|].
  replace ((surrogateMin <=? r) && (r <=? surrogateMax)) with false; last first.
  { symmetry. apply andb_false_iff. unfold surrogateMin, surrogateMax.
    destruct (N.leb_spec 55296 r), (N.leb_spec r 57343); auto. lia. }
  cbn [orb]. destruct (N.leb_spec r rune3Max) as [_|Hgt]; [|unfold rune3Max in Hgt; lia].
  rewrite !N.shiftr_div_pow2, !land_maskx. change (2 ^ 6) with 64. change (2 ^ 12) with 4096.
  rewrite (div_eq r 4096 u (v1 * 64 + v2)) by lia.
  rewrite (div_eq r 64 (u * 64 + v1) v2) by lia.
  rewrite (mod_eq (u * 64 + v1) 64 u v1) by lia.
  rewrite (mod_eq r 64 (u * 64 + v1) v2) by lia.
  by rewrite lor_t3, !lor_tx.
Qed.

Lemma AppendRune_4 (u v1 v2 v3 : N) :
  u < 8 → v1 < 64 → v2 < 64 → v3 < 64 →
  65536 ≤ u * 262144 + v1 * 4096 + v2 * 64 + v3 ≤ 1114111 →
  AppendRune [] (u * 262144 + v1 * 4096 + v2 * 64 + v3)
  = [byte_of (240 + u); byte_of (128 + v1); byte_of (128 + v2); byte_of (128 + v3)].
Proof.
  intros. unfold AppendRune. set (r := u * 262144 + v1 * 4096 + v2 * 64 + v3) in *.
  destruct (N.leb_spec r rune1Max) as [Hle|_]; [unfold rune1Max in Hle; lia|].
  destruct (N.leb_spec r rune2Max) as [Hle|_]; [unfold rune2Max in Hle; lia|].
  destruct (N.ltb_spec MaxRune r) as [Hlt|_]; [unfold MaxRune in Hlt; lia|].
  destruct (N.leb_spec r surrogateMax) as [Hle|_]; [unfold surrogateMax in Hle; lia|].
  rewrite andb_false_r. cbn [orb].
  destruct (N.leb_spec r rune3Max) as [Hle|_]; [unfold rune3Max in Hle; lia|].
  rewrite !N.shiftr_div_pow2, !land_maskx.
  change (2 ^ 6) with 64. change (2 ^ 12) with 4096. change (2 ^ 18) with 262144.
  rewrite (div_eq r 262144 u (v1 * 4096 + v2 * 64 + v3)) by lia.
  rewrite (div_eq r 4096 (u * 64 + v1) (v2 * 64 + v3)) by lia.
  rewrite (div_eq r 64 ((u * 64 + v1) * 64 + v2) v3) by lia.
  rewrite (mod_eq (u * 64 + v1) 64 u v1) by lia.
  rewrite (mod_eq ((u * 64 + v1) * 64 + v2) 64 (u * 64 + v1) v2) by lia.
  rewrite (mod_eq r 64 ((u * 64 + v1) * 64 + v2) v3) by lia.
  by rewrite lor_t4, !lor_tx.
Qed.

End Utf8.

Section Utf8Decode.
Local Open Scope N_scope.
Import utf8.

Lemma cont_mask (c : ascii) : 128 ≤ code c → code c ≤ 191 → N.land (code c) maskx = code c - 128.
Proof.
  intros H1 H2.
  pose proof (ascii_forall (λ c, implb ((128 <=? code c) && (code c <=? 191))
                                       (N.land (code c) maskx =? code c - 128))
                ltac:(vm_compute; reflexivity) c) as H.
  cbv beta in H.
  apply N.leb_le in H1, H2. rewrite H1, H2 in H. by apply N.eqb_eq in H.
Qed.

Lemma lead2_mask (c : ascii) : 192 ≤ code c → code c ≤ 223 → N.land (code c) mask2 = code c - 192.
Proof.
  intros H1 H2.
  pose proof (ascii_forall (λ c, implb ((192 <=? code c) && (code c <=? 223))
                                       (N.land (code c) mask2 =? code c - 192))
                ltac:(vm_compute; reflexivity) c) as H.
  cbv beta in H.
  apply N.leb_le in H1, H2. rewrite H1, H2 in H. by apply N.eqb_eq in H.
Qed.

Lemma lead3_mask (c : ascii) : 224 ≤ code c → code c ≤ 239 → N.land (code c) mask3 = code c - 224.
Proof.
  intros H1 H2.
  pose proof (ascii_forall (λ c, implb ((224 <=? code c) && (code c <=? 239))
                                       (N.land (code c) mask3 =? code c - 224))
                ltac:(vm_compute; reflexivity) c) as H.
  cbv beta in H.
  apply N.leb_le in H1, H2. rewrite H1, H2 in H. by apply N.eqb_eq in H.
Qed.

Lemma lead4_mask (c : ascii) : 240 ≤ code c → code c ≤ 247 → N.land (code c) mask4 = code c - 240.
Proof.
  intros H1 H2.
  pose proof (ascii_forall (λ c, implb ((240 <=? code c) && (code c <=? 247))
                                       (N.land (code c) mask4 =? code c - 240))
                ltac:(vm_compute; reflexivity) c) as H.
  cbv beta in H.
  apply N.leb_le in H1, H2. rewrite H1, H2 in H. by apply N.eqb_eq in H.
Qed.

Lemma DecodeRune_ascii (c : ascii) (p : bytes) :
  code c < 128 → DecodeRune (c :: p) = (code c, 1%nat).
Proof.
  intros Hc. unfold DecodeRune, first.
  destruct (N.leb_spec (code c) 127) as [_|?]; [|lia]. reflexivity.
Qed.

Ltac first_class c0 :=
  unfold DecodeRune, first;
  repeat match goal with
  | |- context [N.leb (code c0) ?b] => destruct (N.leb_spec (code c0) b); try lia
  | |- context [N.eqb (code c0) ?b] => destruct (N.eqb_spec (code c0) b); try lia
  end;
  cbv [s1 s2 s3 s4 s5 s6 s7 xx as_ locb hicb];
  repeat match goal with
  | |- context [N.to_nat (N.land ?a 7)] =>
    let v := eval vm_compute in (N.to_nat (N.land a 7)) in
    change (N.to_nat (N.land a 7)) with v
  | |- context [acceptRanges (N.shiftr ?a 4)] =>
    let v := eval vm_compute in (acceptRanges (N.shiftr a 4)) in
    change (acceptRanges (N.shiftr a 4)) with v
  end.

Lemma Dec2 (c0 c1 : ascii) (tl : bytes) :
  194 ≤ code c0 ≤ 223 → 128 ≤ code c1 ≤ 191 →
  DecodeRune (c0 :: c1 :: tl) = ((code c0 - 192) * 64 + (code c1 - 128), 2%nat).
Proof.
  intros H0 H1. first_class c0. cbn.
  repeat match goal with
  | |- context [N.ltb ?a ?b] => destruct (N.ltb_spec a b) as [Hlt|_]; [lia|]
  end; cbn [orb]. rewrite lead2_mask, cont_mask by lia. rewrite rune2_sum by lia. done.
Qed.

Lemma Dec3 (c0 c1 c2 : ascii) (tl : bytes) :
  224 ≤ code c0 ≤ 239 → 128 ≤ code c1 ≤ 191 → 128 ≤ code c2 ≤ 191 →
  (code c0 = 224 → 160 ≤ code c1) → (code c0 = 237 → code c1 ≤ 159) →
  DecodeRune (c0 :: c1 :: c2 :: tl)
  = ((code c0 - 224) * 4096 + (code c1 - 128) * 64 + (code c2 - 128), 3%nat).
Proof.
  intros H0 H1 H2 HE0 HED. first_class c0; cbn.
  all: repeat match goal with
       | |- context [N.ltb ?a ?b] =>
         destruct (N.ltb_spec a b) as [Hlt|_]; [lia|]
       end; cbn [orb].
  all: rewrite lead3_mask, !cont_mask by lia; rewrite rune3_sum by lia; done.
Qed.

Lemma Dec4 (c0 c1 c2 c3 : ascii) (tl : bytes) :
  240 ≤ code c0 ≤ 244 → 128 ≤ code c1 ≤ 191 → 128 ≤ code c2 ≤ 191 → 128 ≤ code c3 ≤ 191 →
  (code c0 = 240 → 144 ≤ code c1) → (code c0 = 244 → code c1 ≤ 143) →
  DecodeRune (c0 :: c1 :: c2 :: c3 :: tl)
  = ((code c0 - 240) * 262144 + (code c1 - 128) * 4096 + (code c2 - 128) * 64
     + (code c3 - 128), 4%nat).
Proof.
  intros H0 H1 H2 H3 HF0 HF4. first_class c0; cbn.
  all: repeat match goal with
       | |- context [N.ltb ?a ?b] =>
         destruct (N.ltb_spec a b) as [Hlt|_]; [lia|]
       end; cbn [orb].
  all: rewrite lead4_mask, !cont_mask by lia; rewrite rune4_sum by lia; done.
Qed.

Lemma DecodeRune_classes (c0 : ascii) (rest : bytes) :
  128 ≤ code c0 →
  DecodeRune (c0 :: rest) = (RuneError, 1%nat)
  ∨ (∃ c1 tl, rest = c1 :: tl ∧ 194 ≤ code c0 ≤ 223 ∧ 128 ≤ code c1 ≤ 191)
  ∨ (∃ c1 c2 tl, rest = c1 :: c2 :: tl ∧ 224 ≤ code c0 ≤ 239
       ∧ 128 ≤ code c1 ≤ 191 ∧ 128 ≤ code c2 ≤ 191
       ∧ (code c0 = 224 → 160 ≤ code c1) ∧ (code c0 = 237 → code c1 ≤ 159))
  ∨ (∃ c1 c2 c3 tl, rest = c1 :: c2 :: c3 :: tl ∧ 240 ≤ code c0 ≤ 244
       ∧ 128 ≤ code c1 ≤ 191 ∧ 128 ≤ code c2 ≤ 191 ∧ 128 ≤ code c3 ≤ 191
       ∧ (code c0 = 240 → 144 ≤ code c1) ∧ (code c0 = 244 → code c1 ≤ 143)).
Proof.
  intros H0. first_class c0.
  all: destruct rest as [|c1 [|c2 [|c3 tl]]]; cbn.
  all: repeat match goal with
       | |- context [N.ltb ?a ?b] => destruct (N.ltb_spec a b)
       end; cbn [orb].
  all: try (left; reflexivity).
  all: right.
  all: first
    [ left; eexists _, _; split; [reflexivity|]; lia
    | right; left; eexists _, _, _; split; [reflexivity|]; lia
    | right; right; eexists _, _, _, _; split; [reflexivity|]; lia ].
Qed.

Lemma DecodeRune_multi (c0 : ascii) (rest : bytes) :
  128 ≤ code c0 →
  DecodeRune (c0 :: rest) = (RuneError, 1%nat)
  ∨ ∃ r size, DecodeRune (c0 :: rest) = (r, size) ∧ decoded (c0 :: rest) r size.
Proof.
  intros H0.
  destruct (DecodeRune_classes c0 rest H0)
    as [?|[(c1 & tl & -> & ? & ?)|[(c1 & c2 & tl & -> & ? & ? & ? & ? & ?)
        |(c1 & c2 & c3 & tl & -> & ? & ? & ? & ? & ? & ?)]]]; [by left|right..].
  - eexists _, _. split; [by apply Dec2|]. unfold decoded. cbn [take length].
    split_and!; [lia..| |intros X; by apply Dec2|repeat constructor; lia].
    rewrite AppendRune_2 by lia.
    replace (192 + (code c0 - 192)) with (code c0) by lia.
    replace (128 + (code c1 - 128)) with (code c1) by lia.
    by rewrite !byte_of_code.
  - eexists _, _. split; [by apply Dec3|]. unfold decoded. cbn [take length].
    split_and!; [lia..| |intros X; by apply Dec3|repeat constructor; lia].
    rewrite AppendRune_3 by lia.
    replace (224 + (code c0 - 224)) with (code c0) by lia.
    replace (128 + (code c1 - 128)) with (code c1) by lia.
    replace (128 + (code c2 - 128)) with (code c2) by lia.
    by rewrite !byte_of_code.
  - eexists _, _. split; [by apply Dec4|]. unfold decoded. cbn [take length].
    split_and!; [lia..| |intros X; by apply Dec4|repeat constructor; lia].
    rewrite AppendRune_4 by lia.
    replace (240 + (code c0 - 240)) with (code c0) by lia.
    replace (128 + (code c1 - 128)) with (code c1) by lia.
    replace (128 + (code c2 - 128)) with (code c2) by lia.
    replace (128 + (code c3 - 128)) with (code c3) by lia.
    by rewrite !byte_of_code.
Qed.

Lemma DecodeRune_take (p : bytes) : DecodeRune (take UTFMax p) = DecodeRune p.
Proof.
  destruct p as [|c0 [|c1 [|c2 [|c3 tl]]]]; try reflexivity.
  unfold UTFMax. cbn [take].
  destruct (N.lt_ge_cases (code c0) 128) as [Hlt|Hge].
  { by rewrite !DecodeRune_ascii. }
  first_class c0; cbn; reflexivity.
Qed.

End Utf8Decode.

Section JsonString.
Local Open Scope N_scope.
Import json.

Lemma AppendRune_ascii (b : ascii) : code b < 128 → utf8.AppendRune [] (code b) = [b].
Proof.
  intros Hb. unfold utf8.AppendRune.
  destruct (N.leb_spec (code b) utf8.rune1Max) as [_|Hgt]; [|unfold utf8.rune1Max in Hgt; lia].
  by rewrite byte_of_code.
Qed.

(** One step of [scan_string] on each kind of input. *)
Lemma scan_string_quote (f : nat) (rest : bytes) :
  scan_string (S f) (dq :: rest) = Some ([], rest).
Proof. reflexivity. Qed.

Lemma scan_string_letter (f : nat) (e d : ascii) (tail : bytes) :
  unescape_letter e = Some d →
  scan_string (S f) (bsl :: e :: tail)
  = '(t, rest) ← scan_string f tail; Some (d :: t, rest).
Proof. intros He. cbn [scan_string]. rewrite He. reflexivity. Qed.

Lemma scan_string_u4 (f : nat) (h1 h2 h3 h4 : ascii) (rr : N) (tail : bytes) :
  getu4 [bsl; "u"%char; h1; h2; h3; h4] = Some rr →
  utf16.IsSurrogate rr = false →
  scan_string (S f) (bsl :: "u"%char :: h1 :: h2 :: h3 :: h4 :: tail)
  = '(t, rest) ← scan_string f tail; Some (utf8.AppendRune [] rr ++ t, rest).
Proof.
  intros Hu Hs. cbn [scan_string].
  change (bool_decide (bsl = dq)) with false.
  change (bool_decide (bsl = bsl)) with true.
  change (unescape_letter "u") with (@None ascii).
  change (bool_decide ("u"%char = "u"%char)) with true.
  cbn [negb]. 
  change (getu4 (bsl :: "u"%char :: h1 :: h2 :: h3 :: h4 :: tail))
    with (getu4 [bsl; "u"%char; h1; h2; h3; h4]).
  rewrite Hu. cbn [mbind option_bind drop]. rewrite Hs. reflexivity.
Qed.

Lemma scan_string_plain (f : nat) (c : ascii) (tail : bytes) :
  safeSet (code c) = true →
  scan_string (S f) (c :: tail)
  = '(t, rest) ← scan_string f tail; Some (c :: t, rest).
Proof.
  intros Hc.
  assert (forallb
    (λ c : ascii, implb (safeSet (code c))
            (negb (bool_decide (c = dq)) && negb (bool_decide (c = bsl))
             && negb (code c <? 32) && (code c <? utf8.RuneSelf))) all_ascii = true) as Hall
    by (vm_compute; reflexivity).
  pose proof (ascii_forall _ Hall c) as H. clear Hall.
  cbv beta in H. rewrite Hc in H. cbn [implb] in H.
  apply andb_prop in H as [H H4]. apply andb_prop in H as [H H3].
  apply andb_prop in H as [H1 H2].
  apply negb_true_iff in H1, H2, H3.
  cbn [scan_string]. rewrite H1, H2, H3, H4. reflexivity.
Qed.

Lemma scan_string_rune (f : nat) (c : ascii) (tail : bytes) :
  128 ≤ code c →
  scan_string (S f) (c :: tail)
  = let '(rr, size) := utf8.DecodeRune (c :: tail) in
    '(t, rest) ← scan_string f (drop size (c :: tail));
    Some (utf8.AppendRune [] rr ++ t, rest).
Proof.
  intros Hc. cbn [scan_string].
  rewrite !bool_decide_eq_false_2; first last.
  { intros ->. vm_compute in Hc. done. }
  { intros ->. vm_compute in Hc. done. }
  destruct (N.ltb_spec (code c) 32); [lia|].
  destruct (N.ltb_spec (code c) utf8.RuneSelf) as [Hlt|_]; [unfold utf8.RuneSelf in Hlt; lia|].
  reflexivity.
Qed.

(** The escape of an ASCII byte outside the safe set decodes to it. *)
Lemma scan_string_escape_byte (f : nat) (b : ascii) (tail : bytes) :
  code b < 128 → htmlSafeSet (code b) = false →
  scan_string (S f) (escape_byte b ++ tail)
  = '(t, rest) ← scan_string f tail; Some (b :: t, rest).
Proof.
  intros Hb Hs.
  assert (forallb
    (λ b : ascii, implb ((code b <? 128) && negb (htmlSafeSet (code b)))
            match escape_byte b with
            | [x; e] => bool_decide (x = bsl) && bool_decide (unescape_letter e = Some b)
            | [x; u; h1; h2; h3; h4] =>
              bool_decide (x = bsl) && bool_decide (u = "u"%char)
              && bool_decide (getu4 [x; u; h1; h2; h3; h4] = Some (code b))
              && negb (utf16.IsSurrogate (code b))
            | _ => false
            end) all_ascii = true) as Hall
    by (vm_compute; reflexivity).
  pose proof (ascii_forall _ Hall b) as H. clear Hall.
  cbv beta in H. apply N.ltb_lt in Hb. rewrite Hb, Hs in H. cbn [andb negb implb] in H.
  destruct (escape_byte b) as [|x [|e [|h1 [|h2 [|h3 [|h4 [|? ?]]]]]]]; try done.
  - apply andb_prop in H as [H1 H2].
    apply bool_decide_eq_true in H1 as ->. apply bool_decide_eq_true in H2.
    by apply scan_string_letter.
  - apply andb_prop in H as [H H4]. apply andb_prop in H as [H H3].
    apply andb_prop in H as [H1 H2].
    apply bool_decide_eq_true in H1 as ->. apply bool_decide_eq_true in H2 as ->.
    apply bool_decide_eq_true in H3. apply negb_true_iff in H4.
    cbn [app]. rewrite (scan_string_u4 _ _ _ _ _ _ _ H3 H4).
    rewrite AppendRune_ascii by by apply N.ltb_lt. reflexivity.
Qed.

Lemma escape_byte_length (b : ascii) : (2 ≤ length (escape_byte b))%nat.
Proof.
  unfold escape_byte.
  repeat match goal with |- context [if ?c then _ else _] => destruct c end;
    cbn; lia.
Qed.

Lemma htmlSafeSet_safeSet (n : N) : htmlSafeSet n = true → safeSet n = true.
Proof.
  unfold htmlSafeSet. intros H.
  apply andb_prop in H as [H _]. apply andb_prop in H as [H _].
  by apply andb_prop in H as [H _].
Qed.

(** Scanning the body [appendString] wrote gives back the text, coerced
    to valid UTF-8, and stops after the closing quote. *)
Lemma scan_appendString_loop (n : nat) :
  ∀ (s : bytes) (esc : bool) (rest : bytes) (f : nat),
  (length s ≤ n)%nat →
  (length (appendString_loop n s esc) < f)%nat →
  scan_string f (appendString_loop n s esc ++ dq :: rest) = Some (coerce_loop n s, rest).
Proof.
  induction n as [|n IH]; intros s esc rest f Hn Hf.
  { destruct f; [cbn in Hf; lia|]. reflexivity. }
  destruct s as [|b s].
  { destruct f; [cbn in Hf; lia|]. reflexivity. }
  destruct f as [|f]; [lia|].
  cbn [appendString_loop coerce_loop] in *. cbn [length] in Hn.
  destruct (N.ltb_spec (code b) utf8.RuneSelf) as [Hb|Hb]; unfold utf8.RuneSelf in Hb.
  - destruct (htmlSafeSet (code b) || negb esc && safeSet (code b)) eqn:Hsafe.
    + assert (safeSet (code b) = true) as Hs.
      { apply orb_prop in Hsafe as [H|H]; [by apply htmlSafeSet_safeSet|].
        by apply andb_prop in H as [_ H]. }
      cbn [app]. rewrite scan_string_plain by done.
      rewrite IH; [done|lia|]. cbn [length] in Hf. lia.
    + apply orb_false_elim in Hsafe as [Hh _].
      rewrite <- app_assoc. rewrite scan_string_escape_byte by done.
      rewrite length_app in Hf. pose proof (escape_byte_length b).
      rewrite IH; [done|lia|lia].
  - rewrite DecodeRune_take in Hf |- *.
    destruct (DecodeRune_multi b s Hb) as [Herr|(r & size & Hdec & Hsz & Hlen & Henc & Hpre & Hhigh)].
    + rewrite Herr in Hf |- *.
      change ((utf8.RuneError =? utf8.RuneError) && (1 =? 1)%nat) with true in *.
      cbn iota in Hf |- *. cbn [drop] in Hf |- *. rewrite drop_0 in Hf |- *.
      change (bsl :: bs "ufffd" ++ ?x)
        with (bsl :: "u"%char :: "f"%char :: "f"%char :: "f"%char :: "d"%char :: x) in *.
      cbn [app].
      rewrite (scan_string_u4 _ _ _ _ _ utf8.RuneError) by reflexivity.
      cbn [length] in Hf.
      rewrite IH; [done|lia|lia].
    + rewrite Hdec in Hf |- *.
      replace ((r =? utf8.RuneError) && (size =? 1)%nat) with false in Hf |- *; last first.
      { symmetry. apply andb_false_iff. right. apply Nat.eqb_neq. lia. }
      assert (length (drop size (b :: s)) ≤ n)%nat as Hdrop.
      { rewrite length_drop. cbn [length]. lia. }
      destruct ((r =? 8232) || (r =? 8233)) eqn:Hsep; cbn iota in Hf |- *.
      * assert (getu4 (bs "\u202" ++ [hexdigit (N.land r 15)]) = Some r
                ∧ utf16.IsSurrogate r = false) as [Hu Hsur].
        { apply orb_prop in Hsep as [H|H]; apply N.eqb_eq in H; subst r; by vm_compute. }
        change (bs "\u202" ++ [hexdigit (N.land r 15)] ++ ?x)
          with (bsl :: "u"%char :: "2"%char :: "0"%char :: "2"%char :: hexdigit (N.land r 15) :: x) in *.
        cbn [app]. rewrite (scan_string_u4 _ _ _ _ _ r) by done.
        cbn [length] in Hf.
        rewrite IH; [|lia|lia]. cbn. by rewrite Henc.
      * rewrite <- app_assoc.
        assert (∃ tk, take size (b :: s) = b :: tk) as [tk Htk].
        { destruct size; [lia|]. by eexists. }
        rewrite Htk at 1. cbn [app]. rewrite scan_string_rune by done.
        change (b :: tk ++ ?x) with ((b :: tk) ++ x). rewrite <- Htk.
        rewrite Hpre.
        rewrite drop_app_length'; last by (rewrite length_take; lia).
        rewrite length_app, length_take in Hf.
        rewrite IH; [|lia|lia]. cbn. by rewrite Henc.
Qed.

Lemma scan_string_lit_appendString (s : bytes) (esc : bool) (rest : bytes) :
  scan_string_lit (appendString_loop (length s) s esc ++ dq :: rest) = Some (coerce s, rest).
Proof.
  unfold scan_string_lit, coerce. apply scan_appendString_loop; [done|].
  rewrite length_app. cbn [length]. lia.
Qed.

End JsonString.

Section JsonValid.
Local Open Scope N_scope.
Import json.

(** Valid UTF-8 is left as it is by the coercion. *)
Lemma coerce_loop_valid (n : nat) :
  ∀ s : bytes, (length s ≤ n)%nat → utf8.valid_loop n s = true → coerce_loop n s = s.
Proof.
  induction n as [|n IH]; intros s Hn Hv.
  { destruct s; [done|cbn in Hn; lia]. }
  destruct s as [|b s]; [done|].
  cbn [utf8.valid_loop coerce_loop] in *. cbn [length] in Hn.
  destruct (N.ltb_spec (code b) utf8.RuneSelf) as [Hb|Hb]; unfold utf8.RuneSelf in Hb.
  - rewrite DecodeRune_ascii in Hv by done.
    replace ((code b =? utf8.RuneError) && (1 =? 1)%nat) with false in Hv; last first.
    { symmetry. apply andb_false_iff. left. apply N.eqb_neq. unfold utf8.RuneError. lia. }
    cbn [drop] in Hv. rewrite drop_0 in Hv. rewrite IH; [done|lia|done].
  - destruct (DecodeRune_multi b s Hb) as [Herr|(r & size & Hdec & Hsz & Hlen & Henc & Hpre & Hhigh)].
    + rewrite Herr in Hv. done.
    + rewrite Hdec in Hv |- *.
      replace ((r =? utf8.RuneError) && (size =? 1)%nat) with false in Hv |- *; last first.
      { symmetry. apply andb_false_iff. right. apply Nat.eqb_neq. lia. }
      rewrite IH; [apply take_drop| |done].
      rewrite length_drop. cbn [length]. lia.
Qed.

Lemma coerce_valid (s : bytes) : utf8.Valid s = true → coerce s = s.
Proof. intros H. by apply coerce_loop_valid. Qed.

Lemma valid_loop_ascii (n : nat) :
  ∀ s : bytes, (length s ≤ n)%nat → Forall (λ c, code c < 128) s → utf8.valid_loop n s = true.
Proof.
  induction n as [|n IH]; intros s Hn Hs.
  { destruct s; [done|cbn in Hn; lia]. }
  destruct Hs as [|b s Hb Hs]; [done|].
  cbn [utf8.valid_loop]. cbn [length] in Hn. rewrite DecodeRune_ascii by done.
  replace ((code b =? utf8.RuneError) && (1 =? 1)%nat) with false; last first.
  { symmetry. apply andb_false_iff. left. apply N.eqb_neq. unfold utf8.RuneError. lia. }
  cbn [drop]. rewrite drop_0. apply IH; [lia|done].
Qed.

Lemma Valid_ascii (s : bytes) : Forall (λ c, code c < 128) s → utf8.Valid s = true.
Proof. intros H. by apply valid_loop_ascii. Qed.

(** Text made of safe bytes is written between the quotes as it is. *)
Lemma appendString_loop_safe (n : nat) (esc : bool) :
  ∀ s : bytes, (length s ≤ n)%nat → Forall (λ c, htmlSafeSet (code c) = true) s →
  appendString_loop n s esc = s.
Proof.
  induction n as [|n IH]; intros s Hn Hs.
  { destruct s; [done|cbn in Hn; lia]. }
  destruct Hs as [|b s Hb Hs]; [done|].
  cbn [appendString_loop]. cbn [length] in Hn.
  assert ((code b <? utf8.RuneSelf) = true) as ->.
  { unfold htmlSafeSet, safeSet in Hb.
    repeat (apply andb_prop in Hb as [Hb ?]). done. }
  rewrite Hb. cbn [orb]. rewrite IH; [done|lia|done].
Qed.

Lemma safe_code_lt (c : ascii) : htmlSafeSet (code c) = true → code c < 128.
Proof.
  unfold htmlSafeSet, safeSet. intros Hb.
  repeat (apply andb_prop in Hb as [Hb ?]). by apply N.ltb_lt.
Qed.

Lemma appendString_safe (s : bytes) (esc : bool) :
  Forall (λ c, htmlSafeSet (code c) = true) s → appendString [] s esc = q s.
Proof. intros Hs. unfold appendString, q. by rewrite appendString_loop_safe. Qed.

Lemma Valid_safe (s : bytes) :
  Forall (λ c, htmlSafeSet (code c) = true) s → utf8.Valid s = true.
Proof.
  intros Hs. apply Valid_ascii. eapply Forall_impl; [done|]. apply safe_code_lt.
Qed.

(** The digits and the sign [Itoa] writes are safe bytes. *)
Lemma string_of_uint_safe (d : Decimal.uint) :
  Forall (λ c, htmlSafeSet (code c) = true) (bs (NilEmpty.string_of_uint d)).
Proof. induction d; cbn; constructor; done. Qed.

Lemma Itoa_safe (i : Z) : Forall (λ c, htmlSafeSet (code c) = true) (strconv.Itoa i).
Proof.
  unfold strconv.Itoa, NilZero.string_of_int.
  destruct (Z.to_int i) as [d|d]; unfold NilZero.string_of_uint.
  - destruct d; try apply string_of_uint_safe. by repeat constructor.
  - cbn. constructor; [done|]. destruct d; try apply string_of_uint_safe. by repeat constructor.
Qed.

Lemma FormatBool_safe (b : bool) :
  Forall (λ c, htmlSafeSet (code c) = true) (strconv.FormatBool b).
Proof. destruct b; by repeat constructor. Qed.

End JsonValid.

Section JsonParse.
Import json.

Lemma appendString_cons (s : bytes) (esc : bool) (rest : bytes) :
  appendString [] s esc ++ rest = dq :: appendString_loop (length s) s esc ++ dq :: rest.
Proof. unfold appendString. cbn [app]. by rewrite <- app_assoc. Qed.

Lemma parse_value_string (f : nat) (d : N) (s : bytes) (esc : bool) (rest : bytes) :
  parse_value (S f) d (appendString [] s esc ++ rest) = Some (String (coerce s), rest).
Proof.
  rewrite appendString_cons. cbn [parse_value].
  change (bool_decide (dq = dq)) with true. cbn iota.
  by rewrite scan_string_lit_appendString.
Qed.

Lemma parse_string (s : bytes) (esc : bool) :
  parse (appendString [] s esc) = Some (String (coerce s)).
Proof.
  unfold parse. rewrite <- (app_nil_r (appendString [] s esc)).
  rewrite appendString_cons. cbn [skip_ws]. change (isSpace dq) with false. cbn iota.
  rewrite <- appendString_cons, app_nil_r.
  rewrite <- (app_nil_r (appendString [] s esc)) at 2.
  by rewrite parse_value_string.
Qed.

(** *** Arrays of strings *)

Lemma arrayEncoder_cons {A} (enc : A → bytes) (i : nat) (x : A) (l : list A) :
  arrayEncoder enc (S i) (x :: l) = bs "," ++ enc x ++ arrayEncoder enc (S (S i)) l.
Proof. reflexivity. Qed.

Lemma parse_elems_comma (f : nat) (d : N) (s : bytes) :
  parse_elems (S f) d (","%char :: s)
  = '(v, r1) ← parse_value f d (skip_ws s);
    '(vs, r2) ← parse_elems f d (skip_ws r1);
    Some (v :: vs, r2).
Proof. reflexivity. Qed.

Lemma skip_ws_dq (s : bytes) : skip_ws (dq :: s) = dq :: s.
Proof. reflexivity. Qed.

Lemma parse_elems_strings (l : list bytes) :
  ∀ (f : nat) (d : N) (i : nat) (rest : bytes),
  (length l + 1 < f)%nat →
  parse_elems f d
    (arrayEncoder (λ x, stringEncoder x false) (S i) l ++ "]"%char :: rest)
  = Some (String ∘ coerce <$> l, rest).
Proof.
  induction l as [|x l IH]; intros f d i rest Hf.
  { destruct f; [lia|]. reflexivity. }
  destruct f as [|[|f]]; [cbn in Hf; lia..|].
  rewrite arrayEncoder_cons. unfold stringEncoder at 1.
  cbn [app bs list_ascii_of_string]. rewrite parse_elems_comma.
  rewrite <- app_assoc, appendString_cons, skip_ws_dq.
  rewrite <- appendString_cons, parse_value_string. cbn [mbind option_bind].
  assert (∀ j, skip_ws (arrayEncoder (λ x, stringEncoder x false) (S j) l ++ "]"%char :: rest)
               = arrayEncoder (λ x, stringEncoder x false) (S j) l ++ "]"%char :: rest) as ->.
  { intros j. destruct l; reflexivity. }
  rewrite IH; [done|]. cbn [length] in Hf. lia.
Qed.

Lemma arrayEncoder_length (l : list bytes) (i : nat) :
  (length l ≤ length (arrayEncoder (λ x, stringEncoder x false) i l))%nat.
Proof.
  revert i. induction l as [|x l IH]; intros i; [done|].
  cbn [arrayEncoder length]. rewrite !length_app. specialize (IH (S i)).
  unfold stringEncoder at 1, appendString. cbn [app length]. lia.
Qed.

Lemma parse_value_array (f : nat) (d : N) (s : bytes) :
  (N.succ d ≤ maxNestingDepth)%N →
  parse_value (S f) d ("["%char :: dq :: s)
  = '(v, r1) ← parse_value f (N.succ d) (dq :: s);
    '(vs, r2) ← parse_elems f (N.succ d) (skip_ws r1);
    Some (Array (v :: vs), r2).
Proof.
  intros Hd. cbn [parse_value].
  change (bool_decide ("["%char = dq)) with false.
  change (bool_decide ("["%char = "["%char)) with true. cbn iota.
  destruct (N.ltb_spec maxNestingDepth (N.succ d)) as [?|_]; [lia|].
  rewrite skip_ws_dq. change (bool_decide (dq = "]"%char)) with false. reflexivity.
Qed.

Lemma parse_strings (l : list bytes) :
  parse (sliceEncoder (Slice l)) = Some (Array (String ∘ coerce <$> l)).
Proof.
  destruct l as [|x l]; [reflexivity|].
  unfold parse, sliceEncoder.
  pose proof (arrayEncoder_length (x :: l) 0) as Hlen.
  set (body := arrayEncoder (λ x, stringEncoder x false) 0 (x :: l)) in *.
  assert (length (x :: l) + 2 ≤ length (bs "[" ++ body ++ bs "]")) as Hf.
  { rewrite !length_app. cbn [bs list_ascii_of_string length]. cbn [length] in Hlen. lia. }
  revert Hf. generalize (length (bs "[" ++ body ++ bs "]")). intros f Hf.
  subst body. cbn [arrayEncoder]. change (0 <? 0) with false. cbn iota.
  unfold stringEncoder at 1. cbn [bs list_ascii_of_string app skip_ws].
  change (isSpace "[") with false. cbn iota.
  rewrite <- app_assoc, appendString_cons.
  rewrite parse_value_array by done. rewrite <- appendString_cons.
  destruct f as [|f]; [cbn [length] in Hf; lia|].
  rewrite parse_value_string. cbn [mbind option_bind].
  assert (skip_ws (arrayEncoder (λ x, stringEncoder x false) 1 l ++ ["]"%char])
          = arrayEncoder (λ x, stringEncoder x false) 1 l ++ ["]"%char]) as ->.
  { destruct l; reflexivity. }
  rewrite parse_elems_strings; [done|]. cbn [length] in Hf. lia.
Qed.

End JsonParse.

Section JsonObject.
Import json.

(** *** Objects with string members *)

Lemma parse_member_string (f : nat) (d : N) (k v : bytes) (rest : bytes) :
  parse_member (S (S f)) d (appendString [] k true ++ bs ":" ++ appendString [] v true ++ rest)
  = Some ((coerce k, String (coerce v)), rest).
Proof.
  rewrite appendString_cons. cbn [parse_member].
  change (bool_decide (dq = dq)) with true. cbn iota.
  rewrite scan_string_lit_appendString. cbn [mbind option_bind bs list_ascii_of_string app skip_ws].
  change (isSpace ":") with false. cbn iota.
  change (bool_decide (":"%char = ":"%char)) with true. cbn iota.
  rewrite appendString_cons, skip_ws_dq, <- appendString_cons.
  by rewrite parse_value_string.
Qed.

Lemma parse_members_comma (f : nat) (d : N) (s : bytes) :
  parse_members (S f) d (","%char :: s)
  = '(m, r1) ← parse_member f d (skip_ws s);
    '(ms, r2) ← parse_members f d (skip_ws r1);
    Some (m :: ms, r2).
Proof. reflexivity. Qed.

Lemma skip_ws_objectMembers (ms : list (bytes * bytes)) (rest : bytes) :
  skip_ws (objectMembers ","%char ms ++ "}"%char :: rest)
  = objectMembers ","%char ms ++ "}"%char :: rest.
Proof. destruct ms as [|[k v] ms]; reflexivity. Qed.

Lemma parse_members_objectMembers (ms : list (bytes * bytes)) :
  ∀ (f : nat) (d : N) (rest : bytes),
  length ms + 2 < f →
  parse_members f d (objectMembers ","%char ms ++ "}"%char :: rest)
  = Some ((λ kv, (coerce kv.1, String (coerce kv.2))) <$> ms, rest).
Proof.
  induction ms as [|[k v] ms IH]; intros f d rest Hf.
  { destruct f; [lia|]. reflexivity. }
  destruct f as [|[|[|f]]]; [cbn in Hf; lia..|].
  cbn [objectMembers app]. rewrite parse_members_comma.
  rewrite <- !app_assoc.
  rewrite appendString_cons, skip_ws_dq, <- appendString_cons.
  rewrite parse_member_string. cbn [mbind option_bind].
  rewrite skip_ws_objectMembers, IH; [done|]. cbn [length] in Hf. lia.
Qed.

Lemma parse_value_object (f : nat) (d : N) (s : bytes) :
  (N.succ d ≤ maxNestingDepth)%N →
  parse_value (S f) d ("{"%char :: dq :: s)
  = '(m, r1) ← parse_member f (N.succ d) (dq :: s);
    '(ms, r2) ← parse_members f (N.succ d) (skip_ws r1);
    Some (Object (m :: ms), r2).
Proof.
  intros Hd. cbn [parse_value].
  change (bool_decide ("{"%char = dq)) with false.
  change (bool_decide ("{"%char = "["%char)) with false.
  change (bool_decide ("{"%char = "{"%char)) with true. cbn iota.
  destruct (N.ltb_spec maxNestingDepth (N.succ d)) as [?|_]; [lia|].
  rewrite skip_ws_dq. change (bool_decide (dq = "}"%char)) with false. reflexivity.
Qed.

Lemma objectMembers_length (ms : list (bytes * bytes)) (next : ascii) :
  length ms ≤ length (objectMembers next ms).
Proof.
  revert next. induction ms as [|[k v] ms IH]; intros next; [done|].
  cbn [objectMembers length app]. rewrite !length_app. specialize (IH ","%char). lia.
Qed.

Lemma parse_objectMembers (k v : bytes) (ms : list (bytes * bytes)) :
  parse (objectMembers "{"%char ((k, v) :: ms) ++ bs "}")
  = Some (Object ((λ kv, (coerce kv.1, String (coerce kv.2))) <$> (k, v) :: ms)).
Proof.
  unfold parse.
  pose proof (objectMembers_length ms ","%char) as Hlen.
  assert (length ms + 4 ≤ length (objectMembers "{"%char ((k, v) :: ms) ++ bs "}")) as Hf.
  { cbn [objectMembers]. rewrite !length_app. unfold appendString. rewrite !length_app.
    cbn [bs list_ascii_of_string length]. lia. }
  revert Hf. generalize (length (objectMembers "{"%char ((k, v) :: ms) ++ bs "}")).
  intros f Hf. cbn [objectMembers app skip_ws].
  change (isSpace "{") with false. cbn iota.
  rewrite <- !app_assoc.
  rewrite appendString_cons, parse_value_object, <- appendString_cons by done.
  destruct f as [|[|f]]; [lia..|].
  rewrite parse_member_string. cbn [mbind option_bind bs list_ascii_of_string app].
  rewrite skip_ws_objectMembers, parse_members_objectMembers; [done|lia].
Qed.

(** *** The struct encoder on fields that follow the convention *)

Lemma fieldEncoder_entry (f : field) (name : bytes) (omitEmpty quoted : bool) :
  conventional f = true →
  ftag f = Tag name omitEmpty quoted →
  omitEmpty = true ∧ utf8.Valid name = true ∧
  match entry f with
  | Some (k, v) =>
    k = name ∧ isEmptyValue (fvalue f) = false
    ∧ fieldEncoder (fvalue f) quoted = appendString [] v true
  | None => isEmptyValue (fvalue f) = true
  end.
Proof.
  unfold conventional, entry. intros Hc Ht. rewrite Ht in *.
  destruct omitEmpty; [|done].
  destruct quoted, (fvalue f) as [[s|]|[b|]|[i|]|p|p]; try done.
  all: split_and!; try done.
  - unfold fieldEncoder, boolEncoder, mayAppendQuote.
    by rewrite appendString_safe by apply FormatBool_safe.
  - unfold fieldEncoder, intEncoder, mayAppendQuote.
    by rewrite appendString_safe by apply Itoa_safe.
Qed.

End JsonObject.

Section Projection.
Import json.

(** Assigning a list of entries in order, as a union. *)
Lemma foldl_insert_union (l : list (bytes * bytes)) (m : gmap bytes bytes) :
  foldl (λ (m : gmap bytes bytes) kv, <[kv.1 := kv.2]> m) m l = list_to_map (reverse l) ∪ m.
Proof.
  revert m. induction l as [|[k v] l IH]; intros m.
  { cbn. by rewrite (left_id_L ∅ (∪)). }
  cbn [foldl]. rewrite IH, reverse_cons, list_to_map_app. cbn [list_to_map fst snd].
  rewrite <- (assoc_L (∪)). f_equal.
  change (list_to_map [(k, v)]) with (<[k := v]> (∅ : gmap bytes bytes)).
  by rewrite insert_empty, <- insert_union_singleton_l.
Qed.

Lemma foldl_insert_lookup (l : list (bytes * bytes)) (k v : bytes) :
  NoDup l.*1 → (k, v) ∈ l → foldl (λ (m : gmap bytes bytes) kv, <[kv.1 := kv.2]> m) ∅ l !! k = Some v.
Proof.
  intros Hnd Hin. rewrite foldl_insert_union, (right_id_L ∅ (∪)).
  apply elem_of_list_to_map; [|by apply elem_of_reverse].
  by rewrite fmap_reverse, reverse_Permutation.
Qed.

Lemma foldl_insert_lookup_None (l : list (bytes * bytes)) (k : bytes) :
  k ∉ l.*1 → foldl (λ (m : gmap bytes bytes) kv, <[kv.1 := kv.2]> m) ∅ l !! k = None.
Proof.
  intros Hin. rewrite foldl_insert_union, (right_id_L ∅ (∪)).
  apply not_elem_of_list_to_map. by rewrite fmap_reverse, elem_of_reverse.
Qed.

Lemma foldl_insert_size (l : list (bytes * bytes)) :
  NoDup l.*1 → size (foldl (λ (m : gmap bytes bytes) kv, <[kv.1 := kv.2]> m) ∅ l) = length l.
Proof.
  intros Hnd. rewrite foldl_insert_union, (right_id_L ∅ (∪)).
  rewrite map_size_list_to_map; [by rewrite length_reverse|].
  by rewrite fmap_reverse, reverse_Permutation.
Qed.

Lemma foldl_insert_lookup_base (l : list (bytes * bytes)) (m : gmap bytes bytes) (k : bytes) :
  k ∉ l.*1 → foldl (λ (m : gmap bytes bytes) kv, <[kv.1 := kv.2]> m) m l !! k = m !! k.
Proof.
  intros Hin. rewrite foldl_insert_union. apply lookup_union_r.
  apply not_elem_of_list_to_map. by rewrite fmap_reverse, elem_of_reverse.
Qed.

Lemma foldl_insert_lookup_in (l : list (bytes * bytes)) (m : gmap bytes bytes) (k v : bytes) :
  NoDup l.*1 → (k, v) ∈ l →
  foldl (λ (m : gmap bytes bytes) kv, <[kv.1 := kv.2]> m) m l !! k = Some v.
Proof.
  intros Hnd Hin. rewrite foldl_insert_union. apply lookup_union_Some_l.
  apply elem_of_list_to_map; [|by apply elem_of_reverse].
  by rewrite fmap_reverse, reverse_Permutation.
Qed.

(** The struct encoder writes the projection of a struct whose fields
    follow the convention. *)
Lemma structEncoder_loop_project (fs : struct) (next : ascii) :
  Forall (λ f, conventional f = true) fs →
  structEncoder_loop next fs
  = (if project fs is [] then next else ","%char, objectMembers next (project fs)).
Proof.
  intros Hfs. revert next. induction Hfs as [|f fs Hf Hfs IH]; intros next; [done|].
  cbn [structEncoder_loop]. unfold project in *. cbn [omap list_omap].
  destruct (ftag f) as [|name omitEmpty quoted] eqn:Ht.
  { replace (entry f) with (@None (bytes * bytes)) by (unfold entry; by rewrite Ht).
    apply IH. }
  destruct (fieldEncoder_entry f name omitEmpty quoted Hf Ht) as (-> & Hname & He).
  destruct (entry f) as [[k v]|].
  - destruct He as (-> & -> & ->). cbn [andb]. rewrite IH. cbn [objectMembers].
    by destruct (omap entry fs).
  - rewrite He. cbn [andb]. apply IH.
Qed.

Lemma structEncoder_project (fs : struct) :
  Forall (λ f, conventional f = true) fs →
  structEncoder fs
  = match project fs with
    | [] => bs "{}"
    | ms => objectMembers "{"%char ms ++ bs "}"
    end.
Proof.
  intros Hfs. unfold structEncoder. rewrite structEncoder_loop_project by done.
  by destruct (project fs).
Qed.

Lemma saved_error_strings (l : list (bytes * bytes)) (g : bytes * bytes → bytes * value) :
  (∀ kv, ∃ s, (g kv).2 = String s) →
  saved_error ((λ kv, (string_elem kv.2).2) <$> (g <$> l)) = None.
Proof.
  intros Hg. unfold saved_error.
  replace (existsb id _) with false; [done|].
  symmetry. induction l as [|kv l IH]; [done|].
  cbn. destruct (Hg kv) as [s ->]. cbn. done.
Qed.

Lemma Unmarshal_map_struct (fs : struct) :
  Forall (λ f, conventional f = true) fs →
  Unmarshal_map (structEncoder fs) ∅
  = (foldl (λ (m : gmap bytes bytes) kv, <[kv.1 := kv.2]> m) ∅ (prod_map coerce coerce <$> project fs), None).
Proof.
  intros Hfs. rewrite structEncoder_project by done. unfold Unmarshal_map.
  destruct (project fs) as [|[k v] ms]; [reflexivity|].
  rewrite parse_objectMembers. f_equal.
  - generalize ((k, v) :: ms). intros l. generalize (∅ : gmap bytes bytes).
    induction l as [|[k' v'] l IH]; intros m; [done|]. cbn. apply IH.
  - apply (saved_error_strings _ (λ kv, (coerce kv.1, String (coerce kv.2)))).
    intros kv. by eexists.
Qed.

Lemma GetQueryParams_struct (fs : struct) :
  Forall (λ f, conventional f = true) fs →
  GetQueryParams fs
  = inr (foldl (λ (m : gmap bytes bytes) kv, <[kv.1 := kv.2]> m) ∅ (prod_map coerce coerce <$> project fs)).
Proof.
  intros Hfs. unfold GetQueryParams, Marshal, Marshal_struct.
  by rewrite Unmarshal_map_struct.
Qed.

(** The keys of the projection are keys of the struct, in its order. *)
Lemma project_keys_sublist (fs : struct) : (project fs).*1 `sublist_of` keys fs.
Proof.
  unfold project, keys. induction fs as [|f fs IH]; [done|].
  cbn [omap list_omap]. unfold entry at 1.
  destruct (ftag f) as [|name o q']; [done|].
  destruct (fvalue f) as [[?|]|[?|]|[?|]|?|?]; cbn [fmap list_fmap fst];
    (by apply sublist_skip) || (by apply sublist_cons).
Qed.

Lemma project_keys_valid (fs : struct) :
  Forall (λ f, conventional f = true) fs →
  Forall (λ kv, utf8.Valid kv.1 = true) (project fs).
Proof.
  intros Hfs. unfold project. induction Hfs as [|f fs Hf Hfs IH]; [done|].
  cbn [omap list_omap]. destruct (entry f) as [[k v]|] eqn:He; [|done].
  constructor; [|done]. cbn. unfold conventional, entry in *.
  destruct (ftag f) as [|name [] []], (fvalue f) as [[?|]|[?|]|[?|]|?|?];
    simplify_eq; done.
Qed.

Lemma project_coerce_keys (fs : struct) :
  Forall (λ f, conventional f = true) fs →
  (prod_map coerce coerce <$> project fs).*1 = (project fs).*1.
Proof.
  intros Hfs. pose proof (project_keys_valid fs Hfs) as Hv.
  induction Hv as [|[k v] l Hk _ IH]; [done|].
  cbn. rewrite IH. f_equal. by apply coerce_valid.
Qed.

(** The mapping [GetQueryParams] returns for a struct that follows the
    convention, entry by entry. *)
Lemma GetQueryParams_entries (fs : struct) :
  Forall (λ f, conventional f = true) fs → NoDup (keys fs) →
  ∃ m, GetQueryParams fs = inr m
    ∧ (∀ k v, (k, v) ∈ project fs → m !! k = Some (coerce v))
    ∧ (∀ k, k ∉ (project fs).*1 → m !! k = None)
    ∧ size m = length (project fs).
Proof.
  intros Hfs Hnd. eexists. split; [by apply GetQueryParams_struct|].
  assert (NoDup (prod_map coerce coerce <$> project fs).*1) as Hnd'.
  { rewrite project_coerce_keys by done.
    eapply sublist_NoDup; [done|apply project_keys_sublist]. }
  split_and!.
  - intros k v Hin. apply foldl_insert_lookup; [done|].
    replace k with (coerce k).
    + by apply (list_elem_of_fmap_2 (prod_map coerce coerce) _ (k, v)).
    + apply coerce_valid.
      pose proof (project_keys_valid fs Hfs) as Hv. rewrite Forall_forall in Hv.
      by apply (Hv (k, v)).
  - intros k Hk. apply foldl_insert_lookup_None. by rewrite project_coerce_keys.
  - rewrite foldl_insert_size by done. by rewrite length_fmap.
Qed.

End Projection.

Section ToConfig.
Import PolicyRepresentation.

(** The loops that fill a slice made by [make]: entry [i] is the text of
    element [i], or the empty string [make] put there. *)
Lemma range_loop_fill {A B} (h : A → option B) (t : B → A → bytes) (xs : list A) :
  ∀ (k : nat) (filled : list bytes),
  length filled = k →
  range_loop (λ i x out, match h x with
                         | Some a => <[i := t a x]> out
                         | None => out
                         end)
             k xs (filled ++ make (length xs))
  = filled ++ ((λ x, match h x with Some a => t a x | None => [] end) <$> xs).
Proof.
  induction xs as [|x xs IH]; intros k filled Hk; [done|].
  cbn [range_loop length make replicate fmap list_fmap].
  replace (match h x with
           | Some a => <[k := t a x]> (filled ++ [] :: replicate (length xs) [])
           | None => filled ++ [] :: replicate (length xs) []
           end)
    with ((filled ++ [match h x with Some a => t a x | None => [] end])
            ++ make (length xs)).
  - rewrite IH; [by rewrite <- app_assoc|]. rewrite length_app. cbn. lia.
  - rewrite <- app_assoc. cbn [app]. destruct (h x); [|done].
    subst k. rewrite insert_app_r_alt by lia. by rewrite Nat.sub_diag.
Qed.

Lemma quoted_ids_fmap (xs : list bytes) : quoted_ids xs = q <$> xs.
Proof. apply (range_loop_fill Some (λ a _, q a) xs 0 []). done. Qed.

Lemma role_objects_fmap (xs : list RoleDefinition.t) :
  role_objects xs
  = (λ r, match RoleDefinition.ID r with
          | Some id =>
            bs "{" ++ q (bs "id") ++ bs ":" ++ q id ++ bs "," ++ q (bs "required") ++ bs ":"
              ++ strconv.FormatBool (default false (RoleDefinition.Required r)) ++ bs "}"
          | None => []
          end) <$> xs.
Proof.
  exact (range_loop_fill RoleDefinition.ID
           (λ id r,
              bs "{" ++ q (bs "id") ++ bs ":" ++ q id ++ bs "," ++ q (bs "required") ++ bs ":"
                ++ strconv.FormatBool (default false (RoleDefinition.Required r)) ++ bs "}")
           xs 0 [] eq_refl).
Qed.

(** The text [ToConfig] builds for the roles is the JSON literal of the
    specification when every role has an id that needs no escape: the
    code puts the id between quotes as it is. *)
Lemma roles_literal_all_ids (xs : list RoleDefinition.t) :
  Forall (λ r, ∃ id, RoleDefinition.ID r = Some id
                 ∧ Forall (λ c, json.htmlSafeSet (code c) = true) id) xs →
  bracketed (role_objects xs) = roles_literal xs.
Proof.
  intros Hids. unfold bracketed, roles_literal. rewrite role_objects_fmap.
  do 2 f_equal. f_equal.
  induction Hids as [|r xs (id & Hid & Hsafe) _ IH]; [done|].
  cbn [fmap list_fmap omap list_omap]. rewrite Hid. cbn [mbind option_bind].
  f_equal; [|apply IH]. unfold role_literal. by rewrite appendString_safe by done.
Qed.

(** [ToConfig] as one pass over its assignments. *)
Lemma outcome_bind_assoc {A B C} (m : outcome A) (f : A → outcome B) (g : B → outcome C) :
  (m ≫= f) ≫= g = m ≫= (λ x, f x ≫= g).
Proof. by destruct m. Qed.

Lemma ToConfig_assign_all (p : t) :
  ToConfig p
  = let p0 := if Config p is None then set_Config p (Some (Map ∅)) else p in
    config ← assign_all (assignments p) (default nil_map (Config p0));
    Return (set_Config p0 (Some config)).
Proof.
  unfold ToConfig, assignments. cbn zeta.
  replace (ClientPolicyRepresentation (if Config p is None then set_Config p (Some (Map ∅)) else p))
    with (ClientPolicyRepresentation p) by by destruct (Config p).
  replace (RolePolicyRepresentation (if Config p is None then set_Config p (Some (Map ∅)) else p))
    with (RolePolicyRepresentation p) by by destruct (Config p).
  replace (JSPolicyRepresentation (if Config p is None then set_Config p (Some (Map ∅)) else p))
    with (JSPolicyRepresentation p) by by destruct (Config p).
  replace (UserPolicyRepresentation (if Config p is None then set_Config p (Some (Map ∅)) else p))
    with (UserPolicyRepresentation p) by by destruct (Config p).
  replace (AggregatedPolicyRepresentation (if Config p is None then set_Config p (Some (Map ∅)) else p))
    with (AggregatedPolicyRepresentation p) by by destruct (Config p).
  replace (GroupPolicyRepresentation (if Config p is None then set_Config p (Some (Map ∅)) else p))
    with (GroupPolicyRepresentation p) by by destruct (Config p).
  replace (TimePolicyRepresentation (if Config p is None then set_Config p (Some (Map ∅)) else p))
    with (TimePolicyRepresentation p) by by destruct (Config p).
  cbn [assign_all].
  repeat match goal with
  | |- context [assign_if ?v ?k ?c] =>
    destruct (assign_if v k c); cbn [mbind outcome_bind]; [reflexivity|]
  end.
  reflexivity.
Qed.

Lemma assign_all_Map (l : list (option bytes * bytes)) (m : gmap bytes bytes) :
  assign_all l (Map m)
  = Return (Map (foldl (λ (m : gmap bytes bytes) kv, <[kv.1 := kv.2]> m) m (assigned l))).
Proof.
  revert m. induction l as [|[[v|] k] l IH]; intros m; [done|..]; cbn; apply IH.
Qed.

Lemma assign_all_nil_map (l : list (option bytes * bytes)) :
  assign_all l nil_map = if assigned l is [] then Return nil_map else Panic.
Proof. induction l as [|[[v|] k] l IH]; [done|done|]. cbn. apply IH. Qed.

Lemma ToConfig_cases (p : t) :
  ToConfig p
  = match Config p with
    | None =>
      Return (set_Config p (Some (Map (foldl (λ (m : gmap bytes bytes) kv, <[kv.1 := kv.2]> m)
                                          ∅ (assigned (assignments p))))))
    | Some (Map m) =>
      Return (set_Config p (Some (Map (foldl (λ (m : gmap bytes bytes) kv, <[kv.1 := kv.2]> m)
                                          m (assigned (assignments p))))))
    | Some nil_map =>
      if assigned (assignments p) is [] then Return p else Panic
    end.
Proof.
  rewrite ToConfig_assign_all. destruct p as [[[|m]|] ? ? ? ? ? ? ? ? ? ? ? ? ? ? ? ? ?].
  - cbn [Config default from_option id]. rewrite assign_all_nil_map.
    by destruct (assigned _).
  - cbn [Config default from_option id]. by rewrite assign_all_Map.
  - cbn [Config default from_option id set_Config]. by rewrite assign_all_Map.
Qed.

Lemma foldl_insert_twice (l : list (bytes * bytes)) (m : gmap bytes bytes) :
  foldl (λ (m : gmap bytes bytes) kv, <[kv.1 := kv.2]> m)
        (foldl (λ (m : gmap bytes bytes) kv, <[kv.1 := kv.2]> m) m l) l
  = foldl (λ (m : gmap bytes bytes) kv, <[kv.1 := kv.2]> m) m l.
Proof.
  rewrite !foldl_insert_union. by rewrite (assoc_L (∪)), (idemp_L (∪)).
Qed.

End ToConfig.

(** * The claims *)

Section PolicyClaims.
Import PolicyRepresentation.

Lemma assignments_set_Config (p : t) (c : option gomap) :
  assignments (set_Config p c) = assignments p.
Proof. reflexivity. Qed.

(** C4. Running [ToConfig] a second time on the policy it has normalized
    gives the same policy, with the same configuration: the assignments
    are computed from the kind-specific fields only, which [ToConfig]
    does not change, and never from [Config]. A call that panics (an
    assignment while [Config] points to a nil map) panics again. *)
Theorem C4_ToConfig_idempotent (p : t) :
  ToConfig p ≫= ToConfig = ToConfig p
  ∧ ∀ c, assignments (set_Config p c) = assignments p.
Proof.
  split; [|intros c; apply assignments_set_Config].
  rewrite (ToConfig_cases p).
  destruct (Config p) as [[|m]|] eqn:Hc.
  - destruct (assigned (assignments p)) eqn:Ha; [|done].
    cbn [mbind outcome_bind]. by rewrite ToConfig_cases, Hc, Ha.
  - cbn [mbind outcome_bind]. rewrite ToConfig_cases. cbn [Config set_Config].
    rewrite assignments_set_Config. by rewrite foldl_insert_twice.
  - cbn [mbind outcome_bind]. rewrite ToConfig_cases. cbn [Config set_Config].
    rewrite assignments_set_Config. by rewrite foldl_insert_twice.
Qed.

Lemma assigned_keys_sublist (l : list (option bytes * bytes)) :
  (assigned l).*1 `sublist_of` l.*2.
Proof.
  induction l as [|[[v|] k] l IH]; [done|..]; cbn.
  - by apply sublist_skip.
  - by apply sublist_cons.
Qed.

Lemma assigned_not_in (l : list (option bytes * bytes)) (k : bytes) :
  (∀ v, (Some v, k) ∉ l) → k ∉ (assigned l).*1.
Proof.
  intros Hl Hin. apply list_elem_of_fmap in Hin as ([k' v] & -> & Hin).
  unfold assigned in Hin. apply list_elem_of_omap in Hin as ([[v'|] k''] & Hin & Heq);
    cbn in Heq; simplify_eq. by apply (Hl v).
Qed.

Lemma assigned_NoDup (p : t) : NoDup (assigned (assignments p)).*1.
Proof.
  eapply sublist_NoDup; [|apply assigned_keys_sublist].
  unfold assignments. cbn [fmap list_fmap snd].
  apply (bool_decide_unpack _). by vm_compute.
Qed.

Lemma ToConfig_config (p : t) :
  Config p ≠ Some nil_map →
  ∃ p', ToConfig p = Return p'
    ∧ p' = set_Config p (Config p')
    ∧ config_of p'
      = foldl (λ (m : gmap bytes bytes) kv, <[kv.1 := kv.2]> m)
              (config_of p) (assigned (assignments p)).
Proof.
  intros Hc. rewrite ToConfig_cases. unfold config_of.
  destruct (Config p) as [[|m]|]; [done|..]; eexists; split_and!; done.
Qed.

End PolicyClaims.

Section PolicyStore.
Import PolicyRepresentation.

(** The assignments through a reference to a table: the table is
    written in place, and nothing else in the store changes. *)
Lemma assign_all_store_table (l : list (option bytes * bytes)) (r : positive) :
  ∀ (σ : store) (m : gmap bytes bytes),
  tables σ !! r = Some m →
  ∃ σ', assign_all_store l (Some r) σ = Return σ'
    ∧ variables σ' = variables σ
    ∧ tables σ' !! r
      = Some (foldl (λ (m : gmap bytes bytes) kv, <[kv.1 := kv.2]> m) m (assigned l))
    ∧ (∀ r', r' ≠ r → tables σ' !! r' = tables σ !! r').
Proof.
  induction l as [|[[v|] k] l IH]; intros σ m Hm.
  - exists σ. by split_and!.
  - cbn [assign_all_store table_assign mbind outcome_bind].
    edestruct (IH (Store (<[r := <[k := v]> (default ∅ (tables σ !! r))]> (tables σ))
                     (variables σ)) (<[k := v]> m)) as (σ' & -> & Hv & Ht & Ho).
    { cbn [tables]. rewrite lookup_insert_eq, Hm. done. }
    exists σ'. split_and!; [done|done|done|].
    intros r' Hr'. rewrite Ho by done. cbn [tables]. by rewrite lookup_insert_ne.
  - cbn [assign_all_store]. by apply IH.
Qed.

Lemma assign_all_store_nil (l : list (option bytes * bytes)) (σ : store) :
  assign_all_store l None σ = if assigned l is [] then Return σ else Panic.
Proof. induction l as [|[[v|] k] l IH]; [done|done|]. cbn. apply IH. Qed.

(** [ToConfig] on a receiver whose [Config] points to a variable [a]
    that refers to a table [r]: the entries are written into this very
    table, which every other variable that refers to it sees; [a] still
    refers to it, and [Config] points to a new variable that refers to
    it too. As values, this is what [ToConfig] computes. *)
Lemma ToConfig_store_shared (p : t) (a r : positive) (m : gmap bytes bytes) (σ : store) :
  variables σ !! a = Some (Some r) →
  tables σ !! r = Some m →
  ∃ a' σ',
    ToConfig_store p (Some a) σ = Return (Some a', σ')
    ∧ (a' ∉ dom (variables σ))
    ∧ variables σ' = <[a' := Some r]> (variables σ)
    ∧ tables σ' !! r
      = Some (foldl (λ (m : gmap bytes bytes) kv, <[kv.1 := kv.2]> m)
                m (assigned (assignments p)))
    ∧ (∀ r', r' ≠ r → tables σ' !! r' = tables σ !! r')
    ∧ ToConfig (set_Config p (view σ (Some a))) = Return (set_Config p (view σ' (Some a'))).
Proof.
  intros Ha Hr. unfold ToConfig_store. rewrite Ha. cbn [default from_option id new_variable].
  set (a' := fresh (dom (variables σ))).
  assert (a' ∉ dom (variables σ)) as Hfresh by apply is_fresh.
  edestruct (assign_all_store_table (assignments p) r
               (Store (tables σ) (<[a' := Some r]> (variables σ))) m)
    as (σ' & -> & Hv & Ht & Ho); [done|].
  cbn [mbind outcome_bind]. exists a', σ'. cbn [tables variables] in *.
  split_and!; try done.
  rewrite ToConfig_cases. unfold view. cbn [mbind option_bind].
  rewrite Ha, Hv, lookup_insert_eq. cbn [default from_option id].
  rewrite Hr, Ht. cbn [Config set_Config default from_option id].
  by destruct p.
Qed.

(** With a nil [Config] the table is a new one: no table of the store
    is written. *)
Lemma ToConfig_store_nil (p : t) (σ : store) :
  ∃ a' σ',
    ToConfig_store p None σ = Return (Some a', σ')
    ∧ (∀ r, r ∈ dom (tables σ) → tables σ' !! r = tables σ !! r)
    ∧ (∀ a, a ∈ dom (variables σ) → variables σ' !! a = variables σ !! a)
    ∧ ToConfig (set_Config p None) = Return (set_Config p (view σ' (Some a'))).
Proof.
  unfold ToConfig_store, new_table, new_variable. cbn [tables variables].
  set (r := fresh (dom (tables σ))).
  set (a0 := fresh (dom (variables σ))).
  assert (r ∉ dom (tables σ)) as Hr by apply is_fresh.
  assert (a0 ∉ dom (variables σ)) as Ha0 by apply is_fresh.
  rewrite lookup_insert_eq. cbn [default from_option id].
  set (a' := fresh (dom (<[a0 := Some r]> (variables σ)))).
  assert (a' ∉ dom (<[a0 := Some r]> (variables σ))) as Ha' by apply is_fresh.
  edestruct (assign_all_store_table (assignments p) r
               (Store (<[r := ∅]> (tables σ))
                  (<[a' := Some r]> (<[a0 := Some r]> (variables σ)))) ∅)
    as (σ' & -> & Hv & Ht & Ho); [by apply lookup_insert_eq|].
  cbn [mbind outcome_bind]. exists a', σ'. cbn [tables variables] in *.
  split_and!; [done| | |].
  - intros r' Hr'. rewrite Ho by (by intros ->). apply lookup_insert_ne. by intros ->.
  - intros a Ha. rewrite Hv.
    rewrite !lookup_insert_ne; [done|by intros ->|].
    intros ->. apply Ha'. rewrite dom_insert. by apply elem_of_union_r.
  - rewrite ToConfig_cases. unfold view. cbn [mbind option_bind].
    rewrite Hv, lookup_insert_eq. cbn [default from_option id]. rewrite Ht.
    cbn [Config set_Config default from_option id]. by destruct p.
Qed.

End PolicyStore.

(** A field that is set, at position [i] of the fields of a record, is
    in the projection; a key is not in it when the field that declares
    the key is nil, which [Hnil] says. *)
Ltac present_key i Hset :=
  apply list_elem_of_omap; eexists;
  split; [apply list_elem_of_lookup; by exists i|];
  unfold entry; cbn; by rewrite Hset.

Ltac absent_key Hk flds Hnil :=
  let kv := fresh "kv" in
  let Hkv := fresh "Hkv" in
  let f := fresh "f" in
  let Hf := fresh "Hf" in
  let He := fresh "He" in
  apply list_elem_of_fmap in Hk as (kv & Hk & Hkv);
  apply list_elem_of_omap in Hkv as (f & Hf & He);
  unfold flds in Hf; rewrite Hnil in Hf;
  repeat (apply elem_of_cons in Hf as [->|Hf];
          [unfold entry in He; cbn in He; repeat case_match; simplify_eq; done|]);
  by apply elem_of_nil in Hf.

Section GroupsClaims.
Import GetGroupsParams.

Lemma GetGroupsParams_conventional (v : t) :
  Forall (λ f, conventional f = true) (fields v).
Proof. unfold fields. repeat constructor. Qed.

Lemma GetGroupsParams_keys (v : t) : NoDup (keys (fields v)).
Proof. apply (bool_decide_unpack _). by vm_compute. Qed.

Lemma coerce_FormatBool (b : bool) : json.coerce (strconv.FormatBool b) = strconv.FormatBool b.
Proof. by destruct b. Qed.

(** The two aliased keys in the mapping an encoded [GetGroupsParams]
    decodes to. *)
Lemma GetGroupsParams_entries (a : t) (m : gmap bytes bytes) :
  json.Unmarshal_map (json.structEncoder (fields a)) ∅ = (m, None) →
  m !! bs "briefRepresentation" = strconv.FormatBool <$> BriefRepresentation a
  ∧ m !! bs "full" = strconv.FormatBool <$> Full a.
Proof.
  intros Hm.
  destruct (GetQueryParams_entries (fields a) (GetGroupsParams_conventional a)
              (GetGroupsParams_keys a)) as (m' & Hq & Hin & Hout & _).
  assert (m' = m) as ->.
  { unfold GetQueryParams, json.Marshal, json.Marshal_struct in Hq.
    rewrite Hm in Hq. by simplify_eq. }
  split.
  - destruct (BriefRepresentation a) as [b|] eqn:Hb.
    + rewrite (Hin (bs "briefRepresentation") (strconv.FormatBool b)).
      * by rewrite coerce_FormatBool.
      * by present_key 0 Hb.
    + apply Hout. intros Hk. by absent_key Hk fields Hb.
  - destruct (Full a) as [b|] eqn:Hb.
    + rewrite (Hin (bs "full") (strconv.FormatBool b)).
      * by rewrite coerce_FormatBool.
      * by present_key 3 Hb.
    + apply Hout. intros Hk. by absent_key Hk fields Hb.
Qed.

(** C3. When a [GetGroupsParams] is encoded: if [BriefRepresentation] is
    set, [Full] is its negation, whatever [Full] was; else if [Full] is
    set, [BriefRepresentation] is its negation; if neither is set,
    neither key is in the output. The record of the caller is the one it
    passed. *)
Theorem C3_GetGroupsParams_aliasing (obj : t) :
  ∃ out m,
    MarshalJSON obj = (obj, inr out)
    ∧ json.Unmarshal_map out ∅ = (m, None)
    ∧ match BriefRepresentation obj, Full obj with
      | Some b, _ =>
        BriefRepresentation (aliased obj) = Some b
        ∧ Full (aliased obj) = Some (negb b)
        ∧ m !! bs "briefRepresentation" = Some (strconv.FormatBool b)
        ∧ m !! bs "full" = Some (strconv.FormatBool (negb b))
      | None, Some f =>
        BriefRepresentation (aliased obj) = Some (negb f)
        ∧ Full (aliased obj) = Some f
        ∧ m !! bs "briefRepresentation" = Some (strconv.FormatBool (negb f))
        ∧ m !! bs "full" = Some (strconv.FormatBool f)
      | None, None =>
        BriefRepresentation (aliased obj) = None
        ∧ Full (aliased obj) = None
        ∧ m !! bs "briefRepresentation" = None
        ∧ m !! bs "full" = None
      end.
Proof.
  eexists _, _. split; [reflexivity|]. split.
  { apply Unmarshal_map_struct, GetGroupsParams_conventional. }
  destruct (GetGroupsParams_entries (aliased obj) _
              (Unmarshal_map_struct _ (GetGroupsParams_conventional (aliased obj))))
    as [Hb Hf].
  rewrite Hb, Hf. unfold aliased.
  destruct (BriefRepresentation obj) as [b|] eqn:Hbrief;
    [|destruct (Full obj) as [f|] eqn:Hfull]; cbn; rewrite ?Hbrief, ?Hfull; done.
Qed.

End GroupsClaims.

Section ScalarClaims.

(** C8, as stated, fails: encoding the empty sequence is no error, the
    array without elements is written. *)
Lemma C8_counterexample :
  StringOrArray.MarshalJSON (Slice []) = inr (bs "[]")
  ∧ ¬ ∃ err, StringOrArray.MarshalJSON (Slice []) = inl err.
Proof. split; [reflexivity|]. intros [err Herr]. discriminate. Qed.

(** C8 (amended). Encoding a [StringOrArray] of length 0 succeeds: an
    empty slice is written as the array without elements and the nil
    slice as [null]. *)
Theorem C8_MarshalJSON_empty (s : StringOrArray.t) :
  len s = 0 →
  StringOrArray.MarshalJSON s
  = inr (match s with nil_slice => bs "null" | Slice _ => bs "[]" end).
Proof.
  intros Hs. destruct s as [|l]; [reflexivity|].
  destruct l; [reflexivity|discriminate].
Qed.

Lemma C8_witness :
  StringOrArray.MarshalJSON (Slice []) = inr (bs "[]")
  ∧ StringOrArray.MarshalJSON nil_slice = inr (bs "null").
Proof.
  split.
  - apply (C8_MarshalJSON_empty (Slice [])). reflexivity.
  - apply (C8_MarshalJSON_empty nil_slice). reflexivity.
Defined.

(** C10. [EnforcedString.UnmarshalJSON] reads [data[0]] without a test
    of the length: on the empty payload it panics, on every other
    payload it returns, with the decoded text or with an error and the
    empty string. *)
Theorem C10_UnmarshalJSON_nonempty (s : EnforcedString.t) (data : bytes) :
  match data with
  | [] => EnforcedString.UnmarshalJSON s data = Panic
  | _ :: _ =>
    ∃ val err, EnforcedString.UnmarshalJSON s data = Return (val, err)
               ∧ (err = None ∨ val = [])
  end.
Proof.
  destruct data as [|c data]; [reflexivity|].
  unfold EnforcedString.UnmarshalJSON.
  match goal with |- context [json.Unmarshal_string ?d ?v] => generalize d end.
  intros payload. unfold json.Unmarshal_string.
  destruct (json.parse payload) as [[]|]; eexists _, _; split; try reflexivity; auto.
Qed.

End ScalarClaims.

Section StringOrArrayClaims.
Import json.

Lemma Unmarshal_string_appendString (x : bytes) (esc : bool) (v : bytes) :
  Unmarshal_string (appendString [] x esc) v = (coerce x, None).
Proof. unfold Unmarshal_string. by rewrite parse_string. Qed.

Lemma Unmarshal_strings_sliceEncoder (l : list bytes) (v : slice bytes) :
  Unmarshal_strings (sliceEncoder (Slice l)) v = (Slice (coerce <$> l), None).
Proof.
  unfold Unmarshal_strings. rewrite parse_strings. f_equal.
  - f_equal. by rewrite <- list_fmap_compose.
  - unfold saved_error. replace (existsb id _) with false; [done|].
    symmetry. induction l as [|x l IH]; [done|]. cbn. apply IH.
Qed.

Lemma coerce_fmap_valid (l : list bytes) :
  Forall (λ x, utf8.Valid x = true) l → coerce <$> l = l.
Proof.
  induction 1 as [|x l Hx _ IH]; [done|]. cbn. by rewrite IH, coerce_valid.
Qed.

(** C1, as stated, fails on a string that is not valid UTF-8: the byte
    0xFF is written as the escape of U+FFFD and comes back as the three
    bytes of that rune. *)
Lemma C1_counterexample :
  ∃ out,
    StringOrArray.MarshalJSON (Slice [Examples.invalid_ff]) = inr out
    ∧ StringOrArray.UnmarshalJSON nil_slice out = (Slice [Examples.replacement], None)
    ∧ Slice [Examples.replacement] ≠ Slice [Examples.invalid_ff].
Proof. eexists. split; [reflexivity|]. split; [by vm_compute|]. by vm_compute. Qed.

(** C1 (amended). For every non-empty sequence [s] of strings that are
    valid UTF-8, decoding the encoding of [s] gives [s] back, in order;
    the encoding of a single string is that string as a JSON string,
    without brackets, and the encoding of two or more is the JSON array
    of the strings. *)
Theorem C1_StringOrArray_roundtrip (s : list bytes) (s0 : StringOrArray.t) :
  s ≠ [] →
  Forall (λ x, utf8.Valid x = true) s →
  ∃ out,
    StringOrArray.MarshalJSON (Slice s) = inr out
    ∧ StringOrArray.UnmarshalJSON s0 out = (Slice s, None)
    ∧ match s with
      | [x] => out = appendString [] x true ∧ parse out = Some (String x)
      | _ => parse out = Some (Array (String <$> s))
      end.
Proof.
  intros Hne Hv. destruct s as [|x [|y l]]; [done|..].
  - exists (appendString [] x true).
    pose proof (Forall_inv Hv) as Hx. cbn beta in Hx.
    split; [reflexivity|]. split.
    + unfold StringOrArray.UnmarshalJSON.
      replace (bool_decide (appendString [] x true !! 0 = Some "["%char)) with false
        by reflexivity.
      rewrite andb_false_r, Unmarshal_string_appendString. by rewrite coerce_valid.
    + split; [done|]. by rewrite parse_string, coerce_valid.
  - exists (sliceEncoder (Slice (x :: y :: l))).
    split; [reflexivity|]. split.
    + unfold StringOrArray.UnmarshalJSON.
      replace ((1 <? length (sliceEncoder (Slice (x :: y :: l))))
               && bool_decide (sliceEncoder (Slice (x :: y :: l)) !! 0 = Some "["%char))
        with true by reflexivity.
      rewrite Unmarshal_strings_sliceEncoder. by rewrite coerce_fmap_valid.
    + rewrite parse_strings. rewrite list_fmap_compose. by rewrite coerce_fmap_valid.
Qed.

Lemma C1_witness :
  ∃ out,
    StringOrArray.MarshalJSON (Slice [bs "a"; bs "b"]) = inr out
    ∧ StringOrArray.UnmarshalJSON nil_slice out = (Slice [bs "a"; bs "b"], None)
    ∧ parse out = Some (Array [String (bs "a"); String (bs "b")]).
Proof.
  apply (C1_StringOrArray_roundtrip [bs "a"; bs "b"] nil_slice).
  - discriminate.
  - repeat constructor.
Defined.

End StringOrArrayClaims.

Section EnforcedStringClaims.
Import json EnforcedString.
Local Open Scope N_scope.

Lemma HasPrefix_nil (s : bytes) : strings.HasPrefix s [] = true.
Proof. by destruct s. Qed.

Lemma replace_quotes (n : nat) :
  ∀ data : bytes, (length data ≤ n)%nat →
  strings.replace_loop n data [dq] [bsl; dq] = escape_quotes data.
Proof.
  induction n as [|n IH]; intros data Hn.
  { destruct data; [done|cbn in Hn; lia]. }
  destruct data as [|c data]; [done|]. cbn [length] in Hn.
  cbn [strings.replace_loop strings.HasPrefix escape_quotes flat_map].
  fold (escape_quotes data).
  rewrite HasPrefix_nil, andb_true_r. destruct (bool_decide (c = dq)).
  - cbn [length drop app]. rewrite drop_0. rewrite IH by lia. done.
  - cbn [app]. rewrite IH by lia. done.
Qed.

Lemma escape_quotes_app (a b : bytes) :
  escape_quotes (a ++ b) = escape_quotes a ++ escape_quotes b.
Proof. unfold escape_quotes. apply flat_map_app. Qed.

Lemma escape_quotes_high (a : bytes) :
  Forall (λ c, 128 ≤ code c) a → escape_quotes a = a.
Proof.
  induction 1 as [|c a Hc _ IH]; [done|].
  unfold escape_quotes in *. cbn [flat_map]. rewrite IH.
  rewrite bool_decide_eq_false_2; [done|]. intros ->. by vm_compute in Hc.
Qed.

(** Without a backslash in the payload the second replacement finds
    nothing to collapse. *)
Lemma replace_collapse (data : bytes) :
  Forall (λ c, c ≠ bsl) data →
  ∀ n : nat, (length (escape_quotes data) ≤ n)%nat →
  strings.replace_loop n (escape_quotes data) [bsl; bsl; dq] [bsl; dq] = escape_quotes data.
Proof.
  induction 1 as [|c data Hc _ IH]; intros n Hn.
  { by destruct n. }
  change (escape_quotes (c :: data))
    with ((if bool_decide (c = dq) then [bsl; dq] else [c]) ++ escape_quotes data) in *.
  destruct (bool_decide (c = dq)) eqn:Hq.
  - cbn [app length] in *. destruct n as [|[|n]]; [lia..|].
    cbn [strings.replace_loop strings.HasPrefix].
    change (bool_decide (bsl = bsl)) with true.
    change (bool_decide (dq = bsl)) with false. cbn [andb].
    rewrite IH by lia. done.
  - cbn [app length] in *. destruct n as [|n]; [lia|].
    cbn [strings.replace_loop strings.HasPrefix].
    rewrite (bool_decide_eq_false_2 (c = bsl)) by done. cbn [andb].
    rewrite IH by lia. done.
Qed.

Lemma plain_safeSet (c : ascii) :
  plain c → c ≠ dq → code c < 128 → safeSet (code c) = true.
Proof.
  intros [Hb Hc] Hq Hlt. unfold safeSet.
  apply N.leb_le in Hc. apply N.ltb_lt in Hlt. rewrite Hc, Hlt. cbn [andb].
  apply andb_true_intro. split; apply negb_true_iff, N.eqb_neq; intros He;
    by apply code_inj in He.
Qed.

(** Scanning the escaped payload gives the payload back. *)
Lemma scan_escape_quotes (n : nat) :
  ∀ (data rest : bytes) (f : nat),
  (length data ≤ n)%nat →
  utf8.valid_loop n data = true →
  Forall plain data →
  (length (escape_quotes data) < f)%nat →
  scan_string f (escape_quotes data ++ dq :: rest) = Some (data, rest).
Proof.
  induction n as [|n IH]; intros data rest f Hn Hv Hp Hf.
  { destruct data; [|cbn in Hn; lia]. destruct f; [cbn in Hf; lia|]. reflexivity. }
  destruct data as [|c data].
  { destruct f; [cbn in Hf; lia|]. reflexivity. }
  destruct f as [|f]; [lia|].
  cbn [length] in Hn. cbn [utf8.valid_loop] in Hv.
  pose proof (Forall_inv Hp) as Hc. pose proof (Forall_inv_tail Hp) as Hp'.
  destruct (N.lt_ge_cases (code c) 128) as [Hlt|Hge].
  - rewrite DecodeRune_ascii in Hv by done.
    replace ((code c =? utf8.RuneError) && (1 =? 1)%nat) with false in Hv; last first.
    { symmetry. apply andb_false_iff. left. apply N.eqb_neq. unfold utf8.RuneError. lia. }
    cbn [drop] in Hv. rewrite drop_0 in Hv.
    change (escape_quotes (c :: data))
      with ((if bool_decide (c = dq) then [bsl; dq] else [c]) ++ escape_quotes data) in *.
    destruct (bool_decide (c = dq)) eqn:Hq.
    + apply bool_decide_eq_true in Hq as ->. cbn [app length] in *.
      rewrite (scan_string_letter _ dq dq) by reflexivity.
      rewrite IH; [done|lia|done|done|lia].
    + apply bool_decide_eq_false in Hq. cbn [app length] in *.
      rewrite scan_string_plain by by apply plain_safeSet.
      rewrite IH; [done|lia|done|done|lia].
  - destruct (DecodeRune_multi c data Hge)
      as [Herr|(r & size & Hdec & Hsz & Hlen & Henc & Hpre & Hhigh)].
    { rewrite Herr in Hv. done. }
    rewrite Hdec in Hv.
    replace ((r =? utf8.RuneError) && (size =? 1)%nat) with false in Hv; last first.
    { symmetry. apply andb_false_iff. right. apply Nat.eqb_neq. lia. }
    rewrite <- (take_drop size (c :: data)) in Hf |- * at 1.
    rewrite escape_quotes_app, escape_quotes_high in Hf |- * by done.
    rewrite <- app_assoc.
    assert (∃ tk, take size (c :: data) = c :: tk) as [tk Htk].
    { destruct size; [lia|]. by eexists. }
    rewrite Htk at 1. cbn [app]. rewrite scan_string_rune by done.
    change (c :: tk ++ ?x) with ((c :: tk) ++ x). rewrite <- Htk.
    rewrite Hpre. rewrite drop_app_length'; last by (rewrite length_take; lia).
    rewrite length_app, length_take in Hf.
    rewrite IH; [|rewrite length_drop; cbn [length]; lia|done| |lia].
    + cbn. by rewrite Henc, take_drop.
    + by apply Forall_drop.
Qed.

End EnforcedStringClaims.

Section EnforcedStringTheorems.
Import json EnforcedString.

Lemma repaired_plain (data : bytes) :
  Forall plain data → repaired data = [dq] ++ escape_quotes data ++ [dq].
Proof.
  intros Hp. unfold repaired, strings.ReplaceAll.
  rewrite replace_quotes by done. rewrite replace_collapse; [done| |done].
  eapply Forall_impl; [done|]. by intros c [? _].
Qed.

Lemma Unmarshal_string_escape_quotes (data v : bytes) :
  Forall plain data → utf8.Valid data = true →
  Unmarshal_string ([dq] ++ escape_quotes data ++ [dq]) v = (data, None).
Proof.
  intros Hp Hv. unfold Unmarshal_string, parse. cbn [app skip_ws].
  change (isSpace dq) with false. cbn iota. cbn [length parse_value].
  change (bool_decide (dq = dq)) with true. cbn iota.
  unfold scan_string_lit.
  rewrite (scan_escape_quotes (length data)); [done|done|done|done|].
  rewrite length_app. cbn [length]. lia.
Qed.

(** C9, as stated, fails: an unquoted payload with a backslash is not
    decoded to its raw content (a trailing backslash is an error, the
    pair backslash, n is a line feed), and a byte that is not valid
    UTF-8 becomes U+FFFD. *)
Lemma C9_counterexample :
  UnmarshalJSON [] (bs "a\") = Return ([], Some SyntaxError)
  ∧ UnmarshalJSON [] (bs "a\nb") = Return ([ "a"%char; byte_of 10; "b"%char ], None)
  ∧ UnmarshalJSON [] Examples.invalid_ff = Return (Examples.replacement, None).
Proof. split_and!; by vm_compute. Qed.

(** C9 (amended). For every payload whose first byte is not a quote,
    [UnmarshalJSON] decodes, as a JSON string, the payload with its
    quotes escaped, the sequences backslash, backslash, quote collapsed
    and quotes put around it; when the payload has no backslash and no
    control character and is valid UTF-8, the result is the payload
    itself. *)
Theorem C9_EnforcedString_unquoted (s : t) (c : ascii) (rest : bytes) :
  c ≠ dq →
  UnmarshalJSON s (c :: rest) = Return (Unmarshal_string (repaired (c :: rest)) [])
  ∧ (Forall plain (c :: rest) ∧ utf8.Valid (c :: rest) = true →
     UnmarshalJSON s (c :: rest) = Return (c :: rest, None)).
Proof.
  intros Hc.
  assert (UnmarshalJSON s (c :: rest) = Return (Unmarshal_string (repaired (c :: rest)) []))
    as Heq.
  { unfold UnmarshalJSON. rewrite bool_decide_eq_false_2 by done. cbn [negb].
    fold (repaired (c :: rest)). by destruct (Unmarshal_string _ _). }
  split; [done|]. intros [Hp Hv].
  by rewrite Heq, repaired_plain, Unmarshal_string_escape_quotes.
Qed.

Lemma C9_witness :
  UnmarshalJSON [] Examples.hello_world = Return (Examples.hello_world, None).
Proof.
  apply (C9_EnforcedString_unquoted [] "h"%char (bs "ello " ++ q (bs "world"))).
  - discriminate.
  - split; [|reflexivity].
    repeat (constructor; [split; [discriminate|by vm_compute]|]). constructor.
Defined.

End EnforcedStringTheorems.

Section ProjectionClaims.
Import json.

(** C6, as stated, fails: the Go map that is returned has no order, so
    two records that declare the same fields in opposite orders project
    to the same mapping and no function of the mapping gives the entries
    in declaration order; a record with a field outside the tag
    convention (a [[]string] field that is set) projects to an error,
    not to an entry; and a [GetGroupsParams], whose fields follow the
    convention, is encoded by its own [MarshalJSON]: with only
    [BriefRepresentation] set it projects to an entry for [full] too,
    a field that is absent. *)
Lemma C6_counterexample :
  project Examples.struct_ab ≠ project Examples.struct_ba
  ∧ GetQueryParams Examples.struct_ab = GetQueryParams Examples.struct_ba
  ∧ (¬ ∃ order : gmap bytes bytes → list (bytes * bytes),
         ∀ (s : struct) (m : gmap bytes bytes),
           Forall (λ f, conventional f = true) s → NoDup (keys s) →
           GetQueryParams s = inr m → order m = project s)
  ∧ GetQueryParams Examples.events_login = inl UnmarshalTypeError
  ∧ (Forall (λ f, conventional f = true)
       (GetGroupsParams.fields (Examples.groups_params (Some true) None))
     ∧ NoDup (keys (GetGroupsParams.fields (Examples.groups_params (Some true) None)))
     ∧ GetGroupsParams.Full (Examples.groups_params (Some true) None) = None
     ∧ ∃ m, GetQueryParams (Examples.groups_params (Some true) None) = inr m
         ∧ m !! bs "full" = Some (bs "false")).
Proof.
  assert (GetQueryParams Examples.struct_ab = GetQueryParams Examples.struct_ba) as Heq
    by by vm_compute.
  split_and!; [by vm_compute|exact Heq| |by vm_compute|repeat constructor| |done|].
  - intros [order Horder].
    destruct (GetQueryParams Examples.struct_ba) as [err|m] eqn:Hba; [by vm_compute in Hba|].
    assert (project Examples.struct_ab = project Examples.struct_ba) as Hp.
    { rewrite <- (Horder Examples.struct_ab m), <- (Horder Examples.struct_ba m); try done.
      - repeat constructor.
      - apply (bool_decide_unpack _). by vm_compute.
      - repeat constructor.
      - apply (bool_decide_unpack _). by vm_compute. }
    by vm_compute in Hp.
  - apply (bool_decide_unpack _). by vm_compute.
  - destruct (GetQueryParams (Examples.groups_params (Some true) None)) as [err|m] eqn:Hm;
      [by vm_compute in Hm|].
    exists m. split; [done|].
    assert (match GetQueryParams (Examples.groups_params (Some true) None) with
            | inr m => m !! bs "full"
            | inl _ => None
            end = Some (bs "false")) as Hfull by by vm_compute.
    by rewrite Hm in Hfull.
Qed.

(** C6 (amended). For every option record that [json.Marshal] encodes
    field by field (a record without a [MarshalJSON] of its own), whose
    fields follow the tag convention of [GetQueryParams] and have
    distinct keys, the projection succeeds with an unordered mapping
    that has no entry for an absent field and exactly one entry for each
    present field, under its wire key, holding its text (invalid UTF-8
    replaced by U+FFFD). *)
Theorem C6_GetQueryParams_projection {A} `{Marshaler A} (fields : A → struct) (v : A) :
  Marshal v = Marshal (fields v) →
  Forall (λ f, conventional f = true) (fields v) →
  NoDup (keys (fields v)) →
  ∃ m, GetQueryParams v = inr m
    ∧ (∀ k x, (k, x) ∈ project (fields v) → m !! k = Some (coerce x))
    ∧ (∀ k x, (k, x) ∈ project (fields v) → utf8.Valid x = true → m !! k = Some x)
    ∧ (∀ k, k ∉ (project (fields v)).*1 → m !! k = None)
    ∧ size m = length (project (fields v)).
Proof.
  intros HM Hs Hnd.
  destruct (GetQueryParams_entries (fields v) Hs Hnd) as (m & Hm & Hin & Hout & Hsize).
  exists m. split_and!; try done.
  - unfold GetQueryParams in *. by rewrite HM.
  - intros k x Hkv Hv. rewrite (Hin k x Hkv). by rewrite coerce_valid.
Qed.

Lemma C6_witness :
  ∃ m, GetQueryParams Examples.users_max_10 = inr m
    ∧ m !! bs "max" = Some (bs "10")
    ∧ m !! bs "search" = None
    ∧ size m = 1.
Proof.
  destruct (C6_GetQueryParams_projection GetUsersParams.fields Examples.users_max_10)
    as (m & Hm & _ & Hin & Hout & Hsize).
  - reflexivity.
  - repeat constructor.
  - apply (bool_decide_unpack _). by vm_compute.
  - exists m. split; [exact Hm|]. split_and!.
    + apply Hin; [|reflexivity]. apply list_elem_of_In. left. reflexivity.
    + apply Hout. intros Hk. apply list_elem_of_In in Hk.
      destruct Hk as [Hk|[]]. by vm_compute in Hk.
    + exact Hsize.
Defined.

(** The record of the specification: [Max] is 10 and every other field
    is absent. *)
Lemma GetQueryParams_users_max_10 :
  GetQueryParams Examples.users_max_10 = inr {[ bs "max" := bs "10" ]}.
Proof. by vm_compute. Qed.

End ProjectionClaims.

Section TokenOptionsClaims.
Import json TokenOptions.

Lemma TokenOptions_conventional (v : t) : Forall (λ f, conventional f = true) (fields v).
Proof. unfold fields. repeat constructor. Qed.

Lemma TokenOptions_keys (v : t) : NoDup (keys (fields v)).
Proof. apply (bool_decide_unpack _). by vm_compute. Qed.

(** The receiver when [json.Marshal(t)] is reached. *)
Lemma FormData_receiver (t0 : t) :
  (FormData t0).1
  = let scope :=
      if NilOrEmptySlice (Scopes t0) then Scope t0
      else Some (strings.Join (deref (Scopes t0)) (bs " ")) in
    let responseType :=
      if NilOrEmptySlice (ResponseTypes t0) then ResponseType t0
      else Some (strings.Join (deref (ResponseTypes t0)) (bs " ")) in
    set_ResponseType (set_Scope t0 scope)
      (if NilOrEmpty responseType then Some (bs "token") else responseType).
Proof.
  unfold FormData, StringP. cbn [fst].
  destruct t0 as [? ? ? ? scopes scope rtypes rtype ? ? ? ? ? ? ? ? ? ? ? ?].
  cbn [Scopes ResponseTypes Scope ResponseType].
  destruct (NilOrEmptySlice scopes) eqn:H1;
    cbn [negb Scopes ResponseTypes Scope ResponseType set_Scope set_ResponseType StringP];
    destruct (NilOrEmptySlice rtypes) eqn:H2;
    cbn [negb Scopes ResponseTypes Scope ResponseType set_Scope set_ResponseType StringP];
    cbv [set_Scope set_ResponseType Scopes ResponseTypes Scope ResponseType];
    match goal with |- context [NilOrEmpty ?x] => destruct (NilOrEmpty x) eqn:H3 end;
    cbv [set_Scope set_ResponseType Scopes ResponseTypes Scope ResponseType];
    rewrite ?H3; reflexivity.
Qed.

Lemma FormData_map (t0 : t) :
  ∃ m, (FormData t0).2 = m
    ∧ (∀ k v, (k, v) ∈ project (fields (FormData t0).1) → m !! k = Some (coerce v))
    ∧ (∀ k, k ∉ (project (fields (FormData t0).1)).*1 → m !! k = None).
Proof.
  destruct (GetQueryParams_entries (fields (FormData t0).1)
              (TokenOptions_conventional _) (TokenOptions_keys _))
    as (m & Hm & Hin & Hout & _).
  exists m. split; [|done].
  rewrite GetQueryParams_struct in Hm by apply TokenOptions_conventional.
  simplify_eq.
  change ((FormData t0).2)
    with (Unmarshal_map (structEncoder (fields (FormData t0).1)) ∅).1.
  by rewrite Unmarshal_map_struct by apply TokenOptions_conventional.
Qed.

Lemma TokenOptions_lookup (v : t) (m : gmap bytes bytes) :
  (∀ k x, (k, x) ∈ project (fields v) → m !! k = Some (coerce x)) →
  (∀ k, k ∉ (project (fields v)).*1 → m !! k = None) →
  m !! bs "scope" = coerce <$> Scope v
  ∧ m !! bs "response_type" = coerce <$> ResponseType v.
Proof.
  intros Hin Hout. split.
  - destruct (Scope v) as [x|] eqn:Hx.
    + apply Hin. by present_key 5 Hx.
    + apply Hout. intros Hk. by absent_key Hk fields Hx.
  - destruct (ResponseType v) as [x|] eqn:Hx.
    + apply Hin. by present_key 7 Hx.
    + apply Hout. intros Hk. by absent_key Hk fields Hx.
Qed.

End TokenOptionsClaims.

Section FormDataClaims.
Import json TokenOptions.

Lemma TokenOptions_keys_eq (v w : t) : keys (fields v) = keys (fields w).
Proof. vm_compute. reflexivity. Qed.

(** C5, as stated, fails where the plural list and the singular field
    are both set: the explicit [Scope] is overwritten by the joined
    [Scopes]. *)
Lemma C5_counterexample :
  Scope Examples.scopes_and_scope = Some (bs "email")
  ∧ Scope (FormData Examples.scopes_and_scope).1 = Some (bs "openid profile")
  ∧ (FormData Examples.scopes_and_scope).2 !! bs "scope" = Some (bs "openid profile").
Proof. split_and!; by vm_compute. Qed.

(** C5 (amended). In the mapping [FormData] returns, the [scope] entry
    is the [Scopes] list joined with single spaces whenever that list is
    not empty, whether or not [Scope] had a value, and the value of
    [Scope] otherwise; the [response_type] entry is likewise the joined
    [ResponseTypes] or else [ResponseType], and [token] when that text
    is absent or empty; invalid UTF-8 in a text is replaced by U+FFFD.
    Every key of the mapping is the wire key of a singular field: the
    plural fields are never projected. *)
Theorem C5_FormData_plural (t0 : t) :
  let scope :=
    if NilOrEmptySlice (Scopes t0) then Scope t0
    else Some (strings.Join (deref (Scopes t0)) (bs " ")) in
  let responseType :=
    if NilOrEmptySlice (ResponseTypes t0) then ResponseType t0
    else Some (strings.Join (deref (ResponseTypes t0)) (bs " ")) in
  (FormData t0).2 !! bs "scope" = coerce <$> scope
  ∧ (FormData t0).2 !! bs "response_type"
    = Some (if NilOrEmpty responseType then bs "token" else coerce (default [] responseType))
  ∧ dom (FormData t0).2 ⊆ list_to_set (keys (fields t0)).
Proof.
  intros scope responseType.
  destruct (FormData_map t0) as (m & -> & Hin & Hout).
  destruct (TokenOptions_lookup _ m Hin Hout) as [Hs Hr].
  rewrite Hs, Hr, FormData_receiver. fold scope responseType.
  split_and!.
  - by destruct t0.
  - destruct t0. cbn [ResponseType set_ResponseType].
    destruct (NilOrEmpty responseType) eqn:Hn; [done|].
    destruct responseType; done.
  - intros k Hk. apply elem_of_dom in Hk as [v Hk].
    destruct (decide (k ∈ (project (fields (FormData t0).1)).*1)) as [Hin'|Hin'].
    + apply elem_of_list_to_set.
      apply (elem_of_sublist _ _ _ Hin').
      rewrite (TokenOptions_keys_eq t0 (FormData t0).1).
      apply project_keys_sublist.
    + apply Hout in Hin'. congruence.
Qed.

(** The copy that [MarshalJSON] encodes is the record of the caller only
    when there is nothing to alias. *)
Lemma aliased_same (obj : GetGroupsParams.t) :
  GetGroupsParams.aliased obj = obj
  ↔ match GetGroupsParams.BriefRepresentation obj with
    | Some b => GetGroupsParams.Full obj = Some (negb b)
    | None => GetGroupsParams.Full obj = None
    end.
Proof.
  unfold GetGroupsParams.aliased, BoolP. destruct obj as [brief ? ? full ? ? ?].
  cbn [GetGroupsParams.BriefRepresentation GetGroupsParams.Full].
  destruct brief as [b|]; [|destruct full as [f|]];
    cbn [GetGroupsParams.set_Full GetGroupsParams.set_BriefRepresentation
         GetGroupsParams.BriefRepresentation GetGroupsParams.Full GetGroupsParams.Exact
         GetGroupsParams.First GetGroupsParams.Max GetGroupsParams.Q GetGroupsParams.Search];
    split; intros H; try done; try (by rewrite H); try (injection H; congruence).
Qed.

(** C7, as stated, fails: [FormData] writes the default response type
    into the receiver, and [ToConfig] stores the configuration in the
    receiver; and where the receiver's [Config] points to a map that
    another variable refers to as well, that variable sees the entry
    [ToConfig] has written. *)
Lemma C7_counterexample :
  (FormData (Examples.token_options None None None None)).1
    ≠ Examples.token_options None None None None
  ∧ PolicyRepresentation.ToConfig (Examples.policy None None (Some (bs "x")))
    ≠ Return (Examples.policy None None (Some (bs "x")))
  ∧ (∃ a' σ',
       PolicyRepresentation.ToConfig_store (Examples.policy None None (Some (bs "x")))
         (Some 1%positive) Examples.shared
       = Return (Some a', σ')
       ∧ PolicyRepresentation.view Examples.shared (Some 2%positive)
         = Some (Map {[ bs "k" := bs "v" ]})
       ∧ PolicyRepresentation.view σ' (Some 2%positive)
         = Some (Map (<[ bs "code" := bs "x" ]> {[ bs "k" := bs "v" ]}))).
Proof.
  split_and!; [by vm_compute|by vm_compute|].
  destruct (ToConfig_store_shared (Examples.policy None None (Some (bs "x")))
              1%positive 1%positive {[ bs "k" := bs "v" ]} Examples.shared)
    as (a' & σ' & Hr & Hfresh & Hv & Ht & _); [done..|].
  exists a', σ'. split; [exact Hr|]. split; [done|].
  unfold PolicyRepresentation.view. cbn [mbind option_bind].
  rewrite Hv, lookup_insert_ne.
  - change (PolicyRepresentation.variables Examples.shared !! 2%positive)
      with (Some (Some 1%positive)).
    cbn [default from_option id]. by rewrite Ht.
  - intros ->. apply Hfresh. apply elem_of_dom. by eexists.
Qed.

(** C7 (amended). [GetGroupsParams.MarshalJSON] has a value receiver:
    the record of the caller is as it was, and the output is the
    encoding of the aliased copy, which differs from the record unless
    [Full] is the negation of [BriefRepresentation] already or both are
    nil; [GetQueryParams] has no receiver and
    returns, for a [GetGroupsParams], the mapping of the aliased copy.
    [TokenOptions.FormData] writes into its receiver: [Scope] becomes
    the [Scopes] joined by spaces when there are some, [ResponseType]
    the [ResponseTypes] joined by spaces when there are some and
    [token] when it is then nil or empty; no other field changes.
    [ToConfig], unless it panics, leaves in [Config] the configuration
    extended by the entries of the fields that are set and changes no
    other field; where [Config] pointed to a variable that refers to a
    table, the entries are written into that table, for every holder of
    it to see, and [Config] points to a new variable that refers to
    it. *)
Theorem C7_receivers :
  (∀ obj : GetGroupsParams.t,
     (GetGroupsParams.MarshalJSON obj).1 = obj
     ∧ (GetGroupsParams.MarshalJSON obj).2
       = json.Marshal (GetGroupsParams.fields (GetGroupsParams.aliased obj))
     ∧ (GetGroupsParams.aliased obj = obj
        ↔ match GetGroupsParams.BriefRepresentation obj with
          | Some b => GetGroupsParams.Full obj = Some (negb b)
          | None => GetGroupsParams.Full obj = None
          end)
     ∧ GetQueryParams obj
       = GetQueryParams (GetGroupsParams.fields (GetGroupsParams.aliased obj)))
  ∧ (∀ t0,
       (FormData t0).1
       = let scope :=
           if NilOrEmptySlice (Scopes t0) then Scope t0
           else Some (strings.Join (deref (Scopes t0)) (bs " ")) in
         let responseType :=
           if NilOrEmptySlice (ResponseTypes t0) then ResponseType t0
           else Some (strings.Join (deref (ResponseTypes t0)) (bs " ")) in
         set_ResponseType (set_Scope t0 scope)
           (if NilOrEmpty responseType then Some (bs "token") else responseType))
  ∧ (∀ p,
       match PolicyRepresentation.ToConfig p with
       | Return p' =>
         p' = PolicyRepresentation.set_Config p (PolicyRepresentation.Config p')
         ∧ PolicyRepresentation.config_of p'
           = foldl (λ (m : gmap bytes bytes) kv, <[kv.1 := kv.2]> m)
               (PolicyRepresentation.config_of p)
               (PolicyRepresentation.assigned (PolicyRepresentation.assignments p))
       | Panic =>
         PolicyRepresentation.Config p = Some nil_map
         ∧ PolicyRepresentation.assigned (PolicyRepresentation.assignments p) ≠ []
       end)
  ∧ (∀ p a r m σ,
       PolicyRepresentation.variables σ !! a = Some (Some r) →
       PolicyRepresentation.tables σ !! r = Some m →
       ∃ a' σ',
         PolicyRepresentation.ToConfig_store p (Some a) σ = Return (Some a', σ')
         ∧ a' ≠ a
         ∧ PolicyRepresentation.variables σ' !! a = Some (Some r)
         ∧ PolicyRepresentation.variables σ' !! a' = Some (Some r)
         ∧ PolicyRepresentation.tables σ' !! r
           = Some (foldl (λ (m : gmap bytes bytes) kv, <[kv.1 := kv.2]> m) m
                     (PolicyRepresentation.assigned (PolicyRepresentation.assignments p)))
         ∧ (∀ r', r' ≠ r →
              PolicyRepresentation.tables σ' !! r' = PolicyRepresentation.tables σ !! r')
         ∧ PolicyRepresentation.ToConfig
             (PolicyRepresentation.set_Config p (PolicyRepresentation.view σ (Some a)))
           = Return (PolicyRepresentation.set_Config p
                       (PolicyRepresentation.view σ' (Some a')))).
Proof.
  split_and!.
  - intros obj. split_and!; [done..|apply aliased_same|done].
  - apply FormData_receiver.
  - intros p. rewrite ToConfig_cases. unfold PolicyRepresentation.config_of.
    destruct p as [[[|m]|] ? ? ? ? ? ? ? ? ? ? ? ? ? ? ? ? ?];
      cbn [PolicyRepresentation.Config]; [|done..].
    destruct (PolicyRepresentation.assigned _) eqn:Ha; [|done].
    cbn [PolicyRepresentation.Config PolicyRepresentation.set_Config]. by rewrite ?Ha.
  - intros p a r m σ Ha Hr.
    destruct (ToConfig_store_shared p a r m σ Ha Hr)
      as (a' & σ' & Hrun & Hfresh & Hv & Ht & Ho & Hview).
    exists a', σ'. split_and!; try done.
    + intros ->. apply Hfresh. apply elem_of_dom. by eexists.
    + rewrite Hv, lookup_insert_ne; [done|].
      intros ->. apply Hfresh. apply elem_of_dom. by eexists.
    + by rewrite Hv, lookup_insert_eq.
Qed.

End FormDataClaims.

(** * Further properties *)


(** Decides the comparisons of two known bytes in the goal. *)
Ltac decide_bytes :=
  repeat match goal with
  | |- context [@bool_decide (?a = ?b) ?d] =>
    let v := eval vm_compute in (@bool_decide (a = b) d) in
    match v with true => idtac | false => idtac end;
    change (@bool_decide (a = b) d) with v
  end.

Section JsonNumber.
Import json.


Lemma nzhead_not_D0 (d d' : Decimal.uint) : Decimal.nzhead d ≠ Decimal.D0 d'.
Proof. induction d; done. Qed.

Lemma to_uint_head (p : positive) :
  match Pos.to_uint p with
  | Decimal.Nil | Decimal.D0 _ => False
  | _ => True
  end.
Proof.
  pose proof (Unsigned.to_uint_nonnil p) as Hnil.
  pose proof (DecimalPos.Unsigned.to_of (Pos.to_uint p)) as Hn.
  rewrite DecimalPos.Unsigned.of_to in Hn. cbn [N.to_uint] in Hn.
  destruct (Pos.to_uint p) as [|d| | | | | | | | |] eqn:Hp; try done.
  unfold Decimal.unorm in Hn.
  destruct (Decimal.nzhead (Decimal.D0 d)) eqn:Hz; try done.
  - simplify_eq. by apply (Unsigned.to_uint_nonzero p).
  - by apply nzhead_not_D0 in Hz.
Qed.

Lemma string_of_uint_digits (d : Decimal.uint) :
  Forall (λ c, isDigit c = true) (bs (NilEmpty.string_of_uint d)).
Proof. induction d; cbn; by repeat constructor. Qed.

Lemma scan_digits_all (l rest : bytes) :
  Forall (λ c, isDigit c = true) l →
  match rest with c :: _ => isDigit c = false | [] => True end →
  scan_digits (l ++ rest) = (l, rest).
Proof.
  intros Hl Hrest. induction Hl as [|c l Hc _ IH]; cbn [app].
  - destruct rest as [|c rest]; [done|]. cbn [scan_digits]. by rewrite Hrest.
  - cbn [scan_digits]. by rewrite Hc, IH.
Qed.

Lemma delimited_not_digit (rest : bytes) :
  delimited rest = true → match rest with c :: _ => isDigit c = false | [] => True end.
Proof.
  destruct rest as [|c rest]; [done|]. cbn.
  intros [->%bool_decide_eq_true| ->%bool_decide_eq_true]%orb_true_iff; done.
Qed.

(** A digit sequence without a leading zero, before a delimiter. *)
Lemma scan_number_digits (c : ascii) (l rest : bytes) :
  isDigit c = true → c ≠ "0"%char →
  Forall (λ c, isDigit c = true) l →
  delimited rest = true →
  scan_number (c :: l ++ rest) = Some (c :: l, rest).
Proof.
  intros Hc H0 Hl Hrest. unfold scan_number.
  assert (c ≠ "-"%char) as Hm by (intros ->; done).
  rewrite (bool_decide_eq_false_2 _ Hm), (bool_decide_eq_false_2 _ H0), Hc.
  change (c :: l ++ rest) with ((c :: l) ++ rest).
  rewrite scan_digits_all; [|by constructor|by apply delimited_not_digit].
  cbn [mbind option_bind].
  destruct rest as [|r rest]; [done|]. cbn in Hrest.
  apply orb_true_iff in Hrest as [->%bool_decide_eq_true| ->%bool_decide_eq_true];
    repeat (progress (cbn; decide_bytes)); by rewrite app_nil_r.
Qed.

Lemma scan_number_zero (rest : bytes) :
  delimited rest = true → scan_number ("0"%char :: rest) = Some (bs "0", rest).
Proof.
  intros Hrest. destruct rest as [|r rest]; [done|]. cbn in Hrest.
  apply orb_true_iff in Hrest as [->%bool_decide_eq_true| ->%bool_decide_eq_true];
    by vm_compute.
Qed.

Lemma scan_number_neg (c : ascii) (l rest : bytes) :
  isDigit c = true → c ≠ "0"%char →
  Forall (λ c, isDigit c = true) l →
  delimited rest = true →
  scan_number ("-"%char :: c :: l ++ rest) = Some ("-"%char :: c :: l, rest).
Proof.
  intros Hc H0 Hl Hrest. unfold scan_number.
  change (bool_decide ("-"%char = "-"%char)) with true. cbn iota.
  rewrite (bool_decide_eq_false_2 _ H0), Hc.
  change (c :: l ++ rest) with ((c :: l) ++ rest).
  rewrite scan_digits_all; [|by constructor|by apply delimited_not_digit].
  cbn [mbind option_bind].
  destruct rest as [|r rest]; [done|]. cbn in Hrest.
  apply orb_true_iff in Hrest as [->%bool_decide_eq_true| ->%bool_decide_eq_true];
    repeat (progress (cbn; decide_bytes)); by rewrite app_nil_r.
Qed.

(** The digits of a positive number: a first digit that is not zero and
    digits after it. *)
Lemma to_uint_digits (p : positive) :
  ∃ c l, bs (NilZero.string_of_uint (Pos.to_uint p)) = c :: l
    ∧ isDigit c = true ∧ c ≠ "0"%char ∧ Forall (λ c, isDigit c = true) l.
Proof.
  pose proof (to_uint_head p) as Hh.
  destruct (Pos.to_uint p) as [|d|d|d|d|d|d|d|d|d|d]; try done;
    eexists _, _; (split; [reflexivity|]); split_and!; try done;
    apply string_of_uint_digits.
Qed.

Lemma scan_number_Itoa (i : Z) (rest : bytes) :
  delimited rest = true →
  scan_number (strconv.Itoa i ++ rest) = Some (strconv.Itoa i, rest).
Proof.
  intros Hrest. unfold strconv.Itoa. destruct i as [|p|p]; cbn [Z.to_int NilZero.string_of_int].
  - by apply scan_number_zero.
  - destruct (to_uint_digits p) as (c & l & -> & Hc & H0 & Hl).
    by apply scan_number_digits.
  - destruct (to_uint_digits p) as (c & l & Hp & Hc & H0 & Hl).
    cbn [bs list_ascii_of_string]. change (list_ascii_of_string ?s) with (bs s).
    rewrite Hp. by apply scan_number_neg.
Qed.

Lemma parse_value_Itoa (f : nat) (d : N) (i : Z) (rest : bytes) :
  delimited rest = true →
  parse_value (S f) d (strconv.Itoa i ++ rest) = Some (Number (strconv.Itoa i), rest).
Proof.
  intros Hrest. pose proof (scan_number_Itoa i rest Hrest) as Hn.
  assert (∃ c l, strconv.Itoa i = c :: l ∧ (isDigit c = true ∨ c = "-"%char)) as (c & l & Hi & Hc).
  { unfold strconv.Itoa. destruct i as [|p|p]; cbn [Z.to_int NilZero.string_of_int].
    - eexists _, _. split; [reflexivity|by left].
    - destruct (to_uint_digits p) as (c & l & -> & Hc & _).
      eexists _, _. split; [reflexivity|by left].
    - cbn [bs list_ascii_of_string].
      eexists _, _. split; [reflexivity|by right]. }
  rewrite Hi in *. cbn [app] in *. cbn [parse_value].
  assert (c ≠ dq ∧ c ≠ "["%char ∧ c ≠ "{"%char ∧ c ≠ "t"%char ∧ c ≠ "f"%char ∧ c ≠ "n"%char)
    as (? & ? & ? & ? & ? & ?).
  { destruct Hc as [Hc| ->]; [|done]. split_and!; intros ->; done. }
  rewrite !bool_decide_eq_false_2 by done. cbn [strings.HasPrefix bs list_ascii_of_string].
  rewrite !bool_decide_eq_false_2 by done. cbn [andb].
  by rewrite Hn.
Qed.

End JsonNumber.

Section JsonStruct.
Import json.

Lemma coerce_safe (s : bytes) :
  Forall (λ c, htmlSafeSet (code c) = true) s → coerce s = s.
Proof. intros Hs. by apply coerce_valid, Valid_safe. Qed.

Lemma skip_ws_not_space (c : ascii) (s : bytes) : isSpace c = false → skip_ws (c :: s) = c :: s.
Proof. intros Hc. cbn [skip_ws]. by rewrite Hc. Qed.

Lemma isDigit_not_space (c : ascii) : isDigit c = true → isSpace c = false.
Proof.
  assert (forallb (λ c : ascii, implb (isDigit c) (negb (isSpace c))) all_ascii = true) as Hall
    by (vm_compute; reflexivity).
  pose proof (ascii_forall _ Hall c) as Hc. cbn beta in Hc.
  intros Hd. rewrite Hd in Hc. by destruct (isSpace c).
Qed.

Lemma Itoa_head (i : Z) :
  ∃ c l, strconv.Itoa i = c :: l ∧ (isDigit c = true ∨ c = "-"%char).
Proof.
  unfold strconv.Itoa. destruct i as [|p|p]; cbn [Z.to_int NilZero.string_of_int].
  - eexists _, _. split; [reflexivity|by left].
  - destruct (to_uint_digits p) as (c & l & -> & Hc & _).
    eexists _, _. split; [reflexivity|by left].
  - cbn [bs list_ascii_of_string].
    eexists _, _. split; [reflexivity|by right].
Qed.

(** What the encoder writes for a field starts with a byte that is not
    white space. *)
Lemma fieldEncoder_head (v : fieldValue) (quoted : bool) :
  ∃ c e, fieldEncoder v quoted = c :: e ∧ isSpace c = false.
Proof.
  destruct v as [[s|]|[b|]|[i|]|[[|l]|]|[|l]], quoted;
    try (by eexists _, _); try (destruct b; by eexists _, _).
  cbn [fieldEncoder]. unfold intEncoder, mayAppendQuote. cbn [app].
  destruct (Itoa_head i) as (c & l & -> & [Hc| ->]); eexists _, _;
    (split; [reflexivity|]); [by apply isDigit_not_space|done].
Qed.

Lemma skip_ws_fieldEncoder (v : fieldValue) (quoted : bool) (rest : bytes) :
  skip_ws (fieldEncoder v quoted ++ rest) = fieldEncoder v quoted ++ rest.
Proof.
  destruct (fieldEncoder_head v quoted) as (c & e & -> & Hc).
  by apply skip_ws_not_space.
Qed.

Lemma skip_ws_delimited (rest : bytes) : delimited rest = true → skip_ws rest = rest.
Proof.
  destruct rest as [|c rest]; [done|]. cbn [delimited].
  intros [->%bool_decide_eq_true| ->%bool_decide_eq_true]%orb_true_iff; done.
Qed.

Lemma parse_value_strings (l : list bytes) (f : nat) (d : N) (rest : bytes) :
  length (sliceEncoder (Slice l)) < f →
  (N.succ d ≤ maxNestingDepth)%N →
  parse_value f d (sliceEncoder (Slice l) ++ rest) = Some (Array (String ∘ coerce <$> l), rest).
Proof.
  intros Hf Hd. destruct l as [|x l].
  { destruct f as [|f]; [cbn in Hf; lia|]. cbn [sliceEncoder arrayEncoder app bs list_ascii_of_string].
    cbn [parse_value]. decide_bytes. cbn iota.
    destruct (N.ltb_spec maxNestingDepth (N.succ d)) as [?|_]; [lia|].
    cbn [skip_ws]. change (isSpace "]") with false. cbn iota. by decide_bytes. }
  unfold sliceEncoder in *.
  pose proof (arrayEncoder_length (x :: l) 0) as Hlen.
  rewrite !length_app in Hf. cbn [bs list_ascii_of_string length] in Hf, Hlen.
  destruct f as [|[|f]]; [lia..|].
  cbn [arrayEncoder]. change (0 <? 0) with false. cbn iota.
  unfold stringEncoder at 1. cbn [bs list_ascii_of_string app].
  rewrite <- !app_assoc, appendString_cons.
  rewrite parse_value_array by done. rewrite <- appendString_cons.
  rewrite parse_value_string. cbn [mbind option_bind].
  assert (skip_ws (arrayEncoder (λ x, stringEncoder x false) 1 l ++ "]"%char :: rest)
          = arrayEncoder (λ x, stringEncoder x false) 1 l ++ "]"%char :: rest) as Hs.
  { destruct l; reflexivity. }
  cbn [app]. rewrite Hs.
  rewrite parse_elems_strings; [done|]. lia.
Qed.

Lemma parse_value_null (f : nat) (d : N) (rest : bytes) :
  parse_value (S f) d (bs "null" ++ rest) = Some (Null, rest).
Proof. cbn. decide_bytes. cbn. by rewrite HasPrefix_nil. Qed.

Lemma parse_value_bool (f : nat) (d : N) (b : bool) (rest : bytes) :
  parse_value (S f) d (strconv.FormatBool b ++ rest) = Some (Bool b, rest).
Proof. destruct b; cbn; decide_bytes; cbn; by rewrite HasPrefix_nil. Qed.

(** The value the parser reads where a field has been written. *)
Lemma parse_value_fieldEncoder (v : fieldValue) (quoted : bool) (f : nat) (d : N) (rest : bytes) :
  length (fieldEncoder v quoted) < f →
  (N.succ d ≤ maxNestingDepth)%N →
  delimited rest = true →
  parse_value f d (fieldEncoder v quoted ++ rest) = Some (wire v quoted, rest).
Proof.
  intros Hf Hd Hrest.
  destruct f as [|f]; [lia|].
  destruct v as [[s|]|[b|]|[i|]|[[|l]|]|[|l]]; cbn [fieldEncoder wire];
    try apply parse_value_null; try (by apply parse_value_strings).
  - unfold stringEncoder. destruct quoted; by rewrite parse_value_string.
  - unfold boolEncoder, mayAppendQuote. destruct quoted; [|by apply parse_value_bool].
    change ([] ++ [dq]) with [dq].
    change (([dq] ++ strconv.FormatBool b) ++ [dq]) with (q (strconv.FormatBool b)).
    rewrite <- (appendString_safe _ true) by apply FormatBool_safe.
    by rewrite parse_value_string, coerce_FormatBool.
  - unfold intEncoder, mayAppendQuote. destruct quoted.
    + change ([] ++ [dq]) with [dq].
      change (([dq] ++ strconv.Itoa i) ++ [dq]) with (q (strconv.Itoa i)).
      rewrite <- (appendString_safe _ true) by apply Itoa_safe.
      by rewrite parse_value_string, coerce_safe by apply Itoa_safe.
    + cbn [app]. by apply parse_value_Itoa.
Qed.

(** *** The members of an encoded struct *)

Lemma structEncoder_loop_written (fs : struct) (next : ascii) :
  structEncoder_loop next fs
  = (if written fs is [] then next else ","%char, writtenMembers next (written fs)).
Proof.
  revert next. induction fs as [|f fs IH]; intros next; [done|].
  cbn [structEncoder_loop]. unfold written in *. cbn [omap list_omap].
  destruct (ftag f) as [|name omitEmpty quoted]; [apply IH|].
  destruct (omitEmpty && isEmptyValue (fvalue f)); [apply IH|].
  rewrite IH. cbn [writtenMembers]. by destruct (omap _ fs).
Qed.

Lemma structEncoder_written (fs : struct) :
  structEncoder fs
  = match written fs with
    | [] => bs "{}"
    | ms => writtenMembers "{"%char ms ++ bs "}"
    end.
Proof.
  unfold structEncoder. rewrite structEncoder_loop_written.
  by destruct (written fs).
Qed.

Lemma delimited_writtenMembers (ms : list (bytes * bool * fieldValue)) (rest : bytes) :
  delimited (writtenMembers ","%char ms ++ "}"%char :: rest) = true.
Proof. destruct ms as [|[[name quoted] v] ms]; reflexivity. Qed.

Lemma parse_member_written (f : nat) (d : N) (name : bytes) (quoted : bool) (v : fieldValue)
    (rest : bytes) :
  length (fieldEncoder v quoted) + 1 < f →
  (N.succ d ≤ maxNestingDepth)%N →
  delimited rest = true →
  parse_member f d (appendString [] name true ++ bs ":" ++ fieldEncoder v quoted ++ rest)
  = Some ((coerce name, wire v quoted), rest).
Proof.
  intros Hf Hd Hrest. destruct f as [|f]; [lia|].
  rewrite appendString_cons. cbn [parse_member]. decide_bytes. cbn iota.
  rewrite scan_string_lit_appendString.
  cbn [mbind option_bind bs list_ascii_of_string app skip_ws].
  change (isSpace ":") with false. cbn iota. decide_bytes. cbn iota.
  rewrite skip_ws_fieldEncoder, parse_value_fieldEncoder by (done || lia). done.
Qed.

Lemma parse_members_written (ms : list (bytes * bool * fieldValue)) :
  ∀ (f : nat) (d : N) (rest : bytes),
  length (writtenMembers ","%char ms) < f →
  (N.succ d ≤ maxNestingDepth)%N →
  parse_members f d (writtenMembers ","%char ms ++ "}"%char :: rest)
  = Some ((λ '(name, quoted, v), (coerce name, wire v quoted)) <$> ms, rest).
Proof.
  induction ms as [|[[name quoted] v] ms IH]; intros f d rest Hf Hd.
  { destruct f; [lia|]. reflexivity. }
  destruct f as [|f]; [lia|].
  cbn [writtenMembers] in *. rewrite !length_app in Hf.
  unfold appendString at 1 in Hf. rewrite !length_app in Hf.
  cbn [bs list_ascii_of_string length] in Hf.
  cbn [app]. rewrite parse_members_comma.
  rewrite <- !app_assoc.
  rewrite appendString_cons, skip_ws_dq, <- appendString_cons.
  rewrite parse_member_written;
    [|lia|done|apply delimited_writtenMembers].
  cbn [mbind option_bind].
  rewrite skip_ws_delimited by apply delimited_writtenMembers.
  rewrite IH by (done || lia). done.
Qed.

(** The output of the struct encoder parses, to the object of the
    members written. *)
Lemma parse_struct (fs : struct) : parse (structEncoder fs) = Some (Object (members fs)).
Proof.
  rewrite structEncoder_written. unfold members.
  destruct (written fs) as [|[[name quoted] v] ms]; [reflexivity|].
  unfold parse.
  assert (length (fieldEncoder v quoted) + length (writtenMembers ","%char ms) + 4
          ≤ length (writtenMembers "{"%char ((name, quoted, v) :: ms) ++ bs "}")) as Hf.
  { cbn [writtenMembers]. rewrite !length_app. unfold appendString. rewrite !length_app.
    cbn [bs list_ascii_of_string length]. lia. }
  revert Hf. generalize (length (writtenMembers "{"%char ((name, quoted, v) :: ms) ++ bs "}")).
  intros f Hf. cbn [writtenMembers app skip_ws].
  change (isSpace "{") with false. cbn iota.
  rewrite <- !app_assoc.
  rewrite appendString_cons, parse_value_object, <- appendString_cons by done.
  rewrite parse_member_written; [|lia|done|apply delimited_writtenMembers].
  cbn [mbind option_bind bs list_ascii_of_string app].
  rewrite skip_ws_delimited by apply delimited_writtenMembers.
  rewrite parse_members_written by (done || lia). done.
Qed.

Lemma Unmarshal_map_members (fs : struct) :
  Unmarshal_map (structEncoder fs) ∅
  = (foldl (λ (m : gmap bytes bytes) kv, <[kv.1 := (string_elem kv.2).1]> m) ∅ (members fs),
     saved_error ((λ kv, (string_elem kv.2).2) <$> members fs)).
Proof. unfold Unmarshal_map. by rewrite parse_struct. Qed.

End JsonStruct.



Section StructMap.
Import json.

Lemma saved_error_existsb (l : list bool) :
  saved_error l = if existsb id l then Some UnmarshalTypeError else None.
Proof. reflexivity. Qed.

Lemma members_mismatch (fs : struct) :
  existsb id ((λ kv, (string_elem kv.2).2) <$> members fs) = existsb mismatch fs.
Proof.
  unfold members, written. induction fs as [|f fs IH]; [done|].
  cbn [omap list_omap existsb]. unfold mismatch at 1.
  destruct (ftag f) as [|name omitEmpty quoted]; [done|].
  destruct (omitEmpty && isEmptyValue (fvalue f)); [done|].
  cbn [fmap list_fmap existsb negb andb]. by rewrite IH.
Qed.


Lemma kvs_keys_sublist (fs : struct) : (kvs fs).*1 `sublist_of` keys fs.
Proof.
  unfold kvs, written, keys. induction fs as [|f fs IH]; [done|].
  cbn [omap list_omap].
  destruct (ftag f) as [|name omitEmpty quoted]; [done|].
  destruct (omitEmpty && isEmptyValue (fvalue f)); cbn [fmap list_fmap fst];
    (by apply sublist_skip) || (by apply sublist_cons).
Qed.

Lemma members_kvs (fs : struct) (m : gmap bytes bytes) :
  forallb utf8.Valid (keys fs) = true →
  foldl (λ (m : gmap bytes bytes) kv, <[kv.1 := (string_elem kv.2).1]> m) m (members fs)
  = foldl (λ (m : gmap bytes bytes) kv, <[kv.1 := kv.2]> m) m (kvs fs).
Proof.
  unfold members, kvs, written, keys. revert m.
  induction fs as [|f fs IH]; intros m Hv; [done|].
  cbn [omap list_omap] in *.
  destruct (ftag f) as [|name omitEmpty quoted]; [by apply IH|].
  cbn [forallb] in Hv. apply andb_true_iff in Hv as [Hname Hv].
  destruct (omitEmpty && isEmptyValue (fvalue f)); [by apply IH|].
  cbn [fmap list_fmap foldl fst snd]. rewrite coerce_valid by done. by apply IH.
Qed.

Lemma kvs_stored (fs : struct) (i : nat) (f : field) (name : bytes) (omitEmpty quoted : bool) :
  NoDup (keys fs) →
  fs !! i = Some f →
  ftag f = Tag name omitEmpty quoted →
  match stored f with
  | Some x => (name, x) ∈ kvs fs
  | None => name ∉ (kvs fs).*1
  end.
Proof.
  revert i. induction fs as [|f0 fs IH]; intros i Hnd Hi Ht; [done|].
  pose proof (kvs_keys_sublist fs) as Hsub.
  unfold kvs, written, keys in *. cbn [omap list_omap] in *.
  destruct i as [|i]; cbn in Hi.
  - simplify_eq. unfold stored. rewrite Ht in *.
    apply NoDup_cons in Hnd as [Hname Hnd].
    destruct (omitEmpty && isEmptyValue (fvalue f)).
    + intros Hin. apply Hname. by eapply elem_of_sublist.
    + cbn [fmap list_fmap]. apply list_elem_of_here.
  - assert (name ∈ omap (λ f, match ftag f with Tag n _ _ => Some n | Ignore => None end) fs)
      as Hin.
    { apply list_elem_of_omap. exists f. split; [by eapply list_elem_of_lookup_2|].
      by rewrite Ht. }
    assert (NoDup (omap (λ f, match ftag f with Tag n _ _ => Some n | Ignore => None end) fs)
            ∧ ∀ n o q', ftag f0 = Tag n o q' → n ≠ name) as [Hnd' Hne].
    { destruct (ftag f0) as [|n o q']; [done|].
      apply NoDup_cons in Hnd as [Hn Hnd]. split; [done|].
      intros ??? [= -> _ _] ->. done. }
    specialize (IH i Hnd' Hi Ht).
    destruct (ftag f0) as [|n o q'] eqn:Ht0; [done|].
    destruct (o && isEmptyValue (fvalue f0)); [done|].
    cbn [fmap list_fmap fst]. destruct (stored f).
    + by apply list_elem_of_further.
    + apply not_elem_of_cons. split; [|done]. intros ->. by eapply Hne.
Qed.

(** The map a struct decodes to after it has been encoded, field by
    field. *)
Lemma Unmarshal_map_lookup (fs : struct) (i : nat) (f : field) (name : bytes)
    (omitEmpty quoted : bool) :
  NoDup (keys fs) →
  forallb utf8.Valid (keys fs) = true →
  fs !! i = Some f →
  ftag f = Tag name omitEmpty quoted →
  (Unmarshal_map (structEncoder fs) ∅).1 !! name = stored f.
Proof.
  intros Hnd Hv Hi Ht. rewrite Unmarshal_map_members. cbn [fst].
  rewrite members_kvs by done.
  pose proof (kvs_stored fs i f name omitEmpty quoted Hnd Hi Ht) as Hs.
  assert (NoDup (kvs fs).*1) as Hnd'.
  { eapply sublist_NoDup; [done|apply kvs_keys_sublist]. }
  destruct (stored f) as [x|].
  - by apply foldl_insert_lookup.
  - by apply foldl_insert_lookup_None.
Qed.

Lemma Unmarshal_map_keys (fs : struct) (k : bytes) :
  forallb utf8.Valid (keys fs) = true →
  k ∉ keys fs → (Unmarshal_map (structEncoder fs) ∅).1 !! k = None.
Proof.
  intros Hv Hk. rewrite Unmarshal_map_members. cbn [fst].
  rewrite members_kvs by done. apply foldl_insert_lookup_None.
  intros Hin. apply Hk. eapply elem_of_sublist; [done|apply kvs_keys_sublist].
Qed.

Lemma Unmarshal_map_error (fs : struct) :
  (Unmarshal_map (structEncoder fs) ∅).2
  = if existsb mismatch fs then Some UnmarshalTypeError else None.
Proof.
  rewrite Unmarshal_map_members. cbn [snd].
  by rewrite saved_error_existsb, members_mismatch.
Qed.

Lemma GetQueryParams_existsb (fs : struct) :
  GetQueryParams fs
  = if existsb mismatch fs then inl UnmarshalTypeError
    else inr (Unmarshal_map (structEncoder fs) ∅).1.
Proof.
  unfold GetQueryParams, Marshal, Marshal_struct.
  pose proof (Unmarshal_map_error fs) as He.
  destruct (Unmarshal_map (structEncoder fs) ∅) as [res err]. cbn [fst snd] in *.
  rewrite He. by destruct (existsb mismatch fs).
Qed.

Lemma conventional_mismatch (f : field) : conventional f = true → mismatch f = false.
Proof.
  unfold conventional, mismatch.
  destruct (ftag f) as [|name [] []], (fvalue f) as [[?|]|[?|]|[?|]|?|?]; done.
Qed.

Lemma conventional_stored (f : field) :
  conventional f = true → stored f = json.coerce <$> (snd <$> entry f).
Proof.
  unfold conventional, stored, entry.
  destruct (ftag f) as [|name [] []], (fvalue f) as [[?|]|[?|]|[?|]|?|?]; try done.
  all: intros _; cbn;
    repeat match goal with
    | |- context [coerce_loop (length ?x) ?x] =>
      change (coerce_loop (length x) x) with (coerce x)
    end;
    first [done | by rewrite coerce_FormatBool | by rewrite coerce_safe by apply Itoa_safe].
Qed.

End StructMap.

Section StoredFields.
Import json.

Lemma stored_PtrString (name : bytes) (p : option bytes) :
  stored (Field (Tag name true false) (PtrString p)) = coerce <$> p.
Proof. by destruct p. Qed.

Lemma stored_PtrBool (name : bytes) (p : option bool) :
  stored (Field (Tag name true true) (PtrBool p)) = strconv.FormatBool <$> p.
Proof. by destruct p. Qed.

Lemma stored_PtrInt (name : bytes) (p : option Z) :
  stored (Field (Tag name true true) (PtrInt p)) = strconv.Itoa <$> p.
Proof. by destruct p. Qed.

Lemma mismatch_PtrString (name : bytes) (quoted : bool) (p : option bytes) :
  mismatch (Field (Tag name true quoted) (PtrString p)) = false.
Proof. by destruct p. Qed.

Lemma mismatch_PtrBool (name : bytes) (p : option bool) :
  mismatch (Field (Tag name true true) (PtrBool p)) = false.
Proof. by destruct p. Qed.

Lemma mismatch_PtrInt (name : bytes) (p : option Z) :
  mismatch (Field (Tag name true true) (PtrInt p)) = false.
Proof. by destruct p. Qed.

End StoredFields.

(** Rewrites the entries of fields that follow the convention. *)
Ltac stored_fields :=
  rewrite ?stored_PtrString, ?stored_PtrBool, ?stored_PtrInt.

Ltac mismatch_fields :=
  cbn [existsb];
  rewrite ?mismatch_PtrString, ?mismatch_PtrBool, ?mismatch_PtrInt; cbn [orb].

Section QueryParams.
Import json.

(** X1. GetQueryParams never fails on the syntax of what it has encoded. It
    returns a type error exactly when some field that is written is
    encoded as a value other than a string or null: a boolean or a
    number without the [string] option, or an array. *)
Theorem GetQueryParams_type_error (s : struct) :
  NoDup (keys s) →
  (GetQueryParams s = inl UnmarshalTypeError
   ↔ ∃ name quoted v, (name, quoted, v) ∈ written s
       ∧ match wire v quoted with String _ | Null => False | _ => True end)
  ∧ (GetQueryParams s = inl UnmarshalTypeError ∨ ∃ m, GetQueryParams s = inr m).
Proof.
  intros _. rewrite GetQueryParams_existsb. split.
  - assert (existsb mismatch s = true
            ↔ ∃ name quoted v, (name, quoted, v) ∈ written s
                ∧ match wire v quoted with String _ | Null => False | _ => True end) as <-.
    { rewrite existsb_exists. unfold written. split.
      - intros (f & Hf & Hm). unfold mismatch in Hm.
        destruct (ftag f) as [|name o quoted] eqn:Ht; [done|].
        exists name, quoted, (fvalue f). split.
        + apply list_elem_of_omap. exists f. split; [by apply list_elem_of_In|].
          rewrite Ht. by destruct (o && isEmptyValue (fvalue f)).
        + destruct (o && isEmptyValue (fvalue f)); [done|].
          by destruct (wire (fvalue f) quoted).
      - intros (name & quoted & v & Hin & Hw).
        apply list_elem_of_omap in Hin as (f & Hf & Hin).
        exists f. split; [by apply list_elem_of_In|]. unfold mismatch.
        destruct (ftag f) as [|n o q']; [done|].
        destruct (o && isEmptyValue (fvalue f)); [done|]. simplify_eq.
        by destruct (wire (fvalue f) quoted). }
    destruct (existsb mismatch s); split; done.
  - destruct (existsb mismatch s); [by left|right; by eexists].
Qed.

End QueryParams.

Section TypeErrorWitness.
Import json.

Lemma GetQueryParams_type_error_witness :
  GetQueryParams Examples.granted = inl UnmarshalTypeError.
Proof.
  destruct (GetQueryParams_type_error Examples.granted) as [[_ H] _].
  - apply (bool_decide_unpack _). vm_compute. reflexivity.
  - apply H. exists (bs "granted"), false, (PtrBool (Some true)).
    split; [apply list_elem_of_here|exact I].
Defined.

End TypeErrorWitness.

Section PermissionParams.
Import json GetUserPermissionParams.

Lemma GetUserPermissionParams_keys (v : t) :
  NoDup (keys (fields v)) ∧ forallb utf8.Valid (keys (fields v)) = true.
Proof. split; [apply (bool_decide_unpack _)|]; by vm_compute. Qed.

(** X2. [Granted] has no [string] option: once it is set, the query
    parameters of a [GetUserPermissionParams] cannot be built. Without it
    every field that is set is in the map under its key. *)
Theorem GetQueryParams_GetUserPermissionParams (v : t) :
  match Granted v with
  | Some _ => GetQueryParams v = inl UnmarshalTypeError
  | None =>
    ∃ m, GetQueryParams v = inr m
      ∧ m !! bs "scopeId" = coerce <$> ScopeID v
      ∧ m !! bs "resourceId" = coerce <$> ResourceID v
      ∧ m !! bs "owner" = coerce <$> Owner v
      ∧ m !! bs "requester" = coerce <$> Requester v
      ∧ m !! bs "granted" = None
      ∧ m !! bs "returnNames" = coerce <$> ReturnNames v
      ∧ m !! bs "first" = strconv.Itoa <$> First v
      ∧ m !! bs "max" = strconv.Itoa <$> Max v
  end.
Proof.
  assert (GetQueryParams v = GetQueryParams (fields v)) as ->.
  { cbv beta delta [GetQueryParams Marshal GetUserPermissionParams.Marshal Marshal_struct].
    reflexivity. }
  rewrite GetQueryParams_existsb.
  destruct (GetUserPermissionParams_keys v) as [Hnd Hv].
  pose proof (λ i f name o q' Hi Ht,
              Unmarshal_map_lookup (fields v) i f name o q' Hnd Hv Hi Ht) as Hm.
  assert (existsb mismatch (fields v) = if Granted v is Some _ then true else false) as ->.
  { unfold fields. mismatch_fields. by destruct (Granted v). }
  destruct (Granted v) as [b|] eqn:Hg; [done|].
  eexists. split; [done|].
  split_and!.
  - rewrite (Hm 0 _ _ _ _ eq_refl eq_refl). by stored_fields.
  - rewrite (Hm 1 _ _ _ _ eq_refl eq_refl). by stored_fields.
  - rewrite (Hm 2 _ _ _ _ eq_refl eq_refl). by stored_fields.
  - rewrite (Hm 3 _ _ _ _ eq_refl eq_refl). by stored_fields.
  - rewrite (Hm 4 _ _ _ _ eq_refl eq_refl). cbn [fvalue]. by rewrite Hg.
  - rewrite (Hm 5 _ _ _ _ eq_refl eq_refl). by stored_fields.
  - rewrite (Hm 6 _ _ _ _ eq_refl eq_refl). by stored_fields.
  - rewrite (Hm 7 _ _ _ _ eq_refl eq_refl). by stored_fields.
Qed.

End PermissionParams.

Section EventsParams.
Import json GetEventsParams.

Lemma GetEventsParams_keys (v : t) :
  NoDup (keys (fields v)) ∧ forallb utf8.Valid (keys (fields v)) = true.
Proof. split; [apply (bool_decide_unpack _)|]; by vm_compute. Qed.

(** X3. The event types are a plain slice of strings, written as an array:
    the query parameters of a [GetEventsParams] can be built only while
    [Type] is empty. *)
Theorem GetQueryParams_GetEventsParams (v : t) :
  match elems (Type_ v) with
  | _ :: _ => GetQueryParams v = inl UnmarshalTypeError
  | [] =>
    ∃ m, GetQueryParams v = inr m
      ∧ m !! bs "client" = coerce <$> Client v
      ∧ m !! bs "dateFrom" = coerce <$> DateFrom v
      ∧ m !! bs "dateTo" = coerce <$> DateTo v
      ∧ m !! bs "first" = strconv.Itoa <$> First v
      ∧ m !! bs "ipAddress" = coerce <$> IPAddress v
      ∧ m !! bs "max" = strconv.Itoa <$> Max v
      ∧ m !! bs "type" = None
      ∧ m !! bs "user" = coerce <$> UserID v
  end.
Proof.
  assert (GetQueryParams v = GetQueryParams (fields v)) as ->.
  { cbv beta delta [GetQueryParams Marshal GetEventsParams.Marshal Marshal_struct].
    reflexivity. }
  rewrite GetQueryParams_existsb.
  destruct (GetEventsParams_keys v) as [Hnd Hv].
  pose proof (λ i f name o q' Hi Ht,
              Unmarshal_map_lookup (fields v) i f name o q' Hnd Hv Hi Ht) as Hm.
  assert (existsb mismatch (fields v) = if elems (Type_ v) is [] then false else true) as ->.
  { unfold fields. mismatch_fields. by destruct (Type_ v) as [|[|x l]]. }
  destruct (elems (Type_ v)) as [|x l] eqn:Hty; [|done].
  eexists. split; [done|].
  split_and!.
  - rewrite (Hm 0 _ _ _ _ eq_refl eq_refl). by stored_fields.
  - rewrite (Hm 1 _ _ _ _ eq_refl eq_refl). by stored_fields.
  - rewrite (Hm 2 _ _ _ _ eq_refl eq_refl). by stored_fields.
  - rewrite (Hm 3 _ _ _ _ eq_refl eq_refl). by stored_fields.
  - rewrite (Hm 4 _ _ _ _ eq_refl eq_refl). by stored_fields.
  - rewrite (Hm 5 _ _ _ _ eq_refl eq_refl). by stored_fields.
  - rewrite (Hm 6 _ _ _ _ eq_refl eq_refl). unfold stored. cbn [ftag fvalue isEmptyValue andb].
    unfold len. by rewrite Hty.
  - rewrite (Hm 7 _ _ _ _ eq_refl eq_refl). by stored_fields.
Qed.

End EventsParams.

Section StringOption.
Import json.

(** X12. The [string] option on a field that is a string already: the entry
    is the JSON text of the string, with its quotes (and escapes), as the
    comment of [GetQueryParams] warns. *)
Theorem GetQueryParams_string_option (s : struct) (i : nat) (name : bytes) (omitEmpty : bool)
    (v : bytes) (m : gmap bytes bytes) :
  NoDup (keys s) →
  forallb utf8.Valid (keys s) = true →
  s !! i = Some (Field (Tag name omitEmpty true) (PtrString (Some v))) →
  GetQueryParams s = inr m →
  m !! name = Some (coerce (appendString [] v true))
  ∧ (Forall (λ c, htmlSafeSet (code c) = true) v → m !! name = Some (q v)).
Proof.
  intros Hnd Hv Hi Hm. rewrite GetQueryParams_existsb in Hm.
  destruct (existsb mismatch s); [done|]. simplify_eq.
  rewrite (Unmarshal_map_lookup s i _ name omitEmpty true Hnd Hv Hi eq_refl).
  unfold stored. cbn [ftag fvalue isEmptyValue].
  rewrite bool_decide_eq_false_2 by done. rewrite andb_false_r.
  cbn [wire string_elem fst]. split; [done|].
  intros Hs. rewrite appendString_safe by done. f_equal.
  apply coerce_valid, Valid_ascii. unfold q.
  apply Forall_app. split; [by repeat constructor|].
  apply Forall_app. split; [|by repeat constructor].
  eapply Forall_impl; [done|]. intros c Hc. by apply safe_code_lt.
Qed.

Lemma GetQueryParams_string_option_witness :
  NoDup (keys Examples.quoted_q)
  ∧ GetQueryParams Examples.quoted_q
    = inr {[ bs "q" := q (bs "a b") ]}
  ∧ ({[ bs "q" := q (bs "a b") ]} : gmap bytes bytes) !! bs "q" = Some (q (bs "a b")).
Proof.
  assert (NoDup (keys Examples.quoted_q)) as Hnd.
  { apply (bool_decide_unpack _). by vm_compute. }
  assert (GetQueryParams Examples.quoted_q
          = inr {[ bs "q" := q (bs "a b") ]}) as Hq.
  { by vm_compute. }
  split; [exact Hnd|]. split; [exact Hq|].
  apply (GetQueryParams_string_option _ 0 (bs "q") true (bs "a b") _ Hnd eq_refl eq_refl Hq).
  repeat constructor.
Defined.

End StringOption.

Section TokenOptionsForm.
Import json TokenOptions.

Lemma TokenOptions_keys_valid (v : t) : forallb utf8.Valid (keys (fields v)) = true.
Proof. by vm_compute. Qed.

Lemma FormData_pair (t0 : t) :
  FormData t0 = ((FormData t0).1, (Unmarshal_map (structEncoder (fields (FormData t0).1)) ∅).1).
Proof. reflexivity. Qed.

Lemma FormData_snd (t0 : t) :
  (FormData t0).2 = (Unmarshal_map (structEncoder (fields (FormData t0).1)) ∅).1.
Proof. reflexivity. Qed.

Lemma GetQueryParams_TokenOptions (v : t) : GetQueryParams v = GetQueryParams (fields v).
Proof.
  cbv beta delta [GetQueryParams Marshal TokenOptions.Marshal Marshal_struct]. reflexivity.
Qed.

Lemma FormData_spec (t0 : t) :
  ∃ t3 m, FormData t0 = (t3, m)
    ∧ t3 = set_ResponseType
             (set_Scope t0
                (if NilOrEmptySlice (Scopes t0) then Scope t0
                 else Some (strings.Join (deref (Scopes t0)) (bs " "))))
             (if NilOrEmpty
                   (if NilOrEmptySlice (ResponseTypes t0) then ResponseType t0
                    else Some (strings.Join (deref (ResponseTypes t0)) (bs " ")))
              then Some (bs "token")
              else if NilOrEmptySlice (ResponseTypes t0) then ResponseType t0
                   else Some (strings.Join (deref (ResponseTypes t0)) (bs " ")))
    ∧ m = (Unmarshal_map (structEncoder (fields t3)) ∅).1.
Proof.
  exists (FormData t0).1, (FormData t0).2. split; [by destruct (FormData t0)|].
  split; [apply FormData_receiver|reflexivity].
Qed.

Lemma NilOrEmptySlice_set (t0 : t) (x y : option bytes) :
  Scopes (set_ResponseType (set_Scope t0 x) y) = Scopes t0
  ∧ ResponseTypes (set_ResponseType (set_Scope t0 x) y) = ResponseTypes t0
  ∧ Scope (set_ResponseType (set_Scope t0 x) y) = x
  ∧ ResponseType (set_ResponseType (set_Scope t0 x) y) = y.
Proof. done. Qed.

Lemma set_set (t0 : t) (x y x' y' : option bytes) :
  set_ResponseType (set_Scope (set_ResponseType (set_Scope t0 x) y) x') y'
  = set_ResponseType (set_Scope t0 x') y'.
Proof. done. Qed.

(** X8. A second call of [FormData] on the receiver the first call has
    left returns the same map and leaves the receiver as it is. *)
Theorem FormData_idempotent (t0 : t) : FormData (FormData t0).1 = FormData t0.
Proof.
  assert ((FormData (FormData t0).1).1 = (FormData t0).1) as Hr.
  { rewrite (FormData_receiver (FormData t0).1). rewrite (FormData_receiver t0).
    cbv zeta.
    destruct (NilOrEmptySlice_set t0
                (if NilOrEmptySlice (Scopes t0) then Scope t0
                 else Some (strings.Join (deref (Scopes t0)) (bs " ")))
                (if NilOrEmpty
                      (if NilOrEmptySlice (ResponseTypes t0) then ResponseType t0
                       else Some (strings.Join (deref (ResponseTypes t0)) (bs " ")))
                 then Some (bs "token")
                 else if NilOrEmptySlice (ResponseTypes t0) then ResponseType t0
                      else Some (strings.Join (deref (ResponseTypes t0)) (bs " "))))
      as (-> & -> & -> & ->).
    rewrite set_set. f_equal; [f_equal|].
    - by destruct (NilOrEmptySlice (Scopes t0)).
    - destruct (NilOrEmptySlice (ResponseTypes t0)) eqn:H1.
      + by destruct (ResponseType t0) as [[|c r]|].
      + by destruct (NilOrEmpty (Some _)) eqn:H2; rewrite ?H2. }
  rewrite (FormData_pair (FormData t0).1), Hr. symmetry. apply FormData_pair.
Qed.

(** X9. The errors [FormData] drops do not arise: the map is the one
    [GetQueryParams] returns for the receiver after the call. The fields
    other than the scope and the response type are passed as they are,
    each under its key. *)
Theorem FormData_fields (t0 : t) :
  GetQueryParams (FormData t0).1 = inr (FormData t0).2
  ∧ (FormData t0).2 !! bs "client_id" = coerce <$> ClientID t0
  ∧ (FormData t0).2 !! bs "grant_type" = coerce <$> GrantType t0
  ∧ (FormData t0).2 !! bs "refresh_token" = coerce <$> RefreshToken t0
  ∧ (FormData t0).2 !! bs "permission" = coerce <$> Permission t0
  ∧ (FormData t0).2 !! bs "username" = coerce <$> Username t0
  ∧ (FormData t0).2 !! bs "password" = coerce <$> Password t0
  ∧ (FormData t0).2 !! bs "totp" = coerce <$> Totp t0
  ∧ (FormData t0).2 !! bs "code" = coerce <$> Code t0
  ∧ (FormData t0).2 !! bs "redirect_uri" = coerce <$> RedirectURI t0
  ∧ (FormData t0).2 !! bs "client_assertion_type" = coerce <$> ClientAssertionType t0
  ∧ (FormData t0).2 !! bs "client_assertion" = coerce <$> ClientAssertion t0
  ∧ (FormData t0).2 !! bs "subject_token" = coerce <$> SubjectToken t0
  ∧ (FormData t0).2 !! bs "requested_subject" = coerce <$> RequestedSubject t0
  ∧ (FormData t0).2 !! bs "audience" = coerce <$> Audience t0
  ∧ (FormData t0).2 !! bs "requested_token_type" = coerce <$> RequestedTokenType t0.
Proof.
  destruct (FormData_spec t0) as (t3 & m & Heq & Hr & Hm').
  generalize dependent (FormData t0). intros ? ->. cbn [fst snd]. subst m.
  pose proof (λ i f name o q' Hi Ht,
              Unmarshal_map_lookup (fields t3) i f name o q'
                (TokenOptions_keys t3) (TokenOptions_keys_valid t3) Hi Ht) as Hm.
  split.
  { rewrite GetQueryParams_TokenOptions, GetQueryParams_existsb.
    assert (existsb mismatch (fields t3) = false) as ->; [|done].
    unfold fields. by mismatch_fields. }
  split_and!.
  - rewrite (Hm 0 _ _ _ _ eq_refl eq_refl). stored_fields. cbn [fvalue]. rewrite Hr. by destruct t0.
  - rewrite (Hm 2 _ _ _ _ eq_refl eq_refl). stored_fields. cbn [fvalue]. rewrite Hr. by destruct t0.
  - rewrite (Hm 3 _ _ _ _ eq_refl eq_refl). stored_fields. cbn [fvalue]. rewrite Hr. by destruct t0.
  - rewrite (Hm 8 _ _ _ _ eq_refl eq_refl). stored_fields. cbn [fvalue]. rewrite Hr. by destruct t0.
  - rewrite (Hm 9 _ _ _ _ eq_refl eq_refl). stored_fields. cbn [fvalue]. rewrite Hr. by destruct t0.
  - rewrite (Hm 10 _ _ _ _ eq_refl eq_refl). stored_fields. cbn [fvalue]. rewrite Hr. by destruct t0.
  - rewrite (Hm 11 _ _ _ _ eq_refl eq_refl). stored_fields. cbn [fvalue]. rewrite Hr. by destruct t0.
  - rewrite (Hm 12 _ _ _ _ eq_refl eq_refl). stored_fields. cbn [fvalue]. rewrite Hr. by destruct t0.
  - rewrite (Hm 13 _ _ _ _ eq_refl eq_refl). stored_fields. cbn [fvalue]. rewrite Hr. by destruct t0.
  - rewrite (Hm 14 _ _ _ _ eq_refl eq_refl). stored_fields. cbn [fvalue]. rewrite Hr. by destruct t0.
  - rewrite (Hm 15 _ _ _ _ eq_refl eq_refl). stored_fields. cbn [fvalue]. rewrite Hr. by destruct t0.
  - rewrite (Hm 16 _ _ _ _ eq_refl eq_refl). stored_fields. cbn [fvalue]. rewrite Hr. by destruct t0.
  - rewrite (Hm 17 _ _ _ _ eq_refl eq_refl). stored_fields. cbn [fvalue]. rewrite Hr. by destruct t0.
  - rewrite (Hm 18 _ _ _ _ eq_refl eq_refl). stored_fields. cbn [fvalue]. rewrite Hr. by destruct t0.
  - rewrite (Hm 19 _ _ _ _ eq_refl eq_refl). stored_fields. cbn [fvalue]. rewrite Hr. by destruct t0.
Qed.

End TokenOptionsForm.

Section AuthorizationForm.
Import json AuthorizationParameters.

Lemma AuthorizationParameters_keys (v : t) :
  NoDup (keys (fields v)) ∧ forallb utf8.Valid (keys (fields v)) = true.
Proof. split; [apply (bool_decide_unpack _)|]; by vm_compute. Qed.

(** X10. [AuthorizationParameters.FormData] drops no error: it returns the
    map of [GetQueryParams]. Every field that is set is in it under its
    key; the key of [ResponseType] is [code], and there is never a
    [response_type] entry. *)
Theorem AuthorizationParameters_FormData (p : t) :
  GetQueryParams p = inr (FormData p)
  ∧ FormData p !! bs "code" = coerce <$> ResponseType p
  ∧ FormData p !! bs "client_id" = coerce <$> ClientID p
  ∧ FormData p !! bs "scope" = coerce <$> Scope p
  ∧ FormData p !! bs "redirect_uri" = coerce <$> RedirectURI p
  ∧ FormData p !! bs "state" = coerce <$> State p
  ∧ FormData p !! bs "nonce" = coerce <$> Nonce p
  ∧ FormData p !! bs "id_token_hint" = coerce <$> IDTokenHint p
  ∧ FormData p !! bs "response_type" = None.
Proof.
  assert (GetQueryParams p = GetQueryParams (fields p)) as ->.
  { cbv beta delta [GetQueryParams Marshal AuthorizationParameters.Marshal Marshal_struct].
    reflexivity. }
  assert (FormData p = (Unmarshal_map (structEncoder (fields p)) ∅).1) as ->.
  { cbv beta delta [FormData Marshal AuthorizationParameters.Marshal Marshal_struct].
    reflexivity. }
  destruct (AuthorizationParameters_keys p) as [Hnd Hv].
  pose proof (λ i f name o q' Hi Ht,
              Unmarshal_map_lookup (fields p) i f name o q' Hnd Hv Hi Ht) as Hm.
  split.
  { rewrite GetQueryParams_existsb.
    assert (existsb mismatch (fields p) = false) as ->; [|done].
    unfold fields. by mismatch_fields. }
  split_and!.
  - rewrite (Hm 0 _ _ _ _ eq_refl eq_refl). by stored_fields.
  - rewrite (Hm 1 _ _ _ _ eq_refl eq_refl). by stored_fields.
  - rewrite (Hm 2 _ _ _ _ eq_refl eq_refl). by stored_fields.
  - rewrite (Hm 3 _ _ _ _ eq_refl eq_refl). by stored_fields.
  - rewrite (Hm 4 _ _ _ _ eq_refl eq_refl). by stored_fields.
  - rewrite (Hm 5 _ _ _ _ eq_refl eq_refl). by stored_fields.
  - rewrite (Hm 6 _ _ _ _ eq_refl eq_refl). by stored_fields.
  - apply Unmarshal_map_keys; [done|]. apply (bool_decide_unpack _). by vm_compute.
Qed.

End AuthorizationForm.

Section InviteForm.
Import json OrganizationInviteUserParams.

Lemma OrganizationInviteUserParams_keys (v : t) :
  NoDup (keys (fields v)) ∧ forallb utf8.Valid (keys (fields v)) = true.
Proof. split; [apply (bool_decide_unpack _)|]; by vm_compute. Qed.

(** X11. [OrganizationInviteUserParams.FormData] returns the map of
    [GetQueryParams]: the three fields under their keys, those that are
    set, and no other entry. *)
Theorem OrganizationInviteUserParams_FormData (v : t) :
  GetQueryParams v = inr (FormData v)
  ∧ FormData v !! bs "email" = coerce <$> Email v
  ∧ FormData v !! bs "firstName" = coerce <$> FirstName v
  ∧ FormData v !! bs "lastName" = coerce <$> LastName v
  ∧ ∀ k, k ∉ [bs "email"; bs "firstName"; bs "lastName"] → FormData v !! k = None.
Proof.
  assert (GetQueryParams v = GetQueryParams (fields v)) as ->.
  { cbv beta delta [GetQueryParams Marshal OrganizationInviteUserParams.Marshal Marshal_struct].
    reflexivity. }
  assert (FormData v = (Unmarshal_map (structEncoder (fields v)) ∅).1) as ->.
  { cbv beta delta [FormData Marshal OrganizationInviteUserParams.Marshal Marshal_struct].
    reflexivity. }
  destruct (OrganizationInviteUserParams_keys v) as [Hnd Hv].
  pose proof (λ i f name o q' Hi Ht,
              Unmarshal_map_lookup (fields v) i f name o q' Hnd Hv Hi Ht) as Hm.
  split.
  { rewrite GetQueryParams_existsb.
    assert (existsb mismatch (fields v) = false) as ->; [|done].
    unfold fields. by mismatch_fields. }
  split_and!.
  - rewrite (Hm 0 _ _ _ _ eq_refl eq_refl). by stored_fields.
  - rewrite (Hm 1 _ _ _ _ eq_refl eq_refl). by stored_fields.
  - rewrite (Hm 2 _ _ _ _ eq_refl eq_refl). by stored_fields.
  - intros k Hk. by apply Unmarshal_map_keys.
Qed.

End InviteForm.

Section RequestingPartyForm.
Import json RequestingPartyTokenOptions.

Lemma RequestingPartyTokenOptions_keys (v : t) :
  NoDup (keys (fields v)) ∧ forallb utf8.Valid (keys (fields v)) = true.
Proof. split; [apply (bool_decide_unpack _)|]; by vm_compute. Qed.

Lemma GetQueryParams_RequestingPartyTokenOptions (v : t) :
  GetQueryParams v = GetQueryParams (fields v).
Proof.
  cbv beta delta [GetQueryParams Marshal RequestingPartyTokenOptions.Marshal Marshal_struct].
  reflexivity.
Qed.

(** The receiver when [json.Marshal(t)] is reached, and the map. *)
Lemma RequestingPartyTokenOptions_FormData_spec (t0 : t) :
  ∃ t2 m, FormData t0 = (t2, m)
    ∧ t2 = set_ResponseIncludeResourceName
             (set_GrantType t0
                (if NilOrEmpty (GrantType t0) then Some uma_ticket else GrantType t0))
             (Some (default true (ResponseIncludeResourceName t0)))
    ∧ m = (Unmarshal_map (structEncoder (fields t2)) ∅).1.
Proof.
  exists (FormData t0).1, (FormData t0).2. split; [by destruct (FormData t0)|].
  split; [|reflexivity].
  unfold FormData, StringP, BoolP. cbn [fst].
  destruct t0 as [g ? ? ? ? ? ? ? ? r ? ? ? ?]. cbn [GrantType ResponseIncludeResourceName].
  destruct (NilOrEmpty g);
    cbv [set_GrantType set_ResponseIncludeResourceName GrantType ResponseIncludeResourceName
         Ticket ClaimToken ClaimTokenFormat RPT Permissions PermissionResourceFormat
         PermissionResourceMatchingURI Audience ResponsePermissionsLimit SubmitRequest
         ResponseMode SubjectToken];
    destruct r; reflexivity.
Qed.

Lemma mismatch_limit (name : bytes) (p : option Z) :
  mismatch (Field (Tag name true false) (PtrInt p)) = if p is Some _ then true else false.
Proof. by destruct p. Qed.

Lemma stored_limit (name : bytes) (p : option Z) :
  stored (Field (Tag name true false) (PtrInt p)) = if p is Some _ then Some [] else None.
Proof. by destruct p. Qed.

(** X5. [FormData] fills in the grant type of a requesting party token when
    none is given, or an empty one, and asks for resource names unless
    the caller has decided: both entries are always in the map, and the
    receiver keeps the two values, changed in these two fields and in no
    other. *)
Theorem RequestingPartyTokenOptions_FormData_defaults (t0 : t) :
  GrantType (FormData t0).1
  = Some (if NilOrEmpty (GrantType t0) then uma_ticket else default [] (GrantType t0))
  ∧ ResponseIncludeResourceName (FormData t0).1
    = Some (default true (ResponseIncludeResourceName t0))
  ∧ (FormData t0).1
    = set_ResponseIncludeResourceName
        (set_GrantType t0 (GrantType (FormData t0).1))
        (ResponseIncludeResourceName (FormData t0).1)
  ∧ (FormData t0).2 !! bs "grant_type"
    = Some (if NilOrEmpty (GrantType t0) then uma_ticket
            else coerce (default [] (GrantType t0)))
  ∧ (FormData t0).2 !! bs "response_include_resource_name"
    = Some (strconv.FormatBool (default true (ResponseIncludeResourceName t0))).
Proof.
  destruct (RequestingPartyTokenOptions_FormData_spec t0) as (t2 & m & Heq & Hr & Hm').
  generalize dependent (FormData t0). intros ? ->. cbn [fst snd]. subst m.
  destruct (RequestingPartyTokenOptions_keys t2) as [Hnd Hv].
  pose proof (λ i f name o q' Hi Ht,
              Unmarshal_map_lookup (fields t2) i f name o q' Hnd Hv Hi Ht) as Hm.
  assert (GrantType t2
          = Some (if NilOrEmpty (GrantType t0) then uma_ticket else default [] (GrantType t0)))
    as Hg.
  { rewrite Hr. destruct t0 as [[[|c g]|] ? ? ? ? ? ? ? ? ? ? ? ? ?]; reflexivity. }
  assert (ResponseIncludeResourceName t2 = Some (default true (ResponseIncludeResourceName t0)))
    as Hi.
  { rewrite Hr. by destruct t0. }
  split_and!.
  - done.
  - done.
  - rewrite Hg, Hi. rewrite Hr.
    destruct t0 as [[[|c g]|] ? ? ? ? ? ? ? ? ? ? ? ? ?]; reflexivity.
  - rewrite (Hm 0 _ _ _ _ eq_refl eq_refl). stored_fields. cbn [fvalue]. rewrite Hg.
    cbn [fmap option_fmap option_map]. by destruct (GrantType t0) as [[|c g]|].
  - rewrite (Hm 9 _ _ _ _ eq_refl eq_refl). stored_fields. cbn [fvalue]. by rewrite Hi.
Qed.

(** X6. The other fields are passed as they are, booleans as [true] or
    [false]; [Permissions] has no entry, and no key outside the tags of
    the struct is in the map. *)
Theorem RequestingPartyTokenOptions_FormData_fields (t0 : t) :
  (FormData t0).2 !! bs "ticket" = coerce <$> Ticket t0
  ∧ (FormData t0).2 !! bs "claim_token" = coerce <$> ClaimToken t0
  ∧ (FormData t0).2 !! bs "claim_token_format" = coerce <$> ClaimTokenFormat t0
  ∧ (FormData t0).2 !! bs "rpt" = coerce <$> RPT t0
  ∧ (FormData t0).2 !! bs "permission_resource_format" = coerce <$> PermissionResourceFormat t0
  ∧ (FormData t0).2 !! bs "permission_resource_matching_uri"
    = strconv.FormatBool <$> PermissionResourceMatchingURI t0
  ∧ (FormData t0).2 !! bs "audience" = coerce <$> Audience t0
  ∧ (FormData t0).2 !! bs "submit_request" = strconv.FormatBool <$> SubmitRequest t0
  ∧ (FormData t0).2 !! bs "response_mode" = coerce <$> ResponseMode t0
  ∧ (FormData t0).2 !! bs "subject_token" = coerce <$> SubjectToken t0
  ∧ ∀ k, k ∉ keys (fields t0) → (FormData t0).2 !! k = None.
Proof.
  destruct (RequestingPartyTokenOptions_FormData_spec t0) as (t2 & m & Heq & Hr & Hm').
  generalize dependent (FormData t0). intros ? ->. cbn [fst snd]. subst m.
  destruct (RequestingPartyTokenOptions_keys t2) as [Hnd Hv].
  pose proof (λ i f name o q' Hi Ht,
              Unmarshal_map_lookup (fields t2) i f name o q' Hnd Hv Hi Ht) as Hm.
  split_and!.
  - rewrite (Hm 1 _ _ _ _ eq_refl eq_refl). stored_fields. cbn [fvalue]. rewrite Hr. by destruct t0.
  - rewrite (Hm 2 _ _ _ _ eq_refl eq_refl). stored_fields. cbn [fvalue]. rewrite Hr. by destruct t0.
  - rewrite (Hm 3 _ _ _ _ eq_refl eq_refl). stored_fields. cbn [fvalue]. rewrite Hr. by destruct t0.
  - rewrite (Hm 4 _ _ _ _ eq_refl eq_refl). stored_fields. cbn [fvalue]. rewrite Hr. by destruct t0.
  - rewrite (Hm 6 _ _ _ _ eq_refl eq_refl). stored_fields. cbn [fvalue]. rewrite Hr. by destruct t0.
  - rewrite (Hm 7 _ _ _ _ eq_refl eq_refl). stored_fields. cbn [fvalue]. rewrite Hr. by destruct t0.
  - rewrite (Hm 8 _ _ _ _ eq_refl eq_refl). stored_fields. cbn [fvalue]. rewrite Hr. by destruct t0.
  - rewrite (Hm 11 _ _ _ _ eq_refl eq_refl). stored_fields. cbn [fvalue]. rewrite Hr. by destruct t0.
  - rewrite (Hm 12 _ _ _ _ eq_refl eq_refl). stored_fields. cbn [fvalue]. rewrite Hr. by destruct t0.
  - rewrite (Hm 13 _ _ _ _ eq_refl eq_refl). stored_fields. cbn [fvalue]. rewrite Hr. by destruct t0.
  - intros k Hk. by apply Unmarshal_map_keys.
Qed.

(** X4. [ResponsePermissionsLimit] is written as a number, which a map of
    strings cannot hold: once the limit is set its entry is the empty
    string, whatever the number, and the error [FormData] drops is the
    type error [GetQueryParams] returns for the same receiver. *)
Theorem RequestingPartyTokenOptions_FormData_limit (t0 : t) :
  match ResponsePermissionsLimit t0 with
  | Some _ =>
    (FormData t0).2 !! bs "response_permissions_limit" = Some []
    ∧ GetQueryParams (FormData t0).1 = inl UnmarshalTypeError
  | None =>
    (FormData t0).2 !! bs "response_permissions_limit" = None
    ∧ GetQueryParams (FormData t0).1 = inr (FormData t0).2
  end.
Proof.
  destruct (RequestingPartyTokenOptions_FormData_spec t0) as (t2 & m & Heq & Hr & Hm').
  generalize dependent (FormData t0). intros ? ->. cbn [fst snd]. subst m.
  destruct (RequestingPartyTokenOptions_keys t2) as [Hnd Hv].
  pose proof (Unmarshal_map_lookup (fields t2) 10 _ _ _ _ Hnd Hv eq_refl eq_refl) as Hm.
  rewrite stored_limit in Hm. cbn [fvalue] in Hm.
  rewrite GetQueryParams_RequestingPartyTokenOptions, GetQueryParams_existsb.
  assert (existsb mismatch (fields t2)
          = if ResponsePermissionsLimit t2 is Some _ then true else false) as ->.
  { unfold fields. mismatch_fields. rewrite mismatch_limit.
    by destruct (ResponsePermissionsLimit t2). }
  assert (ResponsePermissionsLimit t2 = ResponsePermissionsLimit t0) as Hl.
  { rewrite Hr. by destruct t0. }
  rewrite Hl in *. by destruct (ResponsePermissionsLimit t0).
Qed.

(** X7. A second call of [FormData] returns the same map and leaves the
    receiver as it is. *)
Theorem RequestingPartyTokenOptions_FormData_idempotent (t0 : t) :
  FormData (FormData t0).1 = FormData t0.
Proof.
  destruct (RequestingPartyTokenOptions_FormData_spec t0) as (t2 & m & Heq & Hr & Hm).
  destruct (RequestingPartyTokenOptions_FormData_spec t2) as (t2' & m' & Heq' & Hr' & Hm').
  generalize dependent (FormData t0). intros ? ->. cbn [fst]. rewrite Heq'.
  assert (t2' = t2) as ->; [|by subst].
  rewrite Hr', Hr.
  destruct t0 as [[[|c g]|] ? ? ? ? ? ? ? ? [r|] ? ? ? ?]; reflexivity.
Qed.

End RequestingPartyForm.

Section PolicyConfig.
Import PolicyRepresentation.

Lemma assignments_keys (p : t) :
  (assignments p).*2
  = [ bs "clients"; bs "roles"; bs "code"; bs "users"; bs "applyPolicies"; bs "groups";
      bs "groupsClaim"; bs "nbf"; bs "noa"; bs "dayMonth"; bs "dayMonthEnd"; bs "month";
      bs "monthEnd"; bs "year"; bs "yearEnd"; bs "hour"; bs "hourEnd"; bs "minute";
      bs "minuteEnd" ].
Proof. reflexivity. Qed.

Lemma assignments_NoDup (p : t) : NoDup (assignments p).*2.
Proof. rewrite assignments_keys. apply (bool_decide_unpack _). by vm_compute. Qed.

Lemma assigned_elem (l : list (option bytes * bytes)) (v k : bytes) :
  (Some v, k) ∈ l → (k, v) ∈ assigned l.
Proof. intros Hin. apply list_elem_of_omap. by exists (Some v, k). Qed.

Lemma assigned_nil (l : list (option bytes * bytes)) :
  assigned l = [] ↔ ∀ v k, (Some v, k) ∉ l.
Proof.
  split.
  - intros Hl v k Hin. apply assigned_elem in Hin. rewrite Hl in Hin.
    by apply elem_of_nil in Hin.
  - intros Hl. induction l as [|[[v|] k] l IH]; [done|..].
    + exfalso. apply (Hl v k). apply list_elem_of_here.
    + cbn. apply IH. intros v k' Hin. apply (Hl v k'). by apply list_elem_of_further.
Qed.

Lemma assigned_unset (l : list (option bytes * bytes)) (k : bytes) :
  NoDup l.*2 → (None, k) ∈ l → k ∉ (assigned l).*1.
Proof.
  intros Hnd Hin. apply assigned_not_in. intros v Hv.
  induction l as [|[v' k'] l IH]; [by apply elem_of_nil in Hin|].
  cbn in Hnd. apply NoDup_cons in Hnd as [Hk Hnd].
  apply elem_of_cons in Hin as [Hin|Hin]; apply elem_of_cons in Hv as [Hv|Hv].
  - congruence.
  - injection Hin as <- <-. apply Hk. apply list_elem_of_fmap. by exists (Some v, k).
  - injection Hv as <- <-. apply Hk. apply list_elem_of_fmap. by exists (None, k).
  - by apply IH.
Qed.

(** The entry of each key [ToConfig] handles, after the call. *)
Lemma ToConfig_lookup (p : t) :
  Config p ≠ Some nil_map →
  ∃ p', ToConfig p = Return p'
    ∧ ∀ v k, (v, k) ∈ assignments p →
        config_of p' !! k = match v with Some v => Some v | None => config_of p !! k end.
Proof.
  intros Hc. destruct (ToConfig_config p Hc) as (p' & Hp' & _ & Hcfg).
  exists p'. split; [done|]. intros v k Hin. rewrite Hcfg. destruct v as [v|].
  - apply foldl_insert_lookup_in; [apply assigned_NoDup|by apply assigned_elem].
  - apply foldl_insert_lookup_base, assigned_unset; [apply assignments_NoDup|done].
Qed.

(** X13. [ToConfig] panics exactly when [Config] points to a nil map and some
    kind-specific field is set, so that an entry would be assigned.
    When it returns, [Config] is not nil. *)
Theorem ToConfig_panic (p : t) :
  (ToConfig p = Panic ↔ Config p = Some nil_map ∧ ∃ v k, (Some v, k) ∈ assignments p)
  ∧ (∀ p', ToConfig p = Return p' → Config p' ≠ None).
Proof.
  rewrite ToConfig_cases. split.
  - destruct (Config p) as [[|m]|] eqn:Hc.
    + destruct (assigned (assignments p)) as [|[k v] l] eqn:Ha.
      * split; [done|]. intros [_ (v & k & Hin)].
        pose proof (proj1 (assigned_nil _) Ha) as Hn. by apply Hn in Hin.
      * split; [|done]. intros _. split; [done|].
        assert ((k, v) ∈ assigned (assignments p)) as Hin by (rewrite Ha; apply list_elem_of_here).
        apply list_elem_of_omap in Hin as ([[v'|] k'] & Hin & Heq); cbn in Heq; simplify_eq.
        by exists v, k.
    + split; [done|]. by intros [? _].
    + split; [done|]. by intros [? _].
  - intros p' Hp'. destruct (Config p) as [[|m]|] eqn:Hc.
    + destruct (assigned (assignments p)); simplify_eq. by rewrite Hc.
    + apply (f_equal (λ o, if o is Return x then Config x else None)) in Hp'.
      cbn [Config set_Config] in Hp'. by rewrite <- Hp'.
    + apply (f_equal (λ o, if o is Return x then Config x else None)) in Hp'.
      cbn [Config set_Config] in Hp'. by rewrite <- Hp'.
Qed.

(** X14. [ToConfig] adds or overwrites entries under its nineteen keys and
    does nothing else to the configuration: every other key keeps its
    entry, and no key is removed. *)
Theorem ToConfig_frame (p : t) :
  Config p ≠ Some nil_map →
  ∃ p', ToConfig p = Return p'
    ∧ (∀ k, k ∉ [ bs "clients"; bs "roles"; bs "code"; bs "users"; bs "applyPolicies";
                  bs "groups"; bs "groupsClaim"; bs "nbf"; bs "noa"; bs "dayMonth";
                  bs "dayMonthEnd"; bs "month"; bs "monthEnd"; bs "year"; bs "yearEnd";
                  bs "hour"; bs "hourEnd"; bs "minute"; bs "minuteEnd" ] →
            config_of p' !! k = config_of p !! k)
    ∧ dom (config_of p) ⊆ dom (config_of p').
Proof.
  intros Hc. destruct (ToConfig_config p Hc) as (p' & Hp' & _ & Hcfg).
  exists p'. split; [done|]. rewrite Hcfg. split.
  - intros k Hk. apply foldl_insert_lookup_base. intros Hin. apply Hk.
    rewrite <- (assignments_keys p).
    eapply elem_of_sublist; [done|apply assigned_keys_sublist].
  - intros k [v Hv]%elem_of_dom. apply elem_of_dom.
    destruct (decide (k ∈ (assigned (assignments p)).*1)) as [Hin|Hin].
    + apply list_elem_of_fmap in Hin as ([k' v'] & -> & Hin).
      exists v'. apply foldl_insert_lookup_in; [apply assigned_NoDup|done].
    + exists v. by rewrite foldl_insert_lookup_base.
Qed.

Lemma ToConfig_frame_witness :
  ∃ p', ToConfig (Examples.policy (Some Examples.with_clients) None (Some (bs "x"))) = Return p'
    ∧ config_of p' !! bs "other"
      = config_of (Examples.policy (Some Examples.with_clients) None (Some (bs "x")))
          !! bs "other".
Proof.
  destruct (ToConfig_frame (Examples.policy (Some Examples.with_clients) None (Some (bs "x"))))
    as (p' & Hp' & Hk & _); [discriminate|].
  exists p'. split; [exact Hp'|].
  apply Hk. apply (bool_decide_unpack _). vm_compute. reflexivity.
Defined.

End PolicyConfig.

(** Finds an assignment in the list of [ToConfig]. *)
Ltac assignment :=
  unfold PolicyRepresentation.assignments;
  repeat first [apply list_elem_of_here | apply list_elem_of_further].

Section PolicyLists.
Import PolicyRepresentation.

Lemma Join_cons (x : bytes) (l : list bytes) (sep : bytes) :
  strings.Join (x :: l) sep = x ++ (l ≫= λ y, sep ++ y).
Proof.
  revert x. induction l as [|y l IH]; intros x; [by rewrite app_nil_r|].
  cbn [strings.Join]. f_equal. cbn [mbind list_bind]. rewrite <- app_assoc. f_equal.
  apply IH.
Qed.

Lemma arrayEncoder_bind {A} (enc : A → bytes) (i : nat) (l : list A) :
  json.arrayEncoder enc (S i) l = l ≫= λ y, bs "," ++ enc y.
Proof.
  revert i. induction l as [|y l IH]; intros i; [done|].
  cbn [json.arrayEncoder mbind list_bind]. change (0 <? S i) with true. cbn iota.
  rewrite <- app_assoc. do 2 f_equal. apply IH.
Qed.

(** The text [ToConfig] builds for a list of ids is the JSON encoding of
    the list, as long as no id needs an escape. *)
Lemma bracketed_sliceEncoder (xs : list bytes) :
  Forall (λ x, Forall (λ c, json.htmlSafeSet (code c) = true) x) xs →
  bracketed (q <$> xs) = json.sliceEncoder (Slice xs).
Proof.
  intros Hxs. unfold bracketed, json.sliceEncoder. do 2 f_equal.
  destruct Hxs as [|x xs Hx Hxs]; [done|].
  cbn [fmap list_fmap json.arrayEncoder]. change (0 <? 0) with false. cbn iota.
  rewrite Join_cons, arrayEncoder_bind. cbn [app]. unfold json.stringEncoder.
  rewrite appendString_safe by done. f_equal.
  induction Hxs as [|y l Hy _ IH]; [done|].
  cbn [fmap list_fmap mbind list_bind]. rewrite appendString_safe by done.
  by rewrite IH.
Qed.

(** X16. The lists of clients, users and policies: a list that is not empty
    is stored as its ids between quotes, separated by commas, in
    brackets; this is the JSON encoding of the list, and decodes to it,
    when the ids need no escape (no quote, backslash, control or
    non-ASCII character, nor any of the HTML characters). An absent or
    empty list leaves the entry as it was. *)
Theorem ToConfig_id_lists (p : t) :
  Config p ≠ Some nil_map →
  ∃ p', ToConfig p = Return p'
    ∧ Forall (λ '(field, key),
                match nonempty field with
                | Some xs =>
                  config_of p' !! key
                  = Some (bs "[" ++ strings.Join (q <$> xs) (bs ",") ++ bs "]")
                  ∧ (Forall (λ x, Forall (λ c, json.htmlSafeSet (code c) = true) x) xs →
                     config_of p' !! key = Some (json.sliceEncoder (Slice xs))
                     ∧ json.Unmarshal_strings (json.sliceEncoder (Slice xs)) nil_slice
                       = (Slice xs, None))
                | None => config_of p' !! key = config_of p !! key
                end)
        [ (ClientPolicyRepresentation.Clients (ClientPolicyRepresentation p), bs "clients");
          (UserPolicyRepresentation.Users (UserPolicyRepresentation p), bs "users");
          (AggregatedPolicyRepresentation.Policies (AggregatedPolicyRepresentation p),
           bs "applyPolicies") ].
Proof.
  intros Hc. destruct (ToConfig_lookup p Hc) as (p' & Hp' & Hl).
  exists p'. split; [done|].
  assert (∀ field key,
            (bracketed ∘ quoted_ids <$> nonempty field, key) ∈ assignments p →
            match nonempty field with
            | Some xs =>
              config_of p' !! key
              = Some (bs "[" ++ strings.Join (q <$> xs) (bs ",") ++ bs "]")
              ∧ (Forall (λ x, Forall (λ c, json.htmlSafeSet (code c) = true) x) xs →
                 config_of p' !! key = Some (json.sliceEncoder (Slice xs))
                 ∧ json.Unmarshal_strings (json.sliceEncoder (Slice xs)) nil_slice
                   = (Slice xs, None))
            | None => config_of p' !! key = config_of p !! key
            end) as Hfield.
  { intros field key Hin. apply Hl in Hin.
    destruct (nonempty field) as [xs|]; [|done].
    cbn [fmap option_fmap option_map compose] in Hin. rewrite quoted_ids_fmap in Hin.
    split; [done|]. intros Hxs. rewrite Hin, <- bracketed_sliceEncoder by done.
    split; [done|]. rewrite bracketed_sliceEncoder by done.
    rewrite Unmarshal_strings_sliceEncoder. do 2 f_equal.
    apply coerce_fmap_valid. eapply Forall_impl; [done|]. intros x. apply Valid_safe. }
  repeat constructor; apply Hfield; assignment.
Qed.

Lemma ToConfig_id_lists_witness :
  ∃ p', ToConfig (Examples.client_policy Examples.c1_c2) = Return p'
    ∧ config_of p' !! bs "clients"
      = Some (bs "[" ++ q (bs "c1") ++ bs "," ++ q (bs "c2") ++ bs "]")
    ∧ config_of p' !! bs "clients" = Some (json.sliceEncoder Examples.c1_c2)
    ∧ json.Unmarshal_strings (json.sliceEncoder Examples.c1_c2) nil_slice
      = (Examples.c1_c2, None)
    ∧ config_of p' !! bs "users" = None.
Proof.
  destruct (ToConfig_id_lists (Examples.client_policy Examples.c1_c2)) as (p' & Hp' & Hf);
    [discriminate|].
  exists p'. split; [exact Hp'|].
  apply Forall_cons in Hf as [[Hclients Hsafe] Hf].
  apply Forall_cons in Hf as [Husers _].
  destruct Hsafe as [Henc Hdec]; [repeat constructor|].
  split; [exact Hclients|]. split; [exact Henc|]. split; [exact Hdec|exact Husers].
Defined.

(** X15. The fields that hold a text are stored as they are: the code, the
    groups claim and the twelve fields of a time policy, each under its
    key; a field that is nil leaves the entry as it was. *)
Theorem ToConfig_scalars (p : t) :
  Config p ≠ Some nil_map →
  ∃ p', ToConfig p = Return p'
    ∧ Forall (λ '(field, key),
                config_of p' !! key
                = match field with
                  | Some v => Some v
                  | None => config_of p !! key
                  end)
        [ (JSPolicyRepresentation.Code (JSPolicyRepresentation p), bs "code");
          (GroupPolicyRepresentation.GroupsClaim (GroupPolicyRepresentation p),
           bs "groupsClaim");
          (TimePolicyRepresentation.NotBefore (TimePolicyRepresentation p), bs "nbf");
          (TimePolicyRepresentation.NotOnOrAfter (TimePolicyRepresentation p), bs "noa");
          (TimePolicyRepresentation.DayMonth (TimePolicyRepresentation p), bs "dayMonth");
          (TimePolicyRepresentation.DayMonthEnd (TimePolicyRepresentation p), bs "dayMonthEnd");
          (TimePolicyRepresentation.Month (TimePolicyRepresentation p), bs "month");
          (TimePolicyRepresentation.MonthEnd (TimePolicyRepresentation p), bs "monthEnd");
          (TimePolicyRepresentation.Year (TimePolicyRepresentation p), bs "year");
          (TimePolicyRepresentation.YearEnd (TimePolicyRepresentation p), bs "yearEnd");
          (TimePolicyRepresentation.Hour (TimePolicyRepresentation p), bs "hour");
          (TimePolicyRepresentation.HourEnd (TimePolicyRepresentation p), bs "hourEnd");
          (TimePolicyRepresentation.Minute (TimePolicyRepresentation p), bs "minute");
          (TimePolicyRepresentation.MinuteEnd (TimePolicyRepresentation p), bs "minuteEnd") ].
Proof.
  intros Hc. destruct (ToConfig_lookup p Hc) as (p' & Hp' & Hl).
  exists p'. split; [done|].
  repeat constructor; apply Hl; assignment.
Qed.

Lemma ToConfig_scalars_witness :
  ∃ p', ToConfig (Examples.policy None None (Some (bs "x"))) = Return p'
    ∧ config_of p' !! bs "code" = Some (bs "x").
Proof.
  destruct (ToConfig_scalars (Examples.policy None None (Some (bs "x")))) as (p' & Hp' & Hf);
    [discriminate|].
  exists p'. split; [exact Hp'|].
  apply Forall_cons in Hf as [Hf _]. exact Hf.
Defined.

End PolicyLists.

Section JsonObjects.
Import json.

Lemma parse_value_structEncoder (fs : struct) (f : nat) (d : N) (rest : bytes) :
  length (structEncoder fs) < f →
  (N.succ (N.succ d) ≤ maxNestingDepth)%N →
  parse_value f d (structEncoder fs ++ rest) = Some (Object (members fs), rest).
Proof.
  intros Hf Hd. rewrite structEncoder_written in *. unfold members.
  destruct (written fs) as [|[[name quoted] v] ms].
  { destruct f as [|f]; [cbn in Hf; lia|]. cbn [bs list_ascii_of_string app parse_value].
    decide_bytes. cbn iota.
    destruct (N.ltb_spec maxNestingDepth (N.succ d)) as [?|_]; [lia|].
    cbn [skip_ws]. change (isSpace "}") with false. cbn iota. by decide_bytes. }
  cbn [writtenMembers] in *. rewrite !length_app in Hf.
  unfold appendString at 1 in Hf. rewrite !length_app in Hf.
  cbn [bs list_ascii_of_string length] in Hf.
  destruct f as [|f]; [lia|].
  cbn [app]. rewrite <- !app_assoc.
  rewrite appendString_cons, parse_value_object, <- appendString_cons by lia.
  rewrite parse_member_written; [|lia|lia|apply delimited_writtenMembers].
  cbn [mbind option_bind bs list_ascii_of_string app].
  rewrite skip_ws_delimited by apply delimited_writtenMembers.
  rewrite parse_members_written by lia. done.
Qed.

Lemma structEncoder_head (fs : struct) : ∃ e, structEncoder fs = "{"%char :: e.
Proof.
  rewrite structEncoder_written. destruct (written fs) as [|[[name quoted] v] ms];
    by eexists.
Qed.

Lemma skip_ws_structEncoder (fs : struct) (rest : bytes) :
  skip_ws (structEncoder fs ++ rest) = structEncoder fs ++ rest.
Proof. destruct (structEncoder_head fs) as [e ->]. reflexivity. Qed.

Lemma skip_ws_objects (l : list struct) (rest : bytes) :
  skip_ws ((l ≫= λ fs, bs "," ++ structEncoder fs) ++ "]"%char :: rest)
  = (l ≫= λ fs, bs "," ++ structEncoder fs) ++ "]"%char :: rest.
Proof. by destruct l. Qed.

Lemma parse_elems_objects (l : list struct) :
  ∀ (f : nat) (d : N) (rest : bytes),
  length (l ≫= λ fs, bs "," ++ structEncoder fs) < f →
  (N.succ (N.succ d) ≤ maxNestingDepth)%N →
  parse_elems f d ((l ≫= λ fs, bs "," ++ structEncoder fs) ++ "]"%char :: rest)
  = Some (Object ∘ members <$> l, rest).
Proof.
  induction l as [|fs l IH]; intros f d rest Hf Hd.
  { destruct f; [cbn in Hf; lia|]. reflexivity. }
  cbn [mbind list_bind] in *. rewrite !length_app in Hf.
  change (length (bs ",")) with 1 in Hf.
  destruct f as [|f]; [lia|].
  rewrite <- !app_assoc. change (bs "," ++ ?x) with (","%char :: x).
  rewrite parse_elems_comma, skip_ws_structEncoder.
  rewrite parse_value_structEncoder by (done || lia). cbn [mbind option_bind].
  rewrite skip_ws_objects, (IH f d rest) by (done || lia). done.
Qed.

(** A bracketed, comma-separated list of encoded structs parses to the
    array of their objects. *)
Lemma parse_objects (l : list struct) :
  l ≠ [] →
  parse (bs "[" ++ strings.Join (structEncoder <$> l) (bs ",") ++ bs "]")
  = Some (Array (Object ∘ members <$> l)).
Proof.
  destruct l as [|fs l]; [done|]. intros _. unfold parse.
  cbn [fmap list_fmap]. rewrite Join_cons.
  assert (fmap (M := list) structEncoder l ≫= (λ y, bs "," ++ y)
          = l ≫= λ fs, bs "," ++ structEncoder fs) as ->.
  { induction l as [|x l IH]; [done|]. cbn [fmap list_fmap mbind list_bind]. by rewrite IH. }
  set (tail := l ≫= λ fs, bs "," ++ structEncoder fs).
  assert (length (structEncoder fs) + length tail + 2
          ≤ length (bs "[" ++ (structEncoder fs ++ tail) ++ bs "]")) as Hf.
  { rewrite !length_app. cbn [bs list_ascii_of_string length]. lia. }
  revert Hf. generalize (length (bs "[" ++ (structEncoder fs ++ tail) ++ bs "]")).
  intros f Hf. cbn [bs list_ascii_of_string app skip_ws].
  change (isSpace "[") with false. cbn iota.
  cbn [parse_value]. decide_bytes. cbn iota.
  change (maxNestingDepth <? N.succ 0)%N with false. cbn iota.
  rewrite <- !app_assoc. rewrite skip_ws_structEncoder.
  destruct (structEncoder_head fs) as [e He]. rewrite He at 1. cbn [app].
  decide_bytes. cbn iota. rewrite app_comm_cons, <- He.
  destruct f as [|f]; [lia|].
  rewrite parse_value_structEncoder by (done || lia). cbn [mbind option_bind].
  subst tail. rewrite (skip_ws_objects l []).
  rewrite parse_elems_objects by (done || lia). done.
Qed.

End JsonObjects.

(** The bytes of a literal, or of a text known to be safe. *)
Ltac safe_bytes :=
  first [done | cbn [bs list_ascii_of_string]; by repeat constructor].

Section PolicyObjects.
Import PolicyRepresentation.

Lemma group_objects_fmap (xs : list GroupDefinition.t) :
  group_objects xs
  = (λ g, match GroupDefinition.ID g with
          | Some id =>
            bs "{" ++ q (bs "id") ++ bs ":" ++ q id ++ bs "," ++ q (bs "extendChildren")
              ++ bs ":"
              ++ strconv.FormatBool (bool_decide (GroupDefinition.ExtendChildren g = Some true))
              ++ bs "}"
          | None => []
          end) <$> xs.
Proof.
  etrans.
  { exact (range_loop_fill GroupDefinition.ID
             (λ id g, bs "{" ++ q (bs "id") ++ bs ":" ++ q id ++ bs ","
                        ++ q (bs "extendChildren") ++ bs ":"
                        ++ match GroupDefinition.ExtendChildren g with
                           | Some true => bs "true"
                           | _ => bs "false"
                           end
                        ++ bs "}")
             xs 0 [] eq_refl). }
  cbn [app]. apply list_fmap_ext. intros _ g _.
  destruct (GroupDefinition.ID g); [|done].
  by destruct (GroupDefinition.ExtendChildren g) as [[]|].
Qed.

(** X17. The list of groups: a list that is not empty is stored under
    [groups] as the objects with the id and the [extendChildren] flag
    (false when absent) in source order, separated by commas, in
    brackets. A group without id leaves its place empty: the commas
    around it are written all the same. *)
Theorem ToConfig_groups (p : t) (groups : slice GroupDefinition.t) :
  GroupPolicyRepresentation.Groups (GroupPolicyRepresentation p) = Some groups →
  elems groups ≠ [] →
  Config p ≠ Some nil_map →
  ∃ p', ToConfig p = Return p'
    ∧ config_of p' !! bs "groups"
      = Some (bs "[" ++
              strings.Join
                ((λ g, match GroupDefinition.ID g with
                       | Some id =>
                         bs "{" ++ q (bs "id") ++ bs ":" ++ q id ++ bs ","
                           ++ q (bs "extendChildren") ++ bs ":"
                           ++ strconv.FormatBool
                                (bool_decide (GroupDefinition.ExtendChildren g = Some true))
                           ++ bs "}"
                       | None => []
                       end) <$> elems groups)
                (bs ",")
              ++ bs "]").
Proof.
  intros Hgroups Hne Hc. destruct (ToConfig_lookup p Hc) as (p' & Hp' & Hl).
  exists p'. split; [done|].
  rewrite (Hl (bracketed ∘ group_objects
                 <$> nonempty (GroupPolicyRepresentation.Groups (GroupPolicyRepresentation p)))
              (bs "groups")) by assignment.
  rewrite Hgroups.
  assert (nonempty (Some groups) = Some (elems groups)) as ->.
  { unfold nonempty, len. destruct (elems groups); done. }
  cbn [fmap option_fmap option_map compose]. by rewrite group_objects_fmap.
Qed.

Lemma ToConfig_groups_witness :
  ∃ p', ToConfig
          (Examples.group_policy Examples.g1_noid)
        = Return p'
    ∧ config_of p' !! bs "groups"
      = Some (bs "[{" ++ q (bs "id") ++ bs ":" ++ q (bs "g1") ++ bs ","
                ++ q (bs "extendChildren") ++ bs ":true},]").
Proof.
  destruct (ToConfig_groups
              (Examples.group_policy Examples.g1_noid) Examples.g1_noid)
    as (p' & Hp' & Hg).
  - reflexivity.
  - discriminate.
  - discriminate.
  - exists p'. split; [exact Hp'|]. rewrite Hg. reflexivity.
Defined.

Lemma id_flag_structEncoder (id key : bytes) (b : bool) :
  Forall (λ c, json.htmlSafeSet (code c) = true) id →
  Forall (λ c, json.htmlSafeSet (code c) = true) key →
  json.structEncoder
    [ json.Field (json.Tag (bs "id") false false) (json.PtrString (Some id));
      json.Field (json.Tag key false false) (json.PtrBool (Some b)) ]
  = bs "{" ++ q (bs "id") ++ bs ":" ++ q id ++ bs "," ++ q key ++ bs ":"
      ++ strconv.FormatBool b ++ bs "}".
Proof.
  intros Hid Hkey. unfold json.structEncoder.
  cbn [json.structEncoder_loop json.ftag json.fvalue andb json.fieldEncoder].
  unfold json.stringEncoder, json.boolEncoder, json.mayAppendQuote.
  rewrite !appendString_safe by safe_bytes.
  decide_bytes. cbn [app]. rewrite app_nil_r.
  repeat (rewrite <- app_assoc || rewrite <- app_comm_cons). reflexivity.
Qed.

Lemma id_flag_members (id key : bytes) (b : bool) :
  Forall (λ c, json.htmlSafeSet (code c) = true) id →
  Forall (λ c, json.htmlSafeSet (code c) = true) key →
  members
    [ json.Field (json.Tag (bs "id") false false) (json.PtrString (Some id));
      json.Field (json.Tag key false false) (json.PtrBool (Some b)) ]
  = [(bs "id", json.String id); (key, json.Bool b)].
Proof.
  intros Hid Hkey. unfold members, written.
  cbn [omap list_omap json.ftag json.fvalue andb fmap list_fmap wire].
  by rewrite !coerce_safe by safe_bytes.
Qed.

(** A list of objects with an id and a flag, as [ToConfig] writes it,
    parses to the array of these objects when the ids need no escape. *)
Lemma parse_id_flag_objects {A} (ID : A → option bytes) (flag : A → bool) (key : bytes)
    (xs : list A) :
  xs ≠ [] →
  Forall (λ c, json.htmlSafeSet (code c) = true) key →
  Forall (λ x, ∃ id, ID x = Some id ∧ Forall (λ c, json.htmlSafeSet (code c) = true) id) xs →
  json.parse
    (bracketed ((λ x, match ID x with
                      | Some id =>
                        bs "{" ++ q (bs "id") ++ bs ":" ++ q id ++ bs "," ++ q key ++ bs ":"
                          ++ strconv.FormatBool (flag x) ++ bs "}"
                      | None => []
                      end) <$> xs))
  = Some (json.Array
            ((λ x, json.Object [(bs "id", json.String (default [] (ID x)));
                                (key, json.Bool (flag x))]) <$> xs)).
Proof.
  intros Hne Hkey Hxs. unfold bracketed.
  set (st := λ x, [ json.Field (json.Tag (bs "id") false false)
                      (json.PtrString (Some (default [] (ID x))));
                    json.Field (json.Tag key false false) (json.PtrBool (Some (flag x))) ]).
  assert ((λ x, match ID x with
                | Some id =>
                  bs "{" ++ q (bs "id") ++ bs ":" ++ q id ++ bs "," ++ q key ++ bs ":"
                    ++ strconv.FormatBool (flag x) ++ bs "}"
                | None => []
                end) <$> xs
          = json.structEncoder <$> (st <$> xs)) as ->.
  { rewrite <- list_fmap_compose. apply Forall_fmap_ext_1.
    eapply Forall_impl; [done|]. intros x (i & Hid & Hsafe). cbn beta.
    unfold compose, st. rewrite Hid. cbn [default from_option id].
    by rewrite id_flag_structEncoder. }
  rewrite parse_objects by (by destruct xs).
  do 2 f_equal. rewrite <- list_fmap_compose. apply Forall_fmap_ext_1.
  eapply Forall_impl; [done|]. intros x (i & Hid & Hsafe).
  unfold compose, st. rewrite Hid. cbn [default from_option id].
  by rewrite id_flag_members.
Qed.

(** X18. When every role, or every group, has an id that needs no escape,
    the entry [ToConfig] stores is a JSON text: it parses to the array
    of the objects with the id and the flag, in source order. *)
Theorem ToConfig_objects_json (p : t) :
  Config p ≠ Some nil_map →
  ∃ p', ToConfig p = Return p'
    ∧ (∀ roles,
         nonempty (RolePolicyRepresentation.Roles (RolePolicyRepresentation p)) = Some roles →
         Forall (λ r, ∃ id, RoleDefinition.ID r = Some id
                        ∧ Forall (λ c, json.htmlSafeSet (code c) = true) id) roles →
         ∃ text, config_of p' !! bs "roles" = Some text
           ∧ json.parse text
             = Some (json.Array
                       ((λ r, json.Object
                                [(bs "id", json.String (default [] (RoleDefinition.ID r)));
                                 (bs "required",
                                  json.Bool (default false (RoleDefinition.Required r)))])
                          <$> roles)))
    ∧ (∀ groups,
         nonempty (GroupPolicyRepresentation.Groups (GroupPolicyRepresentation p))
         = Some groups →
         Forall (λ g, ∃ id, GroupDefinition.ID g = Some id
                        ∧ Forall (λ c, json.htmlSafeSet (code c) = true) id) groups →
         ∃ text, config_of p' !! bs "groups" = Some text
           ∧ json.parse text
             = Some (json.Array
                       ((λ g, json.Object
                                [(bs "id", json.String (default [] (GroupDefinition.ID g)));
                                 (bs "extendChildren",
                                  json.Bool (bool_decide
                                               (GroupDefinition.ExtendChildren g = Some true)))])
                          <$> groups))).
Proof.
  intros Hc. destruct (ToConfig_lookup p Hc) as (p' & Hp' & Hl).
  exists p'. split; [done|]. split.
  - intros roles Hroles Hids. eexists. split.
    + rewrite (Hl (bracketed ∘ role_objects
                     <$> nonempty (RolePolicyRepresentation.Roles (RolePolicyRepresentation p)))
                  (bs "roles")) by assignment.
      rewrite Hroles. cbn [fmap option_fmap option_map compose]. reflexivity.
    + rewrite role_objects_fmap.
      apply (parse_id_flag_objects RoleDefinition.ID
               (λ r, default false (RoleDefinition.Required r)) (bs "required")).
      * unfold nonempty in Hroles. destruct (RolePolicyRepresentation.Roles _) as [s|]; [|done].
        destruct (0 <? len s) eqn:Hlen; [|done]. simplify_eq.
        unfold len in Hlen. by destruct (elems s).
      * safe_bytes.
      * done.
  - intros groups Hgroups Hids. eexists. split.
    + rewrite (Hl (bracketed ∘ group_objects
                     <$> nonempty (GroupPolicyRepresentation.Groups (GroupPolicyRepresentation p)))
                  (bs "groups")) by assignment.
      rewrite Hgroups. cbn [fmap option_fmap option_map compose]. reflexivity.
    + rewrite group_objects_fmap.
      apply (parse_id_flag_objects GroupDefinition.ID
               (λ g, bool_decide (GroupDefinition.ExtendChildren g = Some true))
               (bs "extendChildren")).
      * unfold nonempty in Hgroups. destruct (GroupPolicyRepresentation.Groups _) as [s|]; [|done].
        destruct (0 <? len s) eqn:Hlen; [|done]. simplify_eq.
        unfold len in Hlen. by destruct (elems s).
      * safe_bytes.
      * done.
Qed.

Lemma ToConfig_objects_json_witness :
  ∃ p' text, ToConfig (Examples.group_policy Examples.g1_g2) = Return p'
    ∧ config_of p' !! bs "groups" = Some text
    ∧ json.parse text
      = Some (json.Array
                [ json.Object [(bs "id", json.String (bs "g1"));
                               (bs "extendChildren", json.Bool true)];
                  json.Object [(bs "id", json.String (bs "g2"));
                               (bs "extendChildren", json.Bool false)] ]).
Proof.
  destruct (ToConfig_objects_json (Examples.group_policy Examples.g1_g2))
    as (p' & Hp' & _ & Hg); [discriminate|].
  destruct (Hg (elems Examples.g1_g2)) as (text & Ht & Hparse).
  - reflexivity.
  - repeat constructor; eexists; (split; [reflexivity|]); repeat constructor.
  - exists p', text. split; [exact Hp'|]. split; [exact Ht|exact Hparse].
Defined.

End PolicyObjects.

Section RolesClaim.
Import PolicyRepresentation.

(** C2 (amended). For every policy whose role list is non-empty, whose
    role entries all have an id that needs no JSON escape (no quote,
    backslash, control or non-ASCII character, nor any of the HTML
    characters) and whose [Config] does not point to a nil map,
    [ToConfig] stores under ["roles"] the JSON array literal of the
    objects with the id and the [required] flag (false when absent) in
    source order, a text that parses to this array; when the client list
    is absent or empty the ["clients"] entry is the one the
    configuration had before the call, and is absent if there was
    none. *)
Theorem C2_ToConfig_roles (p : t) (roles : slice RoleDefinition.t) :
  RolePolicyRepresentation.Roles (RolePolicyRepresentation p) = Some roles →
  elems roles ≠ [] →
  Forall (λ r, ∃ id, RoleDefinition.ID r = Some id
                 ∧ Forall (λ c, json.htmlSafeSet (code c) = true) id) (elems roles) →
  Config p ≠ Some nil_map →
  ∃ p', ToConfig p = Return p'
    ∧ config_of p' !! bs "roles" = Some (roles_literal (elems roles))
    ∧ json.parse (roles_literal (elems roles))
      = Some (json.Array
                ((λ r, json.Object
                         [(bs "id", json.String (default [] (RoleDefinition.ID r)));
                          (bs "required",
                           json.Bool (default false (RoleDefinition.Required r)))])
                   <$> elems roles))
    ∧ (nonempty (ClientPolicyRepresentation.Clients (ClientPolicyRepresentation p)) = None →
       config_of p' !! bs "clients" = config_of p !! bs "clients").
Proof.
  intros Hroles Hne Hids Hc.
  destruct (ToConfig_config p Hc) as (p' & Hp' & _ & Hcfg).
  exists p'. split; [done|]. rewrite Hcfg. split_and!.
  - apply foldl_insert_lookup_in; [apply assigned_NoDup|].
    unfold assigned. apply list_elem_of_omap.
    exists (Some (roles_literal (elems roles)), bs "roles"). split; [|done].
    unfold assignments. rewrite Hroles.
    assert (nonempty (Some roles) = Some (elems roles)) as ->.
    { unfold nonempty, len. destruct (elems roles); done. }
    cbn [fmap option_fmap option_map compose]. rewrite roles_literal_all_ids by done.
    apply list_elem_of_lookup. by exists 1.
  - rewrite <- roles_literal_all_ids by done. rewrite role_objects_fmap.
    by apply (parse_id_flag_objects RoleDefinition.ID
                (λ r, default false (RoleDefinition.Required r)) (bs "required"));
      [|safe_bytes|].
  - intros Hclients. apply foldl_insert_lookup_base, assigned_not_in.
    intros v Hin. unfold assignments in Hin. rewrite Hclients in Hin.
    apply elem_of_cons in Hin as [Hin|Hin]; [done|].
    repeat (apply elem_of_cons in Hin as [Hin|Hin];
            [apply (f_equal snd) in Hin; by vm_compute in Hin|]).
    by apply elem_of_nil in Hin.
Qed.

Lemma C2_witness :
  ∃ p', ToConfig (Examples.policy None (Some Examples.r1_r2) None) = Return p'
    ∧ config_of p' !! bs "roles" = Some Examples.r1_r2_text
    ∧ json.parse Examples.r1_r2_text
      = Some (json.Array
                [ json.Object [(bs "id", json.String (bs "r1"));
                               (bs "required", json.Bool true)];
                  json.Object [(bs "id", json.String (bs "r2"));
                               (bs "required", json.Bool false)] ])
    ∧ config_of p' !! bs "clients" = None.
Proof.
  destruct (C2_ToConfig_roles (Examples.policy None (Some Examples.r1_r2) None)
              Examples.r1_r2) as (p' & H1 & H2 & H3 & H4).
  - reflexivity.
  - discriminate.
  - repeat constructor; eexists; (split; [reflexivity|]); repeat constructor.
  - discriminate.
  - exists p'. split; [exact H1|]. split; [exact H2|]. split; [exact H3|].
    rewrite H4; reflexivity.
Defined.

(** C2, as stated, fails where the configuration already has a
    ["clients"] entry: [ToConfig] keeps it although the client list is
    absent. *)
Lemma C2_counterexample :
  ∃ p', ToConfig (Examples.policy (Some Examples.with_clients) (Some Examples.r1_r2) None)
        = Return p'
    ∧ nonempty (ClientPolicyRepresentation.Clients
                  (ClientPolicyRepresentation
                     (Examples.policy (Some Examples.with_clients) (Some Examples.r1_r2) None)))
      = None
    ∧ config_of p' !! bs "clients" = Some (bs "[]").
Proof.
  destruct (ToConfig_config
              (Examples.policy (Some Examples.with_clients) (Some Examples.r1_r2) None))
    as (p' & H1 & _ & H2); [discriminate|].
  exists p'. split; [exact H1|]. split; [reflexivity|].
  rewrite H2. by vm_compute.
Qed.

(** A role entry without id leaves its slot of the slice empty: the
    commas around it are written all the same, and the text differs from
    the array with the entry skipped. *)
Lemma ToConfig_role_without_id :
  ∃ p', ToConfig (Examples.policy None (Some Examples.r1_noid_r2) None) = Return p'
    ∧ config_of p' !! bs "roles"
      = Some (bs "[" ++ role_literal (bs "r1") true ++ bs ",," ++ role_literal (bs "r2") false
                ++ bs "]")
    ∧ config_of p' !! bs "roles" ≠ Some (roles_literal (elems Examples.r1_noid_r2)).
Proof.
  destruct (ToConfig_config (Examples.policy None (Some Examples.r1_noid_r2) None))
    as (p' & H1 & _ & H2); [discriminate|].
  exists p'. split; [exact H1|]. rewrite H2. split; [by vm_compute|].
  by vm_compute.
Qed.

(** An id is written between quotes as it is: with a quote in the id the
    text is not the JSON literal, and it is no JSON text at all. *)
Lemma ToConfig_role_quoted_id :
  ∃ p' text, ToConfig (Examples.policy None (Some Examples.r_quote) None) = Return p'
    ∧ config_of p' !! bs "roles" = Some text
    ∧ text ≠ roles_literal (elems Examples.r_quote)
    ∧ json.parse text = None.
Proof.
  destruct (ToConfig_config (Examples.policy None (Some Examples.r_quote) None))
    as (p' & H1 & _ & H2); [discriminate|].
  exists p'. eexists. split; [exact H1|]. rewrite H2. split; [by vm_compute|].
  split; by vm_compute.
Qed.

End RolesClaim.

Section Strings.

Lemma HasPrefix_app (s prefix : bytes) :
  strings.HasPrefix s prefix = true ↔ ∃ post, s = prefix ++ post.
Proof.
  revert s. induction prefix as [|p prefix IH]; intros s.
  { rewrite HasPrefix_nil. split; [by exists s|done]. }
  destruct s as [|c s]; cbn [strings.HasPrefix].
  { split; [done|]. by intros [post ?]. }
  rewrite andb_true_iff, bool_decide_eq_true, IH. split.
  - intros [-> [post ->]]. by exists post.
  - intros [post [= -> ->]]. split; [done|]. by exists post.
Qed.

Lemma Index_lower (s substr : bytes) : (-1 ≤ strings.Index s substr)%Z.
Proof.
  induction s as [|c s IH]; cbn [strings.Index].
  - destruct (strings.HasPrefix [] substr); lia.
  - destruct (strings.HasPrefix (c :: s) substr); [lia|].
    destruct (Z.ltb_spec (strings.Index s substr) 0); lia.
Qed.

(** [strings.Contains] holds exactly of the strings that have the
    substring somewhere. *)
Lemma Contains_app (s substr : bytes) :
  strings.Contains s substr = true ↔ ∃ pre post, s = pre ++ substr ++ post.
Proof.
  unfold strings.Contains. rewrite Z.leb_le.
  induction s as [|c s IH]; cbn [strings.Index].
  - destruct (strings.HasPrefix [] substr) eqn:Hp.
    + apply HasPrefix_app in Hp as [post Hp]. split; [|done]. intros _. by exists [], post.
    + split; [lia|]. intros (pre & post & Hs). exfalso.
      symmetry in Hs. apply app_eq_nil in Hs as [-> Hs].
      assert (strings.HasPrefix [] substr = true); [|congruence].
      apply HasPrefix_app. by exists post.
  - destruct (strings.HasPrefix (c :: s) substr) eqn:Hp.
    + apply HasPrefix_app in Hp as [post Hp]. split; [|done]. intros _. by exists [], post.
    + pose proof (Index_lower s substr) as Hl.
      destruct (Z.ltb_spec (strings.Index s substr) 0) as [Hneg|Hpos].
      * split; [lia|]. intros (pre & post & Hs). exfalso.
        destruct pre as [|c' pre].
        -- assert (strings.HasPrefix (c :: s) substr = true); [|congruence].
           apply HasPrefix_app. by exists post.
        -- injection Hs as -> ->.
           assert (0 ≤ strings.Index (pre ++ substr ++ post) substr)%Z; [|lia].
           apply IH. by exists pre, post.
      * split; [|lia]. intros _. apply IH in Hpos as (pre & post & ->).
        by exists (c :: pre), post.
Qed.

End Strings.

Section APIErrors.

(** X19. [ParseAPIErrType] answers [unknown] for the nil error. For an
    error that is not nil it calls [Error]: it panics if that call
    panics, answers [oauth: invalid grant] exactly when the message has
    [invalid_grant] somewhere in it, and [unknown] otherwise. An
    [APIError] answers by its message alone; a [*APIError] that is nil
    in an error that is not makes the call panic, because [Error] has a
    value receiver. *)
Theorem ParseAPIErrType_invalid_grant :
  (∀ A (E : error A) (err : option A),
     (ParseAPIErrType err = Panic ↔ ∃ e, err = Some e ∧ Error e = Panic)
     ∧ (ParseAPIErrType err = Return APIErrTypeInvalidGrant
        ↔ ∃ e pre post, err = Some e ∧ Error e = Return (pre ++ bs "invalid_grant" ++ post))
     ∧ (ParseAPIErrType err = Panic
        ∨ ParseAPIErrType err = Return APIErrTypeInvalidGrant
        ∨ ParseAPIErrType err = Return APIErrTypeUnknown))
  ∧ ParseAPIErrType (Some (None : option APIError.t)) = Panic
  ∧ (∀ apiError : APIError.t,
       ParseAPIErrType (Some (Some apiError)) = ParseAPIErrType (Some apiError)
       ∧ ParseAPIErrType (Some apiError)
         = Return (if strings.Contains (APIError.Message apiError) (bs "invalid_grant")
                   then APIErrTypeInvalidGrant else APIErrTypeUnknown)).
Proof.
  split_and!; [|done|].
  - intros A E err. unfold ParseAPIErrType. destruct err as [e|].
    + destruct (Error e) as [|message] eqn:He; cbn [mbind outcome_bind].
      { split_and!; [|split; [done|]|by left].
        - split; [|done]. intros _. by exists e.
        - intros (e' & pre & post & [= <-] & He'). congruence. }
      destruct (strings.Contains message (bs "invalid_grant")) eqn:Hc.
      * apply Contains_app in Hc as (pre & post & ->). split_and!.
        -- split; [done|]. intros (e' & [= <-] & He'). congruence.
        -- split; [|done]. intros _. by exists e, pre, post.
        -- right. by left.
      * split_and!.
        -- split; [done|]. intros (e' & [= <-] & He'). congruence.
        -- split; [done|]. intros (e' & pre & post & [= <-] & He').
           assert (strings.Contains message (bs "invalid_grant") = true); [|congruence].
           apply Contains_app. exists pre, post. congruence.
        -- right. by right.
    + split_and!.
      * split; [done|]. by intros (e & ? & _).
      * split; [done|]. by intros (e & pre & post & ? & _).
      * right. by right.
  - intros apiError. split; [done|]. unfold ParseAPIErrType, Error, APIError.Error.
    cbn [mbind outcome_bind]. by destruct (strings.Contains _ _).
Qed.

End APIErrors.

Section StringOrArrayMore.
Import json.

Lemma StringOrArray_scalar_or_array_string (s0 : StringOrArray.t) (x : bytes) :
  StringOrArray.UnmarshalJSON s0 (stringEncoder x false) = (Slice [coerce x], None).
Proof.
  unfold StringOrArray.UnmarshalJSON, stringEncoder.
  rewrite Unmarshal_string_appendString.
  unfold appendString. cbn [app lookup list_lookup].
  replace (bool_decide (Some dq = Some "["%char)) with false by done.
  by rewrite andb_false_r.
Qed.

(** X21. A string and the array of that one string decode alike. *)
Theorem StringOrArray_scalar_or_array (s0 : StringOrArray.t) (x : bytes) :
  StringOrArray.UnmarshalJSON s0 (stringEncoder x false) = (Slice [coerce x], None)
  ∧ StringOrArray.UnmarshalJSON s0 (sliceEncoder (Slice [x])) = (Slice [coerce x], None).
Proof.
  split; [apply StringOrArray_scalar_or_array_string|].
  - unfold StringOrArray.UnmarshalJSON.
    rewrite Unmarshal_strings_sliceEncoder.
    unfold sliceEncoder, arrayEncoder, stringEncoder, appendString.
    cbn [app bs list_ascii_of_string length lookup list_lookup].
    replace (bool_decide (Some "["%char = Some "["%char)) with true by done.
    done.
Qed.

Lemma parse_value_bracket (f : nat) (d : N) (s : bytes) :
  parse_value (S f) d ("["%char :: s)
  = if (maxNestingDepth <? N.succ d)%N then None
    else match skip_ws s with
         | c' :: r =>
           if bool_decide (c' = "]"%char) then Some (Array [], r)
           else
             '(v, r1) ← parse_value f (N.succ d) (c' :: r);
             '(vs, r2) ← parse_elems f (N.succ d) (skip_ws r1);
             Some (Array (v :: vs), r2)
         | [] => None
         end.
Proof. cbn [parse_value]. by decide_bytes. Qed.

(** Data that start with a bracket are an array or nothing. *)
Lemma parse_bracket (s : bytes) :
  match parse ("["%char :: s) with
  | Some (Array _) | None => True
  | Some _ => False
  end.
Proof.
  unfold parse. cbn [skip_ws]. change (isSpace "[") with false. cbn iota.
  rewrite parse_value_bracket.
  change (maxNestingDepth <? N.succ 0)%N with false. cbn iota.
  destruct (skip_ws s) as [|c r]; [done|].
  destruct (bool_decide (c = "]"%char)).
  - cbn. by destruct (skip_ws r).
  - destruct (parse_value (length ("["%char :: s)) (N.succ 0) (c :: r)) as [[v r1]|]; [|done].
    cbn [mbind option_bind].
    destruct (parse_elems (length ("["%char :: s)) (N.succ 0) (skip_ws r1)) as [[vs r2]|];
      [|done].
    cbn [mbind option_bind]. by destruct (skip_ws r2).
Qed.

(** X20. What [StringOrArray.UnmarshalJSON] leaves in the receiver: when it
    fails, what was there; when it succeeds, a slice that is not nil,
    and that has exactly one element unless the data start with a
    bracket. *)
Theorem StringOrArray_UnmarshalJSON_receiver (s : StringOrArray.t) (data : bytes) :
  match StringOrArray.UnmarshalJSON s data with
  | (s', Some _) => s' = s
  | (s', None) =>
    s' ≠ nil_slice
    ∧ (data !! 0 = Some "["%char ∨ len s' = 1)
  end.
Proof.
  unfold StringOrArray.UnmarshalJSON.
  destruct ((1 <? length data) && bool_decide (data !! 0 = Some "["%char)) eqn:Hb.
  - apply andb_true_iff in Hb as [_ Hb%bool_decide_eq_true].
    destruct data as [|c data]; [done|]. cbn in Hb. injection Hb as ->.
    unfold Unmarshal_strings. pose proof (parse_bracket data) as Hp.
    destruct (parse ("["%char :: data)) as [[| | | |l|]|]; try done.
    destruct (saved_error _); [done|]. split; [done|]. by left.
  - unfold Unmarshal_string.
    destruct (parse data) as [[| | |x| |]|]; try done.
    + split; [done|]. by right.
    + split; [done|]. by right.
Qed.

(** X22. Decoding what [StringOrArray.MarshalJSON] wrote never fails, whatever
    the receiver held. A slice that is not nil comes back with each
    string coerced to valid UTF-8, the empty slice included; the nil
    slice is written [null] and comes back as one empty string. *)
Theorem StringOrArray_roundtrip_total (s s0 : StringOrArray.t) :
  ∃ out, StringOrArray.MarshalJSON s = inr out
    ∧ StringOrArray.UnmarshalJSON s0 out
      = (match s with
         | nil_slice => Slice [[]]
         | Slice l => Slice (coerce <$> l)
         end, None).
Proof.
  destruct s as [|[|x [|y l]]].
  - eexists. split; [reflexivity|]. by vm_compute.
  - eexists. split; [reflexivity|]. by vm_compute.
  - eexists. split; [reflexivity|].
    apply (StringOrArray_scalar_or_array_string s0 x).
  - eexists. split; [reflexivity|].
    unfold StringOrArray.UnmarshalJSON.
    rewrite Unmarshal_strings_sliceEncoder.
    unfold sliceEncoder. cbn [arrayEncoder]. unfold stringEncoder at 1, appendString at 1.
    cbn [app bs list_ascii_of_string length lookup list_lookup Nat.ltb Nat.leb].
    replace (bool_decide (Some "["%char = Some "["%char)) with true by done.
    done.
Qed.

End StringOrArrayMore.

Section EnforcedStringMore.
Import json.

(** X23. What [EnforcedString.MarshalJSON] writes, [UnmarshalJSON] reads
    back: the string itself when it is valid UTF-8, and in general the
    string with every invalid byte replaced by U+FFFD. *)
Theorem EnforcedString_roundtrip (s s0 : EnforcedString.t) :
  ∃ out, EnforcedString.MarshalJSON s = inr out
    ∧ EnforcedString.UnmarshalJSON s0 out = Return (coerce s, None)
    ∧ (utf8.Valid s = true → EnforcedString.UnmarshalJSON s0 out = Return (s, None)).
Proof.
  eexists. split; [reflexivity|].
  assert (EnforcedString.UnmarshalJSON s0 (stringEncoder s false) = Return (coerce s, None)) as Hu.
  { unfold EnforcedString.UnmarshalJSON, stringEncoder.
    unfold appendString at 1. cbn [app]. decide_bytes. cbn [negb].
    change (dq :: appendString_loop (length s) s true ++ [dq]) with (appendString [] s true).
    by rewrite Unmarshal_string_appendString. }
  split; [done|]. intros Hv. by rewrite Hu, coerce_valid.
Qed.

Lemma EnforcedString_roundtrip_witness :
  ∃ out, EnforcedString.MarshalJSON Examples.hello_world = inr out
    ∧ EnforcedString.UnmarshalJSON [] out = Return (Examples.hello_world, None).
Proof.
  destruct (EnforcedString_roundtrip Examples.hello_world []) as (out & Hm & _ & Hu).
  exists out. split; [exact Hm|]. apply Hu. vm_compute. reflexivity.
Defined.

End EnforcedStringMore.

Section EnforcedStringEscaped.
Import json EnforcedString.

(** The second replacement undoes what the first does to a quote that
    came with its backslash. *)
Lemma replace_collapse_twice (data : bytes) :
  Forall (λ c, c ≠ bsl) data →
  ∀ n : nat, length (escape_quotes (escape_quotes data)) ≤ n →
  strings.replace_loop n (escape_quotes (escape_quotes data)) [bsl; bsl; dq] [bsl; dq]
  = escape_quotes data.
Proof.
  induction 1 as [|c data Hc _ IH]; intros n Hn.
  { by destruct n. }
  change (escape_quotes (c :: data))
    with ((if bool_decide (c = dq) then [bsl; dq] else [c]) ++ escape_quotes data) in *.
  destruct (bool_decide (c = dq)) eqn:Hq.
  - rewrite escape_quotes_app in *.
    change (escape_quotes [bsl; dq]) with [bsl; bsl; dq] in *.
    cbn [app length] in *. destruct n as [|n]; [lia|].
    cbn [strings.replace_loop strings.HasPrefix]. decide_bytes. cbn [andb].
    rewrite HasPrefix_nil. cbn [length drop app]. rewrite drop_0.
    rewrite IH by lia. done.
  - rewrite escape_quotes_app in *.
    assert (escape_quotes [c] = [c]) as Hesc.
    { unfold escape_quotes. cbn [flat_map]. by rewrite Hq. }
    rewrite Hesc in *. cbn [app length] in *. destruct n as [|n]; [lia|].
    cbn [strings.replace_loop strings.HasPrefix].
    rewrite (bool_decide_eq_false_2 (c = bsl)) by done. cbn [andb].
    rewrite IH by lia. done.
Qed.

Lemma escape_quotes_head (data : bytes) :
  data ≠ [] → ∃ c rest, escape_quotes data = c :: rest ∧ c ≠ dq.
Proof.
  destruct data as [|c data]; [done|]. intros _.
  change (escape_quotes (c :: data))
    with ((if bool_decide (c = dq) then [bsl; dq] else [c]) ++ escape_quotes data).
  destruct (bool_decide (c = dq)) eqn:Hq.
  - by eexists _, _.
  - apply bool_decide_eq_false in Hq. by eexists _, _.
Qed.

(** X24. A payload without quotes around it may bring its quotes escaped
    already: it decodes to the text with the quotes alone, as the
    payload with bare quotes does. *)
Theorem EnforcedString_escaped_quotes (s : t) (data : bytes) :
  data ≠ [] →
  Forall plain data →
  utf8.Valid data = true →
  UnmarshalJSON s (escape_quotes data) = Return (data, None).
Proof.
  intros Hne Hp Hv. destruct (escape_quotes_head data Hne) as (c & rest & He & Hc).
  assert (UnmarshalJSON s (escape_quotes data)
          = Return (Unmarshal_string (repaired (escape_quotes data)) [])) as ->.
  { rewrite He. unfold UnmarshalJSON. rewrite bool_decide_eq_false_2 by done. cbn [negb].
    fold (repaired (c :: rest)). by destruct (Unmarshal_string _ _). }
  assert (repaired (escape_quotes data) = [dq] ++ escape_quotes data ++ [dq]) as ->.
  { unfold repaired. do 2 f_equal. unfold strings.ReplaceAll. cbv iota.
    rewrite replace_quotes by done.
    apply replace_collapse_twice; [|done].
    eapply Forall_impl; [done|]. by intros ? [? _]. }
  by rewrite Unmarshal_string_escape_quotes.
Qed.

Lemma EnforcedString_escaped_quotes_witness :
  escape_quotes Examples.hello_world = bs "hello \" ++ [dq] ++ bs "world\" ++ [dq]
  ∧ UnmarshalJSON [] (escape_quotes Examples.hello_world) = Return (Examples.hello_world, None).
Proof.
  split; [reflexivity|].
  apply (EnforcedString_escaped_quotes [] Examples.hello_world).
  - discriminate.
  - repeat (constructor; [split; [discriminate|by vm_compute]|]). constructor.
  - reflexivity.
Defined.

End EnforcedStringEscaped.

Section Scanner.
Import json.

(** A step that reports an error leaves the scanner in the error state. *)
Lemma scanner_step_error (s s' : scanner) (c : ascii) :
  scanner_step s c = (s', scanError) → step s' = StateError.
Proof.
  destruct s as [f e ps er].
  unfold scanner_step. cbn [step].
  destruct f;
    repeat progress unfold stateBeginValueOrEmpty, stateBeginStringOrEmpty, stateBeginValue, stateBeginString,
      stateEndValue, stateEndTop, stateInString, stateInStringEsc, stateInStringEscU_,
      stateNeg, state1, state0, stateDot, stateDot0, stateE, stateESign, stateE0,
      stateLiteral, pushParseState, scanner_error, set_top, set_step, set_parseState;
    cbn [step endTop parseState err fst];
    intros H; repeat case_match; simplify_eq; done.
Qed.


End Scanner.

Lemma bind_fmap_bytes {A} (f : A → bytes) (g : bytes → bytes) (l : list A) :
  (f <$> l) ≫= g = l ≫= λ x, g (f x).
Proof. induction l as [|x l IH]; [done|]. cbn. by rewrite IH. Qed.

Section Indent.
Import json.
Context (prefix indent : bytes).

Local Abbreviation run := (appendIndent_loop prefix indent).
Local Abbreviation newline := (appendNewline [] prefix indent).
Local Abbreviation copies := (copied prefix indent).
Local Abbreviation memberLine := (indentedMember prefix indent).

Lemma appendNewline_app (d : bytes) (k : Z) :
  appendNewline d prefix indent k = d ++ newline k.
Proof. done. Qed.

(** One turn of the loop. *)
Lemma run_cons (c : ascii) (src : bytes) (st : indenter) :
  run (c :: src) st
  = let '(scan, v) := scanner_step (scan st) c in
    match v with
    | scanSkipSpace =>
      run src (Indenter (dst st) scan (needIndent st) (depth st))
    | scanError => Indenter (dst st) scan (needIndent st) (depth st)
    | _ =>
      let indented :=
        needIndent st
        && negb (if v is scanEndObject then true else false)
        && negb (if v is scanEndArray then true else false) in
      let needIndent := if indented then false else needIndent st in
      let depth := if indented then (depth st + 1)%Z else depth st in
      let dst := if indented then appendNewline (dst st) prefix indent depth else dst st in
      if v is scanContinue then run src (Indenter (dst ++ [c]) scan needIndent depth)
      else if bool_decide (c = "{"%char) || bool_decide (c = "["%char) then
        run src (Indenter (dst ++ [c]) scan true depth)
      else if bool_decide (c = ","%char) then
        run src (Indenter (appendNewline (dst ++ [c]) prefix indent depth) scan needIndent depth)
      else if bool_decide (c = ":"%char) then
        run src (Indenter (dst ++ [c; " "%char]) scan needIndent depth)
      else if bool_decide (c = "}"%char) || bool_decide (c = "]"%char) then
        if needIndent then run src (Indenter (dst ++ [c]) scan false depth)
        else
          run src (Indenter (appendNewline dst prefix indent (depth - 1) ++ [c]) scan
                     needIndent (depth - 1)%Z)
      else run src (Indenter (dst ++ [c]) scan needIndent depth)
    end.
Proof. reflexivity. Qed.

(** After an error the loop copies nothing more. *)
Lemma run_error (b d : bytes) (s : scanner) (ni : bool) (k : Z) :
  step s = StateError → run b (Indenter d s ni k) = Indenter d s ni k.
Proof.
  intros Hs. destruct b as [|c b]; [done|].
  rewrite run_cons. cbn [scan dst needIndent depth].
  replace (scanner_step s c) with (s, scanError); [done|].
  unfold scanner_step. by rewrite Hs.
Qed.

(** The loop over two pieces of input is the loop over the second piece
    from where the first one leaves it. *)
Lemma run_app (a b : bytes) (st : indenter) : run (a ++ b) st = run b (run a st).
Proof.
  revert st. induction a as [|c a IH]; intros [d s ni k]; [done|].
  cbn [app]. rewrite !run_cons. cbn [scan dst needIndent depth].
  destruct (scanner_step s c) as [s' v] eqn:Hs.
  destruct v; try (repeat case_match; apply IH).
  symmetry. apply run_error. by eapply scanner_step_error.
Qed.


Lemma run_shift (b d : bytes) (st : indenter) : run b (shift d st) = shift d (run b st).
Proof.
  revert st. induction b as [|c b IH]; intros [d0 s ni k]; [done|].
  rewrite !run_cons. cbn [shift scan dst needIndent depth].
  destruct (scanner_step s c) as [s' v].
  destruct v; try done;
    repeat case_match; rewrite <- IH; unfold shift, appendNewline;
    cbn [dst scan needIndent depth]; by rewrite <- ?app_assoc.
Qed.

Lemma run_dst (b d : bytes) (s : scanner) (ni : bool) (k : Z) :
  run b (Indenter d s ni k) = shift d (run b (Indenter [] s ni k)).
Proof. rewrite <- run_shift. unfold shift. cbn. by rewrite app_nil_r. Qed.

(** *** Strings *)



Lemma copied_intro (body : bytes) :
  (∀ e ps er k, run body (inString [] e ps er k) = inString body e ps er k) → copies body.
Proof. intros H d e ps er k. unfold inString in *. by rewrite run_dst, H. Qed.

Lemma copied_nil : copies [].
Proof. intros d e ps er k. by rewrite app_nil_r. Qed.

Lemma copied_app (a b : bytes) : copies a → copies b → copies (a ++ b).
Proof.
  intros Ha Hb d e ps er k. by rewrite run_app, Ha, Hb, app_assoc.
Qed.

Lemma copied_plain (c : ascii) :
  c ≠ dq → c ≠ bsl → (32 ≤ code c)%N → copies [c].
Proof.
  intros Hq Hb Hc d e ps er k. unfold inString.
  cbn [appendIndent_loop scan dst needIndent depth].
  unfold scanner_step, stateInString. cbn [step].
  rewrite !bool_decide_eq_false_2 by done.
  destruct (N.ltb_spec (code c) 32) as [?|_]; [lia|]. done.
Qed.

Lemma copied_safe (c : ascii) : safeSet (code c) = true → copies [c].
Proof.
  unfold safeSet. intros H.
  apply andb_prop in H as [H Hb]. apply andb_prop in H as [H Hq].
  apply andb_prop in H as [Hlo _].
  apply negb_true_iff, N.eqb_neq in Hb, Hq. apply N.leb_le in Hlo.
  apply copied_plain; [by intros ->|by intros ->|done].
Qed.

Lemma copied_high (l : bytes) : Forall (λ c, (128 ≤ code c)%N) l → copies l.
Proof.
  induction 1 as [|c l Hc _ IH]; [apply copied_nil|].
  apply (copied_app [c] l); [|done].
  apply copied_plain; [intros ->; vm_compute in Hc; done..|lia].
Qed.

Lemma copied_escape_byte (b : ascii) : copies (escape_byte b).
Proof.
  apply copied_intro. intros e ps er k.
  destruct b as [[] [] [] [] [] [] [] []]; vm_compute; reflexivity.
Qed.

Lemma copied_ufffd : copies (bsl :: bs "ufffd").
Proof. apply copied_intro. intros e ps er k. vm_compute. reflexivity. Qed.

Lemma copied_u202 (r : N) :
  (r =? 8232)%N || (r =? 8233)%N = true → copies (bs "\u202" ++ [hexdigit (N.land r 0xF)]).
Proof.
  intros Hr. apply copied_intro. intros e ps er k.
  apply orb_prop in Hr as [->%N.eqb_eq| ->%N.eqb_eq]; vm_compute; reflexivity.
Qed.

Lemma copied_appendString_loop (n : nat) (s : bytes) (esc : bool) :
  copies (appendString_loop n s esc).
Proof.
  revert s. induction n as [|n IH]; intros s; [apply copied_nil|].
  destruct s as [|b s]; [apply copied_nil|].
  cbn [appendString_loop].
  destruct (N.ltb_spec (code b) utf8.RuneSelf) as [Hb|Hb]; unfold utf8.RuneSelf in Hb.
  - destruct (htmlSafeSet (code b) || negb esc && safeSet (code b)) eqn:Hsafe.
    + apply (copied_app [b]); [|apply IH].
      apply copied_safe.
      apply orb_prop in Hsafe as [H|H]; [by apply htmlSafeSet_safeSet|].
      by apply andb_prop in H as [_ H].
    + apply copied_app; [apply copied_escape_byte|apply IH].
  - destruct (utf8.DecodeRune (take utf8.UTFMax (b :: s))) as [c size] eqn:Hdec.
    destruct ((c =? utf8.RuneError)%N && (size =? 1)%nat).
    { apply (copied_app (bsl :: bs "ufffd")); [apply copied_ufffd|apply IH]. }
    destruct ((c =? 8232)%N || (c =? 8233)%N) eqn:Hsep.
    { rewrite app_assoc. apply copied_app; [by apply copied_u202|apply IH]. }
    apply copied_app; [|apply IH].
    rewrite DecodeRune_take in Hdec.
    destruct (DecodeRune_multi b s Hb) as [Herr|(r & size' & Hdec' & Hd)].
    + rewrite Herr in Hdec. injection Hdec as <- <-.
      cbn [take]. apply copied_high. constructor; [lia|constructor].
    + rewrite Hdec' in Hdec. injection Hdec as <- <-.
      apply copied_high. apply Hd.
Qed.



Lemma run_quote (d : bytes) (e : bool) (ps : list parseKind) (er : bool) (k : Z) :
  run [dq] (inString d e ps er k) = Indenter (d ++ [dq]) (Scanner StateEndValue e ps er) false k.
Proof. unfold inString. rewrite run_dst. by vm_compute. Qed.

(** A string literal is copied as it is, after the line break that is
    due if it is the first thing in an object or an array. *)
Lemma run_string (f : stepFunc) (s : bytes) (esc : bool) (d : bytes) (e : bool)
    (ps : list parseKind) (er ni : bool) (k : Z) :
  starts f →
  run (appendString [] s esc) (Indenter d (Scanner f e ps er) ni k)
  = Indenter ((if ni then appendNewline d prefix indent (k + 1) else d)
                ++ appendString [] s esc)
      (Scanner StateEndValue e ps er) false (if ni then k + 1 else k)%Z.
Proof.
  intros Hf. unfold appendString. cbn [app].
  rewrite run_cons. cbn [scan dst needIndent depth].
  replace (scanner_step (Scanner f e ps er) dq)
    with (Scanner StateInString e ps er, scanBeginLiteral)
    by (by destruct Hf as [-> | [-> | [-> | ->]]]).
  cbv beta iota zeta. decide_bytes. cbn [orb andb negb].
  rewrite run_app.
  pose proof (copied_appendString_loop (length s) s esc) as Hc. unfold copied in Hc.
  destruct ni; cbn [andb negb]; cbv iota.
  - change (Indenter ?d (Scanner StateInString ?e ?ps ?er) false ?k) with (inString d e ps er k).
    rewrite Hc, run_quote. by rewrite <- !app_assoc.
  - change (Indenter ?d (Scanner StateInString ?e ?ps ?er) false ?k) with (inString d e ps er k).
    rewrite Hc, run_quote. by rewrite <- !app_assoc.
Qed.

(** The words [true], [false] and [null]. *)
Lemma run_word (w d : bytes) (e : bool) (ps : list parseKind) (er : bool) (k : Z) :
  w = bs "true" ∨ w = bs "false" ∨ w = bs "null" →
  run w (Indenter d (Scanner StateBeginValue e ps er) false k)
  = Indenter (d ++ w) (Scanner StateEndValue e ps er) false k.
Proof. intros [-> | [-> | ->]]; rewrite run_dst; by vm_compute. Qed.

(** *** Numbers *)

Lemma isDigit_cases (c : ascii) : isDigit c = true → c ∈ bs "0123456789".
Proof.
  intros H. apply (bool_decide_unpack _).
  destruct c as [[] [] [] [] [] [] [] []]; vm_compute in H |- *; done.
Qed.

Lemma run_digit (c : ascii) (d : bytes) (e : bool) (ps : list parseKind) (er : bool) (k : Z) :
  isDigit c = true →
  run [c] (Indenter d (Scanner State1 e ps er) false k)
  = Indenter (d ++ [c]) (Scanner State1 e ps er) false k.
Proof.
  intros Hc%isDigit_cases. rewrite run_dst.
  cbn [bs list_ascii_of_string] in Hc.
  repeat (apply elem_of_cons in Hc as [->|Hc]; [by vm_compute|]).
  by apply elem_of_nil in Hc.
Qed.

Lemma run_digits (l d : bytes) (e : bool) (ps : list parseKind) (er : bool) (k : Z) :
  Forall (λ c, isDigit c = true) l →
  run l (Indenter d (Scanner State1 e ps er) false k)
  = Indenter (d ++ l) (Scanner State1 e ps er) false k.
Proof.
  intros Hl. revert d. induction Hl as [|c l Hc _ IH]; intros d; [by rewrite app_nil_r|].
  change (c :: l) with ([c] ++ l). rewrite run_app, run_digit, IH by done.
  by rewrite <- app_assoc.
Qed.

(** The first digit of a number that is not zero. *)
Lemma run_first_digit (f : stepFunc) (c : ascii) (d : bytes) (e : bool) (ps : list parseKind)
    (er : bool) (k : Z) :
  isDigit c = true → c ≠ "0"%char →
  run [c] (Indenter d (Scanner StateBeginValue e ps er) false k)
  = Indenter (d ++ [c]) (Scanner State1 e ps er) false k
  ∧ run [c] (Indenter d (Scanner StateNeg e ps er) false k)
    = Indenter (d ++ [c]) (Scanner State1 e ps er) false k.
Proof.
  intros Hc%isDigit_cases H0.
  cbn [bs list_ascii_of_string] in Hc.
  apply elem_of_cons in Hc as [->|Hc]; [done|].
  split; rewrite run_dst.
  all: repeat (apply elem_of_cons in Hc as [->|Hc]; [by vm_compute|]).
  all: by apply elem_of_nil in Hc.
Qed.

Lemma run_Itoa (i : Z) (d : bytes) (e : bool) (ps : list parseKind) (er : bool) (k : Z) :
  ∃ f, ended f
    ∧ run (strconv.Itoa i) (Indenter d (Scanner StateBeginValue e ps er) false k)
      = Indenter (d ++ strconv.Itoa i) (Scanner f e ps er) false k.
Proof.
  unfold strconv.Itoa. destruct i as [|p|p]; cbn [Z.to_int NilZero.string_of_int].
  - exists State0. split; [right; by left|]. rewrite run_dst. by vm_compute.
  - destruct (to_uint_digits p) as (c & l & -> & Hc & H0 & Hl).
    exists State1. split; [right; by right|].
    change (c :: l) with ([c] ++ l).
    rewrite run_app, (proj1 (run_first_digit StateBeginValue c _ _ _ _ _ Hc H0)), run_digits by done.
    by rewrite <- app_assoc.
  - destruct (to_uint_digits p) as (c & l & Hp & Hc & H0 & Hl).
    cbn [bs list_ascii_of_string]. change (list_ascii_of_string ?s) with (bs s).
    rewrite Hp.
    exists State1. split; [right; by right|].
    change ("-"%char :: c :: l) with (bs "-" ++ [c] ++ l).
    rewrite !run_app.
    replace (run (bs "-") (Indenter d (Scanner StateBeginValue e ps er) false k))
      with (Indenter (d ++ bs "-") (Scanner StateNeg e ps er) false k)
      by (rewrite (run_dst (bs "-")); by vm_compute).
    rewrite (proj2 (run_first_digit StateBeginValue c _ _ _ _ _ Hc H0)), run_digits by done.
    by rewrite <- !app_assoc.
Qed.


(** *** Punctuation *)

Lemma run_open (d : bytes) (k : Z) :
  run (bs "{") (Indenter d (Scanner StateBeginValue false [] false) false k)
  = Indenter (d ++ bs "{") (Scanner StateBeginStringOrEmpty false [parseObjectKey] false) true k.
Proof. rewrite run_dst. by vm_compute. Qed.

Lemma run_colon (d : bytes) (k : Z) :
  run (bs ":") (Indenter d (Scanner StateEndValue false [parseObjectKey] false) false k)
  = Indenter (d ++ bs ": ") (Scanner StateBeginValue false [parseObjectValue] false) false k.
Proof. rewrite run_dst. by vm_compute. Qed.

Lemma run_comma (f : stepFunc) (d : bytes) (k : Z) :
  ended f →
  run (bs ",") (Indenter d (Scanner f false [parseObjectValue] false) false k)
  = Indenter (d ++ bs "," ++ newline k)
      (Scanner StateBeginString false [parseObjectKey] false) false k.
Proof. intros [-> | [-> | ->]]; rewrite run_dst; by vm_compute. Qed.

Lemma run_close (f : stepFunc) (d : bytes) (k : Z) :
  ended f →
  run (bs "}") (Indenter d (Scanner f false [parseObjectValue] false) false k)
  = Indenter (d ++ newline (k - 1) ++ bs "}") (Scanner StateEndTop true [] false) false (k - 1).
Proof. intros [-> | [-> | ->]]; rewrite run_dst; by vm_compute. Qed.

(** *** Slices of strings *)

Lemma run_bracket (d : bytes) (k : Z) :
  run (bs "[") (Indenter d (Scanner StateBeginValue false [parseObjectValue] false) false k)
  = Indenter (d ++ bs "[")
      (Scanner StateBeginValueOrEmpty false [parseArrayValue; parseObjectValue] false) true k.
Proof. rewrite run_dst. by vm_compute. Qed.

Lemma run_bracket_empty (d : bytes) (k : Z) :
  run (bs "]")
    (Indenter d (Scanner StateBeginValueOrEmpty false [parseArrayValue; parseObjectValue] false)
       true k)
  = Indenter (d ++ bs "]") (Scanner StateEndValue false [parseObjectValue] false) false k.
Proof. rewrite run_dst. by vm_compute. Qed.

Lemma run_bracket_close (d : bytes) (k : Z) :
  run (bs "]")
    (Indenter d (Scanner StateEndValue false [parseArrayValue; parseObjectValue] false) false k)
  = Indenter (d ++ newline (k - 1) ++ bs "]")
      (Scanner StateEndValue false [parseObjectValue] false) false (k - 1).
Proof. rewrite run_dst. by vm_compute. Qed.

Lemma run_element_comma (d : bytes) (k : Z) :
  run (bs ",")
    (Indenter d (Scanner StateEndValue false [parseArrayValue; parseObjectValue] false) false k)
  = Indenter (d ++ bs "," ++ newline k)
      (Scanner StateBeginValue false [parseArrayValue; parseObjectValue] false) false k.
Proof. rewrite run_dst. by vm_compute. Qed.

(** The elements after the first one. *)
Lemma run_elements (l : list bytes) (i : nat) (d : bytes) (k : Z) :
  run (arrayEncoder (λ x, stringEncoder x false) (S i) l)
    (Indenter d (Scanner StateEndValue false [parseArrayValue; parseObjectValue] false) false k)
  = Indenter (d ++ (l ≫= λ x, bs "," ++ newline k ++ stringEncoder x false))
      (Scanner StateEndValue false [parseArrayValue; parseObjectValue] false) false k.
Proof.
  revert i d. induction l as [|x l IH]; intros i d; [by rewrite app_nil_r|].
  cbn [arrayEncoder mbind list_bind]. change (0 <? S i)%nat with true. cbv iota.
  change (stringEncoder x false) with (appendString [] x true).
  rewrite !run_app, run_element_comma.
  rewrite run_string by (by left). rewrite IH.
  by rewrite <- !app_assoc.
Qed.

Lemma run_sliceEncoder (l : list bytes) (d : bytes) (k : Z) :
  run (sliceEncoder (Slice l))
    (Indenter d (Scanner StateBeginValue false [parseObjectValue] false) false k)
  = Indenter (d ++ indentedStrings prefix indent k l)
      (Scanner StateEndValue false [parseObjectValue] false) false k.
Proof.
  unfold sliceEncoder, indentedStrings. rewrite run_app, run_bracket.
  destruct l as [|x l].
  { cbn [arrayEncoder app]. rewrite run_bracket_empty. by rewrite <- app_assoc. }
  cbv iota. cbn [arrayEncoder fmap list_fmap]. rewrite Join_cons.
  change (0 <? 0)%nat with false. cbv iota.
  change (stringEncoder x false) with (appendString [] x true).
  cbn [app]. rewrite !run_app.
  rewrite run_string by (right; by left).
  rewrite run_elements, run_bracket_close.
  rewrite Z.add_simpl_r. rewrite appendNewline_app.
  rewrite bind_fmap_bytes.
  by rewrite <- !app_assoc.
Qed.


(** *** Fields and members *)

(** The value of a field, where a member of the top-level object has its
    value. *)
Lemma run_fieldEncoder (v : fieldValue) (quoted : bool) (d : bytes) (k : Z) :
  ∃ f, ended f
    ∧ run (fieldEncoder v quoted)
        (Indenter d (Scanner StateBeginValue false [parseObjectValue] false) false k)
      = Indenter (d ++ indentedField prefix indent k v quoted)
          (Scanner f false [parseObjectValue] false) false k.
Proof.
  assert (∀ w, w = bs "true" ∨ w = bs "false" ∨ w = bs "null" →
    ∃ f, ended f
      ∧ run w (Indenter d (Scanner StateBeginValue false [parseObjectValue] false) false k)
        = Indenter (d ++ w) (Scanner f false [parseObjectValue] false) false k) as Hword.
  { intros w Hw. exists StateEndValue. split; [by left|]. by apply run_word. }
  assert (∀ s esc,
    ∃ f, ended f
      ∧ run (appendString [] s esc)
          (Indenter d (Scanner StateBeginValue false [parseObjectValue] false) false k)
        = Indenter (d ++ appendString [] s esc)
            (Scanner f false [parseObjectValue] false) false k) as Hstring.
  { intros s esc. exists StateEndValue. split; [by left|].
    rewrite run_string by (by left). done. }
  destruct v as [[s|]|[b|]|[i|]|[[|l]|]|[|l]]; cbn [fieldEncoder indentedField];
    try (apply Hword; by right; right).
  - unfold stringEncoder. destruct quoted; apply Hstring.
  - unfold boolEncoder, mayAppendQuote. destruct quoted.
    + change ([] ++ [dq]) with [dq].
      change (([dq] ++ strconv.FormatBool b) ++ [dq]) with (q (strconv.FormatBool b)).
      rewrite <- (appendString_safe _ true) by apply FormatBool_safe. apply Hstring.
    + cbn [app]. apply Hword. destruct b; [by left|right; by left].
  - unfold intEncoder, mayAppendQuote. destruct quoted.
    + change ([] ++ [dq]) with [dq].
      change (([dq] ++ strconv.Itoa i) ++ [dq]) with (q (strconv.Itoa i)).
      rewrite <- (appendString_safe _ true) by apply Itoa_safe. apply Hstring.
    + cbn [app]. apply run_Itoa.
  - exists StateEndValue. split; [by left|]. apply run_sliceEncoder.
  - exists StateEndValue. split; [by left|]. apply run_sliceEncoder.
Qed.


(** The members after the first one. *)
Lemma run_members (ms : list (bytes * bool * fieldValue)) (f : stepFunc) (d : bytes) :
  ended f →
  ∃ f', ended f'
    ∧ run (writtenMembers ","%char ms)
        (Indenter d (Scanner f false [parseObjectValue] false) false 1)
      = Indenter (d ++ (ms ≫= λ m, bs "," ++ memberLine m))
          (Scanner f' false [parseObjectValue] false) false 1.
Proof.
  revert f d. induction ms as [|[[name quoted] v] ms IH]; intros f d Hf.
  { exists f. split; [done|]. by rewrite app_nil_r. }
  cbn [writtenMembers mbind list_bind].
  change [","%char] with (bs ","). rewrite !run_app.
  rewrite run_comma by done. rewrite run_string by (right; right; by left).
  rewrite run_colon.
  edestruct (run_fieldEncoder v quoted) as (f1 & Hf1 & ->).
  edestruct (IH f1) as (f' & Hf' & ->); [done|].
  exists f'. split; [done|]. unfold indentedMember. by rewrite <- !app_assoc.
Qed.

(** The indented form of an encoded struct: [appendIndent] does not fail
    and lays the members out one on a line. *)
Lemma appendIndent_struct (fs : struct) :
  appendIndent [] (structEncoder fs) prefix indent = inr (indentedStruct prefix indent fs).
Proof.
  unfold appendIndent, indentedStruct. rewrite structEncoder_written.
  destruct (written fs) as [|[[name quoted] v] ms]; [by vm_compute|].
  cbn [writtenMembers fmap list_fmap]. rewrite Join_cons, bind_fmap_bytes.
  change ["{"%char] with (bs "{"). rewrite <- !app_assoc. rewrite !run_app.
  unfold newScanner. rewrite run_open.
  rewrite run_string by (right; right; by right).
  rewrite run_colon.
  edestruct (run_fieldEncoder v quoted) as (f1 & Hf1 & ->).
  edestruct (run_members ms f1) as (f' & Hf' & ->); [done|].
  rewrite run_close by done.
  cbn [scan dst eof err endTop].
  change (indentedMember prefix indent (name, quoted, v))
    with (newline 1 ++ appendString [] name true ++ bs ": "
            ++ indentedField prefix indent 1 v quoted).
  f_equal. rewrite appendNewline_app. cbn [app]. by rewrite <- !app_assoc.
Qed.

End Indent.

Section IndentedNumber.
Import json.

Lemma terminated_not_digit (rest : bytes) :
  terminated rest → match rest with c :: _ => isDigit c = false | [] => True end.
Proof. destruct rest as [|c rest]; [done|]. by intros [? _]. Qed.

(** A number written by [Itoa] is read back before any byte that cannot
    continue it. *)
Lemma scan_number_terminated (i : Z) (rest : bytes) :
  terminated rest →
  scan_number (strconv.Itoa i ++ rest) = Some (strconv.Itoa i, rest).
Proof.
  intros Hrest.
  assert (∀ sign c l, (c = "0"%char ∧ l = []) ∨ (isDigit c = true ∧ c ≠ "0"%char) →
    Forall (λ c, isDigit c = true) l →
    ('(int, s) ←
       (if bool_decide (c = "0"%char) then Some ([c], l ++ rest)
        else if isDigit c then Some (scan_digits (c :: l ++ rest)) else None);
     '(frac, s) ←
       match s with
       | c :: s' =>
         if bool_decide (c = "."%char) then
           match scan_digits s' with
           | ([], _) => None
           | (d, rest) => Some (c :: d, rest)
           end
         else Some ([], s)
       | [] => Some ([], s)
       end;
     '(exp, s) ←
       match s with
       | c :: s' =>
         if bool_decide (c = "e"%char) || bool_decide (c = "E"%char) then
           let '(esign, s'') :=
             match s' with
             | c' :: t =>
               if bool_decide (c' = "+"%char) || bool_decide (c' = "-"%char)
               then ([c'], t) else ([], s')
             | [] => ([], s')
             end in
           match scan_digits s'' with
           | ([], _) => None
           | (d, rest) => Some (c :: esign ++ d, rest)
           end
         else Some ([], s)
       | [] => Some ([], s)
       end;
     Some (sign ++ int ++ frac ++ exp, s)) = Some (sign ++ c :: l, rest)) as Hnum.
  { intros sign c l Hc Hl.
    assert ((if bool_decide (c = "0"%char) then Some ([c], l ++ rest)
             else if isDigit c then Some (scan_digits (c :: l ++ rest)) else None)
            = Some (c :: l, rest)) as ->.
    { destruct Hc as [[-> ->]|[Hc H0]]; [done|].
      rewrite (bool_decide_eq_false_2 _ H0), Hc.
      change (c :: l ++ rest) with ((c :: l) ++ rest).
      rewrite scan_digits_all; [done|by constructor|by apply terminated_not_digit]. }
    cbn [mbind option_bind].
    destruct rest as [|r rest]; [done|]. destruct Hrest as (_ & Hdot & He & HE).
    rewrite (bool_decide_eq_false_2 _ Hdot). cbn [mbind option_bind].
    rewrite (bool_decide_eq_false_2 _ He), (bool_decide_eq_false_2 _ HE).
    cbn [orb mbind option_bind app]. by rewrite ?app_nil_r. }
  unfold strconv.Itoa. destruct i as [|p|p]; cbn [Z.to_int NilZero.string_of_int].
  - unfold scan_number. cbn [bs list_ascii_of_string NilZero.string_of_uint
      NilEmpty.string_of_uint app].
    change (bool_decide ("0"%char = "-"%char)) with false. cbv iota.
    apply (Hnum [] "0"%char []); [by left|done].
  - destruct (to_uint_digits p) as (c & l & -> & Hc & H0 & Hl).
    unfold scan_number. cbn [app].
    assert (c ≠ "-"%char) as Hm by (intros ->; done).
    rewrite (bool_decide_eq_false_2 _ Hm).
    apply (Hnum [] c l); [by right|done].
  - destruct (to_uint_digits p) as (c & l & Hp & Hc & H0 & Hl).
    cbn [bs list_ascii_of_string]. change (list_ascii_of_string ?s) with (bs s).
    rewrite Hp. unfold scan_number. cbn [app].
    change (bool_decide ("-"%char = "-"%char)) with true. cbv iota.
    apply (Hnum ["-"%char] c l); [by right|done].
Qed.

Lemma parse_value_Itoa_terminated (f : nat) (d : N) (i : Z) (rest : bytes) :
  terminated rest →
  parse_value (S f) d (strconv.Itoa i ++ rest) = Some (Number (strconv.Itoa i), rest).
Proof.
  intros Hrest. pose proof (scan_number_terminated i rest Hrest) as Hn.
  destruct (Itoa_head i) as (c & l & Hi & Hc).
  rewrite Hi in *. cbn [app] in *. cbn [parse_value].
  assert (c ≠ dq ∧ c ≠ "["%char ∧ c ≠ "{"%char ∧ c ≠ "t"%char ∧ c ≠ "f"%char ∧ c ≠ "n"%char)
    as (? & ? & ? & ? & ? & ?).
  { destruct Hc as [Hc| ->]; [|done]. split_and!; intros ->; done. }
  rewrite !bool_decide_eq_false_2 by done. cbn [strings.HasPrefix bs list_ascii_of_string].
  rewrite !bool_decide_eq_false_2 by done. cbn [andb].
  by rewrite Hn.
Qed.

End IndentedNumber.

Section IndentedParse.
Import json.
Context (prefix indent : bytes).
Hypothesis Hprefix : Forall (λ c, isSpace c = true) prefix.
Hypothesis Hindent : Forall (λ c, isSpace c = true) indent.

Local Abbreviation newline := (appendNewline [] prefix indent).

Lemma skip_ws_spaces (w rest : bytes) :
  Forall (λ c, isSpace c = true) w → skip_ws (w ++ rest) = skip_ws rest.
Proof. induction 1 as [|c w Hc _ IH]; [done|]. cbn [app skip_ws]. by rewrite Hc. Qed.

Lemma newline_spaces (k : Z) : Forall (λ c, isSpace c = true) (newline k).
Proof.
  unfold appendNewline. cbn [app]. constructor; [done|].
  apply Forall_app. split; [done|].
  apply Forall_concat, Forall_replicate. done.
Qed.

Lemma skip_ws_newline (k : Z) (rest : bytes) : skip_ws (newline k ++ rest) = skip_ws rest.
Proof. apply skip_ws_spaces, newline_spaces. Qed.

Lemma newline_length (k : Z) : 1 ≤ length (newline k).
Proof. unfold appendNewline. cbn [app length]. lia. Qed.

Lemma terminated_newline (k : Z) (rest : bytes) : terminated (newline k ++ rest).
Proof. unfold appendNewline. cbn [app terminated]. split_and!; done. Qed.

(** *** Slices *)

Lemma parse_elems_indented (l : list bytes) (k k' : Z) :
  ∀ (f : nat) (d : N) (rest : bytes),
  length l + 1 < f →
  parse_elems f d
    (skip_ws ((l ≫= λ x, bs "," ++ newline k' ++ stringEncoder x false)
                ++ newline k ++ bs "]" ++ rest))
  = Some (String ∘ coerce <$> l, rest).
Proof.
  induction l as [|x l IH]; intros f d rest Hf.
  { cbn [mbind list_bind app]. rewrite skip_ws_newline.
    destruct f; [lia|]. reflexivity. }
  destruct f as [|[|f]]; [cbn in Hf; lia..|].
  cbn [mbind list_bind]. rewrite <- !app_assoc.
  change (bs "," ++ ?y) with (","%char :: y). rewrite skip_ws_not_space by done.
  rewrite parse_elems_comma, skip_ws_newline.
  unfold stringEncoder at 1. rewrite appendString_cons, skip_ws_dq, <- appendString_cons.
  rewrite parse_value_string. cbn [mbind option_bind].
  rewrite IH; [done|]. cbn [length] in Hf. lia.
Qed.

Lemma parse_value_indentedStrings (l : list bytes) (k : Z) (f : nat) (d : N) (rest : bytes) :
  length l + 2 < f →
  (N.succ d ≤ maxNestingDepth)%N →
  parse_value f d (indentedStrings prefix indent k l ++ rest)
  = Some (Array (String ∘ coerce <$> l), rest).
Proof.
  intros Hf Hd. unfold indentedStrings. destruct l as [|x l].
  { destruct f as [|f]; [lia|]. cbn [bs list_ascii_of_string app].
    cbn [parse_value]. decide_bytes. cbn iota.
    destruct (N.ltb_spec maxNestingDepth (N.succ d)) as [?|_]; [lia|].
    cbn [skip_ws]. change (isSpace "]") with false. cbn iota. by decide_bytes. }
  destruct f as [|[|f]]; [cbn in Hf; lia..|].
  cbn [fmap list_fmap]. rewrite Join_cons, bind_fmap_bytes.
  rewrite <- !app_assoc. change (bs "[" ++ ?y) with ("["%char :: y).
  rewrite parse_value_bracket.
  destruct (N.ltb_spec maxNestingDepth (N.succ d)) as [?|_]; [lia|].
  rewrite skip_ws_newline.
  unfold stringEncoder at 1. rewrite appendString_cons, skip_ws_dq.
  change (bool_decide (dq = "]"%char)) with false. cbv iota.
  rewrite <- appendString_cons, parse_value_string. cbn [mbind option_bind].
  rewrite parse_elems_indented; [done|]. cbn [length] in Hf. lia.
Qed.

Lemma indentedStrings_length (l : list bytes) (k : Z) :
  length l + 2 ≤ length (indentedStrings prefix indent k l).
Proof.
  unfold indentedStrings. destruct l as [|x l]; [done|].
  cbn [fmap list_fmap]. rewrite Join_cons, bind_fmap_bytes.
  rewrite !length_app. change (length (bs "[")) with 1. change (length (bs "]")) with 1.
  pose proof (newline_length (k + 1)). pose proof (newline_length k).
  assert (length l ≤ length (l ≫= λ x, bs "," ++ newline (k + 1) ++ stringEncoder x false)).
  { clear. induction l as [|y l IH]; [done|].
    cbn [mbind list_bind length]. rewrite !length_app. change (length (bs ",")) with 1. lia. }
  cbn [length]. lia.
Qed.

(** *** Fields *)

Lemma indentedField_head (v : fieldValue) (quoted : bool) (k : Z) :
  ∃ c e, indentedField prefix indent k v quoted = c :: e ∧ isSpace c = false.
Proof.
  assert (∀ l, ∃ c e, indentedStrings prefix indent k l = c :: e ∧ isSpace c = false) as Hl.
  { intros [|x l]; by eexists _, _. }
  destruct v as [[s|]|[b|]|[i|]|[[|l]|]|[|l]]; cbn [indentedField];
    try apply Hl; apply fieldEncoder_head.
Qed.

Lemma skip_ws_indentedField (v : fieldValue) (quoted : bool) (k : Z) (rest : bytes) :
  skip_ws (indentedField prefix indent k v quoted ++ rest)
  = indentedField prefix indent k v quoted ++ rest.
Proof.
  destruct (indentedField_head v quoted k) as (c & e & -> & Hc).
  by apply skip_ws_not_space.
Qed.

(** The value the parser reads where a field has been written and
    indented. *)
Lemma parse_value_indentedField (v : fieldValue) (quoted : bool) (k : Z) (f : nat) (d : N)
    (rest : bytes) :
  length (indentedField prefix indent k v quoted) < f →
  (N.succ d ≤ maxNestingDepth)%N →
  terminated rest →
  parse_value f d (indentedField prefix indent k v quoted ++ rest) = Some (wire v quoted, rest).
Proof.
  intros Hf Hd Hrest.
  assert (∀ l, length (indentedStrings prefix indent k l) < f →
    parse_value f d (indentedStrings prefix indent k l ++ rest)
    = Some (Array (String ∘ coerce <$> l), rest)) as Hl.
  { intros l Hlen. pose proof (indentedStrings_length l k).
    apply parse_value_indentedStrings; [lia|done]. }
  destruct f as [|f]; [lia|].
  destruct v as [[s|]|[b|]|[i|]|[[|l]|]|[|l]]; cbn [indentedField fieldEncoder wire] in *;
    try apply parse_value_null; try (by apply Hl).
  - unfold stringEncoder. destruct quoted; by rewrite parse_value_string.
  - unfold boolEncoder, mayAppendQuote. destruct quoted; [|by apply parse_value_bool].
    change ([] ++ [dq]) with [dq].
    change (([dq] ++ strconv.FormatBool b) ++ [dq]) with (q (strconv.FormatBool b)).
    rewrite <- (appendString_safe _ true) by apply FormatBool_safe.
    by rewrite parse_value_string, coerce_FormatBool.
  - unfold intEncoder, mayAppendQuote. destruct quoted.
    + change ([] ++ [dq]) with [dq].
      change (([dq] ++ strconv.Itoa i) ++ [dq]) with (q (strconv.Itoa i)).
      rewrite <- (appendString_safe _ true) by apply Itoa_safe.
      by rewrite parse_value_string, coerce_safe by apply Itoa_safe.
    + cbn [app]. by apply parse_value_Itoa_terminated.
Qed.

(** *** Members *)

Local Abbreviation memberLines :=
  (λ ms : list (bytes * bool * fieldValue), ms ≫= λ m, bs "," ++ indentedMember prefix indent m).

Lemma terminated_members (ms : list (bytes * bool * fieldValue)) (rest : bytes) :
  terminated (memberLines ms ++ newline 0 ++ rest).
Proof.
  destruct ms as [|m ms]; [apply terminated_newline|].
  cbn [mbind list_bind bs list_ascii_of_string app terminated]. split_and!; done.
Qed.

Lemma parse_member_indented (f : nat) (d : N) (name : bytes) (quoted : bool) (v : fieldValue)
    (rest : bytes) :
  length (indentedField prefix indent 1 v quoted) + 1 < f →
  (N.succ d ≤ maxNestingDepth)%N →
  terminated rest →
  parse_member f d
    (appendString [] name true ++ bs ": " ++ indentedField prefix indent 1 v quoted ++ rest)
  = Some ((coerce name, wire v quoted), rest).
Proof.
  intros Hf Hd Hrest. destruct f as [|f]; [lia|].
  rewrite appendString_cons. cbn [parse_member]. decide_bytes. cbn iota.
  rewrite scan_string_lit_appendString.
  cbn [mbind option_bind bs list_ascii_of_string app skip_ws].
  change (isSpace ":") with false. change (isSpace " ") with true. cbn iota. decide_bytes.
  cbn iota. cbn [skip_ws]. change (isSpace " ") with true. cbn iota.
  rewrite skip_ws_indentedField, parse_value_indentedField by (done || lia). done.
Qed.

Lemma parse_members_indented (ms : list (bytes * bool * fieldValue)) :
  ∀ (f : nat) (d : N) (rest : bytes),
  length (memberLines ms) < f →
  (N.succ d ≤ maxNestingDepth)%N →
  parse_members f d (skip_ws (memberLines ms ++ newline 0 ++ bs "}" ++ rest))
  = Some ((λ '(name, quoted, v), (coerce name, wire v quoted)) <$> ms, rest).
Proof.
  induction ms as [|[[name quoted] v] ms IH]; intros f d rest Hf Hd.
  { cbn [mbind list_bind app]. rewrite skip_ws_newline.
    destruct f; [lia|]. reflexivity. }
  destruct f as [|f]; [lia|].
  cbn [mbind list_bind] in *. unfold indentedMember at 1 in Hf. unfold indentedMember at 1.
  rewrite !length_app in Hf. unfold appendString at 1 in Hf. rewrite !length_app in Hf.
  change (length (bs ",")) with 1 in Hf. change (length (bs ": ")) with 2 in Hf.
  cbn [length] in Hf.
  rewrite <- !app_assoc. change (bs "," ++ ?y) with (","%char :: y).
  rewrite skip_ws_not_space by done.
  rewrite parse_members_comma, skip_ws_newline.
  rewrite appendString_cons, skip_ws_dq, <- appendString_cons.
  rewrite parse_member_indented; [|lia|done|apply terminated_members].
  cbn [mbind option_bind].
  rewrite IH by (done || lia). done.
Qed.

Lemma parse_value_brace (f : nat) (d : N) (s : bytes) :
  parse_value (S f) d ("{"%char :: s)
  = if (maxNestingDepth <? N.succ d)%N then None
    else match skip_ws s with
         | c' :: r =>
           if bool_decide (c' = "}"%char) then Some (Object [], r)
           else
             '(m, r1) ← parse_member f (N.succ d) (c' :: r);
             '(ms, r2) ← parse_members f (N.succ d) (skip_ws r1);
             Some (Object (m :: ms), r2)
         | [] => None
         end.
Proof. cbn [parse_value]. by decide_bytes. Qed.

(** An indented struct parses, to the object of the members written. *)
Lemma parse_indentedStruct (fs : struct) :
  parse (indentedStruct prefix indent fs) = Some (Object (members fs)).
Proof.
  unfold indentedStruct, members.
  destruct (written fs) as [|[[name quoted] v] ms]; [reflexivity|].
  cbn [fmap list_fmap]. rewrite Join_cons, bind_fmap_bytes.
  unfold parse.
  change (indentedMember prefix indent (name, quoted, v))
    with (newline 1 ++ appendString [] name true ++ bs ": "
            ++ indentedField prefix indent 1 v quoted).
  match goal with
  | |- context [length ?x] =>
    assert (length (indentedField prefix indent 1 v quoted) + length (memberLines ms) + 4
            ≤ length x) as Hf;
      [|revert Hf; generalize (length x); intros f Hf]
  end.
  { rewrite !length_app. unfold appendString at 1.
    rewrite !length_app. change (length (bs "{")) with 1. change (length (bs ": ")) with 2.
    change (length (bs "}")) with 1. cbn [length]. lia. }
  rewrite <- !app_assoc.
  change (bs "{" ++ ?y) with ("{"%char :: y).
  rewrite skip_ws_not_space by done.
  rewrite parse_value_brace.
  change (maxNestingDepth <? N.succ 0)%N with false. cbv iota.
  rewrite skip_ws_newline.
  rewrite appendString_cons, skip_ws_dq.
  change (bool_decide (dq = "}"%char)) with false. cbv iota.
  rewrite <- appendString_cons.
  rewrite parse_member_indented; [|lia|done|apply terminated_members].
  cbn [mbind option_bind].
  rewrite <- (app_nil_r (bs "}")).
  rewrite parse_members_indented by (done || lia). done.
Qed.

End IndentedParse.

Section PrettyString.
Import json.

(** X25. For a struct with distinct keys whose names and strings are
    valid UTF-8, [prettyStringStruct] never takes its error branch: the
    text is the encoding laid out with one member on a line, indented by
    one tab, a colon and a space after each name, a slice of strings
    with one element on a line indented by two tabs, and the closing
    brace on a line of its own; a struct of which no field is written
    gives the two braces. *)
Theorem prettyStringStruct_layout (fs : struct) :
  NoDup (keys fs) →
  Forall (λ x, utf8.Valid x = true) (texts fs) →
  MarshalIndent fs [] [byte_of 9] = inr (indentedStruct [] [byte_of 9] fs)
  ∧ prettyStringStruct fs = indentedStruct [] [byte_of 9] fs
  ∧ prettyStringStruct fs ≠ [].
Proof.
  intros _ _.
  assert (MarshalIndent fs [] [byte_of 9] = inr (indentedStruct [] [byte_of 9] fs)) as HM.
  { unfold MarshalIndent, Marshal, Marshal_struct. apply appendIndent_struct. }
  assert (prettyStringStruct fs = indentedStruct [] [byte_of 9] fs) as HS.
  { unfold prettyStringStruct. by rewrite HM. }
  split_and!; [done..|].
  rewrite HS. unfold indentedStruct. by destruct (written fs).
Qed.

Lemma prettyStringStruct_layout_witness :
  prettyStringStruct Examples.mixed
  = bs "{" ++ [byte_of 10; byte_of 9] ++ q (bs "exact") ++ bs ": " ++ q (bs "true") ++ bs ","
      ++ [byte_of 10; byte_of 9] ++ q (bs "max") ++ bs ": 10,"
      ++ [byte_of 10; byte_of 9] ++ q (bs "q") ++ bs ": " ++ q (bs "a b") ++ bs ","
      ++ [byte_of 10; byte_of 9] ++ q (bs "type") ++ bs ": ["
      ++ [byte_of 10; byte_of 9; byte_of 9] ++ q (bs "LOGIN") ++ bs ","
      ++ [byte_of 10; byte_of 9; byte_of 9] ++ q (bs "LOGOUT")
      ++ [byte_of 10; byte_of 9] ++ bs "]"
      ++ [byte_of 10] ++ bs "}".
Proof.
  destruct (prettyStringStruct_layout Examples.mixed) as (_ & Hs & _).
  - apply (bool_decide_unpack _). vm_compute. reflexivity.
  - repeat constructor.
  - rewrite Hs. vm_compute. reflexivity.
Defined.

(** X26. For a struct with distinct keys, the text [prettyStringStruct]
    gives is valid JSON and reads back as the same value as the compact
    encoding of [json.Marshal]: the object of the fields that are
    written, in order. *)
Theorem prettyStringStruct_parse (fs : struct) :
  NoDup (keys fs) →
  ∃ b, Marshal fs = inr b
    ∧ parse (prettyStringStruct fs) = parse b
    ∧ parse b = Some (Object (members fs)).
Proof.
  intros _.
  exists (structEncoder fs). split; [done|].
  rewrite parse_struct. split; [|done].
  assert (prettyStringStruct fs = indentedStruct [] [byte_of 9] fs) as ->.
  { unfold prettyStringStruct, MarshalIndent, Marshal, Marshal_struct.
    by rewrite appendIndent_struct. }
  apply parse_indentedStruct; by repeat constructor.
Qed.

Lemma prettyStringStruct_parse_witness :
  parse (prettyStringStruct Examples.mixed)
  = Some (Object [ (bs "exact", String (bs "true"));
                   (bs "max", Number (bs "10"));
                   (bs "q", String (bs "a b"));
                   (bs "type", Array [String (bs "LOGIN"); String (bs "LOGOUT")]) ]).
Proof.
  destruct (prettyStringStruct_parse Examples.mixed) as (b & Hb & Hp & Hm).
  - apply (bool_decide_unpack _). vm_compute. reflexivity.
  - rewrite Hp, Hm. reflexivity.
Defined.

End PrettyString.
